(** * Penko Tune: audio graph, equalizer and visualizer pipeline

    A shallow embedding of the signal-processing core of the player:
    - [types.ts]: [VisualizerMode], [EQBand], the [karaokeMode] flag;
    - [components/Visualizer.tsx]: the smoothing buffer, the eight render
      modes and the animation-frame loop;
    - [App.tsx]: [initAudioContext], [toggleKaraokeMode], [handleEQChange],
      [resetEQ] and the preset loader; the track navigation
      ([getNextTrack], [getPrevTrack], [playNext], [playPrev],
      [removeTrack]); the playlists; the chapter markers; the volume, mute,
      shuffle and repeat handlers; the sleep timer's display;
      [extractVideoId];
    - [components/Equalizer.tsx]: the range input of a band, the user
      presets the panel holds;
    - [components/PlayerControls.tsx]: the click on the seek bar;
    - [utils/persistence.ts]: [getBuiltInPresets].

    Numbers.  A JavaScript number is modelled as an exact rational, or [NaN]
    for a value that is not a finite number (reading past the end of an
    array, dividing by zero).  Rounding of IEEE doubles is not modelled:
    arithmetic is exact. *)

From Stdlib Require Import QArith Qround Qabs Qpower Qminmax Lia Lqa ZArith List String
  Ascii DecimalString Sorted.
From Stdlib.Strings Require Import Byte.
From stdpp Require Import base list strings gmap.

Open Scope Q_scope.

(* ================================================================== *)
(** * JavaScript numbers and typed arrays *)
(* ================================================================== *)

Module JS.

(** [Some q] is the finite number [q]; [None] is [NaN] (also standing for
    every other non-finite value). *)
Definition num : Type := option Q.

Definition fin (q : Q) : num := Some q.
Definition NaN : num := None.

Definition lift2 (f : Q -> Q -> Q) (a b : num) : num :=
  match a, b with
  | Some x, Some y => Some (f x y)
  | _, _ => None
  end.

Definition add : num -> num -> num := lift2 Qplus.
Definition sub : num -> num -> num := lift2 Qminus.
Definition mul : num -> num -> num := lift2 Qmult.

(** Division by zero does not give a finite number. *)
Definition div (a b : num) : num :=
  match a, b with
  | Some x, Some y => if Qeq_bool y 0 then None else Some (x / y)
  | _, _ => None
  end.

(** [Math.max(a, b)]. *)
Definition max : num -> num -> num :=
  lift2 (fun x y => if Qle_bool x y then y else x).

(** [a || 0] on a number: [NaN], [undefined] and [0] all give [0]. *)
Definition or0 (a : num) : num :=
  match a with Some x => Some x | None => Some 0 end.

(** [a[i]] on an array of numbers: [undefined] out of range, which every
    arithmetic operation turns into [NaN]. *)
Definition get (a : list num) (i : Z) : num :=
  if (i <? 0)%Z then None
  else match a !! Z.to_nat i with
       | Some v => v
       | None => None
       end.

(** [a[i] = v] on a typed array: nothing happens out of range. *)
Definition set (a : list num) (i : Z) (v : num) : list num :=
  if (i <? 0)%Z then a else <[Z.to_nat i := v]> a.

(** [new Float32Array(n).fill(0)]. *)
Definition zeros (n : nat) : list num := replicate n (Some 0).

(** [Math.floor] of an exact index expression. *)
Definition floor (q : Q) : Z := Qfloor q.

(** [x % y] on finite numbers, [y] not zero: the remainder of the
    division truncated towards zero. *)
Definition trunc (q : Q) : Z :=
  if Qle_bool 0 q then Qfloor q else Qceiling q.
Definition fmod (x y : Q) : Q := x - y * inject_Z (trunc (x / y)).

(** [i % n] on integers used as an array index: [NaN] when [n] is [0],
    and [a[NaN]] is [undefined]. *)
Definition get_rem (a : list num) (i n : Z) : num :=
  if (n =? 0)%Z then None else get a (Z.rem i n).

(** [i] is an index into an array of [n] elements. *)
Definition inside (n : Z) (i : Z) : bool := (0 <=? i)%Z && (i <? n)%Z.

(** Equality of numbers up to the value of the rational. *)
Definition eq (a b : num) : Prop :=
  match a, b with
  | Some x, Some y => x == y
  | None, None => True
  | _, _ => False
  end.

(** A finite number in the closed range [lo, hi]. *)
Definition within (lo hi : Q) (a : num) : Prop :=
  match a with
  | Some x => lo <= x <= hi
  | None => False
  end.

Definition finite (a : num) : Prop :=
  match a with Some _ => True | None => False end.

End JS.

Declare Scope num_scope.
Delimit Scope num_scope with J.
Bind Scope num_scope with JS.num.
Coercion JS.fin : Q >-> JS.num.
Infix "+" := JS.add : num_scope.
Infix "-" := JS.sub : num_scope.
Infix "*" := JS.mul : num_scope.
Infix "/" := JS.div : num_scope.

(* ================================================================== *)
(** * types.ts *)
(* ================================================================== *)

Inductive VisualizerMode : Type :=
| BARS | WAVE | CIRCLE | SPIRAL | PARTICLES | SPECTRUM | RINGS | DNA.

Definition VisualizerMode_eqb (a b : VisualizerMode) : bool :=
  match a, b with
  | BARS, BARS | WAVE, WAVE | CIRCLE, CIRCLE | SPIRAL, SPIRAL
  | PARTICLES, PARTICLES | SPECTRUM, SPECTRUM | RINGS, RINGS | DNA, DNA => true
  | _, _ => false
  end.

(** [EQBand]: the optional [node] field is never set by the code. *)
Record EQBand : Type := mkEQBand { frequency : Q; gain : Q }.

(* ================================================================== *)
(** * components/Visualizer.tsx: smoothing *)
(* ================================================================== *)

Module Smoothing.

(** [const fftSize = 1024; analyser.fftSize = fftSize;
     const bufferLength = analyser.frequencyBinCount;] *)
Definition fftSize : nat := 1024.
Definition frequencyBinCount (fft : nat) : nat := Nat.div fft 2.
Definition bufferLength : nat := frequencyBinCount fftSize.

(** [dataArray[i]] on the [Uint8Array] snapshot. *)
Definition byte_get (dataArray : list byte) (i : Z) : JS.num :=
  if (i <? 0)%Z then None
  else match dataArray !! Z.to_nat i with
       | Some b => Some (inject_Z (Z.of_N (Byte.to_N b)))
       | None => None
       end.

(** [if (prevDataRef.current.length !== bufferLength)
       prevDataRef.current = new Float32Array(bufferLength).fill(0);] *)
Definition initSmoothing (prev : list JS.num) (n : nat) : list JS.num :=
  if Nat.eqb (length prev) n then prev else JS.zeros n.

(** [let smoothingFactor = 0.3;
     if (mode === SPIRAL) smoothingFactor = 0.8;
     if (mode === WAVE) smoothingFactor = 0.5;] *)
Definition smoothingFactor (mode : VisualizerMode) : Q :=
  let f := 0.3 in
  let f := if VisualizerMode_eqb mode SPIRAL then 0.8 else f in
  let f := if VisualizerMode_eqb mode WAVE then 0.5 else f in
  f.

(** One iteration of the smoothing loop, on the pair
    [(prevDataRef.current, smoothData)]:
    [const target = isPlaying ? dataArray[i] : 0;
     prevDataRef.current[i] += (target - prevDataRef.current[i]) * smoothingFactor;
     smoothData[i] = prevDataRef.current[i];] *)
Definition smoothAt (isPlaying : bool) (alpha : Q) (dataArray : list byte)
    (st : list JS.num * list JS.num) (i : Z) : list JS.num * list JS.num :=
  let '(prev, smoothData) := st in
  let target := if isPlaying then byte_get dataArray i else 0%J in
  let prev' :=
    JS.set prev i (JS.get prev i + (target - JS.get prev i) * alpha)%J in
  (prev', JS.set smoothData i (JS.get prev' i)).

(** [const smoothData = new Float32Array(bufferLength);
     for (let i = 0; i < bufferLength; i++) { ... }] *)
Definition smooth (isPlaying : bool) (alpha : Q) (n : nat)
    (dataArray : list byte) (prev : list JS.num) : list JS.num * list JS.num :=
  fold_left (smoothAt isPlaying alpha dataArray)
            (seqZ 0 (Z.of_nat n)) (prev, JS.zeros n).

(** The value the loop writes at bin [k], from the old value [x]. *)
Definition ema (isPlaying : bool) (alpha : Q) (d : list byte) (k : nat)
    (x : JS.num) : JS.num :=
  (x + ((if isPlaying then byte_get d (Z.of_nat k) else 0) - x) * alpha)%J.

(** The buffer after a run of frames, one snapshot per frame. *)
Definition smoothFrames (isPlaying : bool) (alpha : Q) (n : nat)
    (frames : list (list byte)) (prev : list JS.num) : list JS.num :=
  fold_left (fun p d => fst (smooth isPlaying alpha n d p)) frames prev.

(** A frame of silence: the player is paused, or the snapshot is zero in
    every bin. *)
Definition silentFrame (isPlaying : bool) (n : nat) (d : list byte) : Prop :=
  isPlaying = false \/ d = replicate n x00.

End Smoothing.

(* ================================================================== *)
(** * components/Visualizer.tsx: the render modes *)
(* ================================================================== *)

(** Colours stay symbolic: a CSS string, a call of one of d3's colour
    interpolators, or an [hsl(...)] template string. *)
Inductive Paint : Type :=
| Css (s : string)
| Cool (t : JS.num)
| Warm (t : JS.num)
| Viridis (t : JS.num)
| Hsl (h : JS.num) (s l : Q).

(** A [<path>] element: its class, the points its closed Catmull-Rom curve
    goes through, and its attributes. *)
Record PathEl : Type := mkPath {
  path_cls : string;
  path_d : list (JS.num * JS.num);
  path_fill : Paint;
  path_stroke : Paint;
  path_strokeWidth : option Q;
  path_opacity : JS.num
}.

(** The SVG elements a frame leaves in the drawing surface, with the
    attributes the code sets on them. *)
Inductive Primitive : Type :=
| Rect (cls : string) (x y width height : JS.num) (fill : Paint)
       (rx opacity : Q)
| Circle (cls : string) (cx cy r : JS.num) (fill : Paint)
         (stroke : option Paint) (strokeWidth : option JS.num)
         (opacity : JS.num)
| Line (cls : string) (x1 y1 x2 y2 : JS.num) (stroke : Paint)
       (strokeWidth : JS.num) (opacity : option JS.num)
| Group (cls : string) (children : list PathEl)
| Defs (gradientId : string) (stops : list (string * string)).

Definition RenderScene : Type := list Primitive.

Definition is_rect (p : Primitive) : bool :=
  match p with Rect _ _ _ _ _ _ _ _ => true | _ => false end.
Definition is_circle (p : Primitive) : bool :=
  match p with Circle _ _ _ _ _ _ _ _ => true | _ => false end.
Definition is_line (p : Primitive) : bool :=
  match p with Line _ _ _ _ _ _ _ _ => true | _ => false end.
Definition is_cool_circle (p : Primitive) : bool :=
  match p with Circle _ _ _ _ (Cool _) _ _ _ => true | _ => false end.
Definition is_warm_circle (p : Primitive) : bool :=
  match p with Circle _ _ _ _ (Warm _) _ _ _ => true | _ => false end.

Definition count (f : Primitive -> bool) (s : RenderScene) : nat :=
  length (List.filter f s).

(** The [r] attribute of the circle of class [cls] in a scene. *)
Definition radius_of (cls : string) (s : RenderScene) : JS.num :=
  match List.find (fun p => match p with
                            | Circle c _ _ _ _ _ _ _ => String.eqb c cls
                            | _ => false
                            end) s with
  | Some (Circle _ _ _ r _ _ _ _) => r
  | _ => JS.NaN
  end.

Module D3.

(** [d3.scaleSequential().domain([x0, x1]).interpolator(d3.interpolateCool)]:
    the interpolator is called at [(x - x0) * k], without clamping. *)
Definition scaleSequentialCool (x0 x1 : Q) (x : Q) : Paint :=
  let k := if Qeq_bool x0 x1 then 0 else 1 / (x1 - x0) in
  Cool (Some ((x - x0) * k)).

(** [d3.scaleLinear().domain([0, 255]).range([r0, r1])]. *)
Definition scaleLinear255 (r0 r1 : Q) (v : JS.num) : JS.num :=
  let t := (v / 255)%J in
  (r0 * (1 - t) + r1 * t)%J.

(** [d3.scaleBand().domain(n items).range([0, width]).padding(p)]:
    the position of band [i] and the common bandwidth. *)
Definition bandStep (n : Z) (width p : Q) : Q :=
  width / Qmax 1 (inject_Z n - p + p * 2).
Definition bandStart (n : Z) (width p : Q) : Q :=
  0 + (width - 0 - bandStep n width p * (inject_Z n - p)) * 0.5.
Definition scaleBand (n : Z) (width p : Q) (i : Z) : Q :=
  bandStart n width p + bandStep n width p * inject_Z i.
Definition bandwidth (n : Z) (width p : Q) : Q :=
  bandStep n width p * (1 - p).

End D3.

Module Render.
Section WithPlatform.

(** The platform's [Math.PI], [Math.sin], [Math.cos] and [Math.sqrt]. *)
Variable Math_PI : Q.
Variables Math_sin Math_cos Math_sqrt : Q -> Q.

(** The values [renderFrame] closes over. *)
Variable bufferLength : nat.
Variables width height : Z.
Variable time : Q.
Variable smoothData : list JS.num.

Let W : Q := inject_Z width.
Let H : Q := inject_Z height.
Let N : Q := inject_Z (Z.of_nat bufferLength).
Let centerX : Q := W / 2.
Let centerY : Q := H / 2.

(** [colorScale]: domain [[0, bufferLength * 0.6]]. *)
Definition colorScale (idx : Z) : Paint :=
  D3.scaleSequentialCool 0 (N * 0.6) (inject_Z idx).

(** [let sum = 0; for (let j = 0; j < n; j++) sum += smoothData[base + j];] *)
Definition sumFrom (base n : Z) : JS.num :=
  fold_left (fun sum j => (sum + JS.get smoothData (base + j))%J)
            (seqZ 0 n) 0%J.

(** ** BARS *)

Definition bars_barCount : Z := 64.
Definition bars_step : Z := JS.floor ((N * 0.7) / inject_Z bars_barCount).

(** [visualData.push({ val: sum / step, idx: i * step })] *)
Definition bars_visualData : list (JS.num * Z) :=
  List.map (fun i =>
    ((sumFrom (i * bars_step) bars_step / (inject_Z bars_step))%J,
     (i * bars_step)%Z))
    (seqZ 0 bars_barCount).

Definition render_bars : RenderScene :=
  let n := Z.of_nat (length bars_visualData) in
  let yScale := D3.scaleLinear255 H (H * 0.1) in
  List.map (fun '(i, (val, idx)) =>
    Rect "" (JS.or0 (D3.scaleBand n W 0.25 (Z.of_nat i)))%J
         (yScale val)
         (D3.bandwidth n W 0.25)%J
         (JS.max 4 (H - yScale val))%J
         (colorScale idx) 4 0.9)
    (imap pair bars_visualData).

(** ** SPECTRUM *)

Definition spectrum_barCount : Z := 96.
Definition spectrum_step : Z :=
  JS.floor ((N * 0.8) / inject_Z spectrum_barCount).

Definition spectrum_visualData : list (JS.num * Z) :=
  List.map (fun i =>
    ((sumFrom (i * spectrum_step) spectrum_step
      / (inject_Z spectrum_step))%J,
     (i * spectrum_step)%Z))
    (seqZ 0 spectrum_barCount).

Definition render_spectrum : RenderScene :=
  let n := Z.of_nat (length spectrum_visualData) in
  let yScale := D3.scaleLinear255 H 0 in
  Defs "spectrum-gradient"
       [("0%", "#06b6d4"); ("50%", "#8b5cf6"); ("100%", "#ec4899")]%string
  :: List.map (fun '(i, (val, idx)) =>
       Rect "spectrum-bar" (JS.or0 (D3.scaleBand n W 0.15 (Z.of_nat i)))%J
            (yScale val)
            (D3.bandwidth n W 0.15)%J
            (JS.max 2 (H - yScale val))%J
            (Css "url(#spectrum-gradient)") 2 0.9)
       (imap pair spectrum_visualData).

(** ** CIRCLE *)

Definition circle_points : Z := 80.
Definition circle_radiusInner : Q := Qmin W H / 4.5.
Definition circle_maxBarHeight : Q := Qmin W H / 3.

(** [for (let i = 0; i < 10; i++) bassSum += smoothData[i];
     const bassAvg = bassSum / 10;] *)
Definition circle_bassAvg : JS.num := (sumFrom 0 10 / 10)%J.

(** [const currentRadius = radiusInner + (bassAvg / 255) * 15;] *)
Definition circle_currentRadius : JS.num :=
  (circle_radiusInner + (circle_bassAvg / 255) * 15)%J.

Definition circle_step : Z :=
  JS.floor ((N * 0.6) / inject_Z circle_points).

(** [i < points / 2 ? i * step : (points - 1 - i) * step] *)
Definition circle_spectrumIndex (i : Z) : Z :=
  if Qlt_le_dec (inject_Z i) (inject_Z circle_points / 2)
  then (i * circle_step)%Z
  else ((circle_points - 1 - i) * circle_step)%Z.

Definition circle_visualData : list (JS.num * Z) :=
  List.map (fun i =>
    (JS.get smoothData (circle_spectrumIndex i), circle_spectrumIndex i))
    (seqZ 0 circle_points).

(** The [.core] circle: [.attr("r", currentRadius * 0.9)]. *)
Definition circle_core : Primitive :=
  Circle "core" centerX centerY (circle_currentRadius * 0.9)%J
         (Css "#000") (Some (Cool 0.2%J)) (Some (JS.fin 2)) 0.8%J.

Definition circle_bar (i : nat) (d : JS.num * Z) : Primitive :=
  let angleStep := (Math_PI * 2) / inject_Z circle_points in
  let a := inject_Z (Z.of_nat i) * angleStep - Math_PI / 2 in
  let h := ((fst d / 255) * circle_maxBarHeight)%J in
  Line ""
    (centerX + (Math_cos a) * (circle_currentRadius + 5))%J
    (centerY + (Math_sin a) * (circle_currentRadius + 5))%J
    (centerX + (Math_cos a) * (circle_currentRadius + 5 + h))%J
    (centerY + (Math_sin a) * (circle_currentRadius + 5 + h))%J
    (colorScale (snd d))
    ((Math_PI * 2 * circle_radiusInner) / inject_Z circle_points * 0.6)%J
    None.

Definition render_circle : RenderScene :=
  circle_core :: imap circle_bar circle_visualData.

(** ** SPIRAL *)

Definition spiral_points : Z := 350.
Definition spiral_angleStep : Q := 2.39996.
Definition spiral_spacing : Q := Qmin W H / 30.
Definition spiral_freqRange : Z := JS.floor (N * 0.5).

(** The two entries pushed for index [i]: the second vortex turns the
    other way. *)
Definition spiral_pair (i : Z) : list Primitive :=
  let qi := inject_Z i in
  let val := JS.get_rem smoothData i spiral_freqRange in
  let a1 := qi * spiral_angleStep + time * 0.2 in
  let a2 := - qi * spiral_angleStep - time * 0.3 in
  [ Circle ""
      (centerX + spiral_spacing * Math_sqrt qi * Math_cos a1)%J
      (centerY + spiral_spacing * Math_sqrt qi * Math_sin a1)%J
      (2 + (val / 255) * 8)%J
      (Cool (qi / inject_Z spiral_points)%J) None None
      (0.4 + val / 512)%J;
    Circle ""
      (centerX + spiral_spacing * Math_sqrt qi * Math_cos a2)%J
      (centerY + spiral_spacing * Math_sqrt qi * Math_sin a2)%J
      (2 + (val / 255) * 6)%J
      (Warm (qi / inject_Z spiral_points)%J) None None
      (0.4 + val / 512)%J ].

Definition render_spiral : RenderScene :=
  flat_map spiral_pair (seqZ 0 spiral_points).

(** ** PARTICLES *)

Definition particles_particleCount : Z := 150.

(** [totalEnergy]: computed from the first 50 bins and not used. *)
Definition particles_totalEnergy : JS.num :=
  (sumFrom 0 50 / 50 / 255)%J.

Definition particles_freqIndex (i : Z) : Z :=
  JS.floor ((inject_Z i / inject_Z particles_particleCount) * N * 0.6).

Definition particles_particle (i : Z) : Primitive :=
  let qi := inject_Z i in
  let freqIndex := particles_freqIndex i in
  let val := JS.get smoothData freqIndex in
  let energy := (val / 255)%J in
  let baseX := (qi / inject_Z particles_particleCount) * W in
  let waveOffset := ((Math_sin (time * 2 + qi * 0.1) * 50) * energy)%J in
  let x := (baseX + waveOffset)%J in
  let y := (centerY + (Math_sin (time + qi * 0.15) * (H * 0.3))
                       * (0.5 + energy * 0.5))%J in
  Circle "" x y (2 + energy * 12)%J (colorScale freqIndex) None None
         (0.3 + energy * 0.6)%J.

Definition render_particles : RenderScene :=
  List.map particles_particle (seqZ 0 particles_particleCount).

(** ** RINGS *)

Definition rings_ringCount : Z := 12.

Definition rings_freqStart (i : Z) : Z :=
  JS.floor ((inject_Z i / inject_Z rings_ringCount) * N * 0.5).

(** [for (let j = 0; j < 20; j++) ringEnergy += smoothData[freqStart + j] || 0;
     ringEnergy = ringEnergy / 20 / 255;] *)
Definition rings_ringEnergy (i : Z) : JS.num :=
  (fold_left
     (fun e j => (e + JS.or0 (JS.get smoothData (rings_freqStart i + j)))%J)
     (seqZ 0 20) 0%J / 20 / 255)%J.

Definition rings_ring (i : Z) : Primitive :=
  let qi := inject_Z i in
  let energy := rings_ringEnergy i in
  let baseRadius := ((qi + 1) / inject_Z rings_ringCount) * Qmin W H * 0.45 in
  let pulse := Math_sin (time * 3 + qi * 0.5) * 10 in
  let radius := (baseRadius + pulse + energy * 40)%J in
  Circle "" centerX centerY radius (Css "none")
         (Some (colorScale (rings_freqStart i)))
         (Some (2 + energy * 6)%J)
         (0.4 + energy * 0.5)%J.

Definition render_rings : RenderScene :=
  List.map rings_ring (seqZ 0 rings_ringCount).

(** ** DNA *)

Inductive HelixType : Type := strand1 | strand2 | connector.

Record HelixDatum : Type := mkHelix {
  h_type : HelixType;
  h_x : JS.num; h_y : JS.num;
  h_r : JS.num;                 (* [undefined] on a connector *)
  h_x2 : JS.num; h_y2 : JS.num; (* [undefined] on a strand point *)
  h_color : Paint;
  h_energy : JS.num
}.

Definition dna_points : Z := 120.
Definition dna_helixRadius : Q := Qmin W H * 0.15.
Definition dna_helixLength : Q := H * 0.8.
Definition dna_startY : Q := (H - dna_helixLength) / 2.

Definition dna_freqIndex (i : Z) : Z :=
  JS.floor ((inject_Z i / inject_Z dna_points) * N * 0.6).

(** What one iteration of the loop pushes onto [helixData]. *)
Definition dna_push (i : Z) : list HelixDatum :=
  let t := inject_Z i / inject_Z dna_points in
  let y := dna_startY + t * dna_helixLength in
  let angle1 := t * Math_PI * 6 + time in
  let angle2 := t * Math_PI * 6 + time + Math_PI in
  let val := JS.get smoothData (dna_freqIndex i) in
  let energy := (val / 255)%J in
  let x1 := (centerX + (Math_cos angle1 * dna_helixRadius)
                        * (1 + energy * 0.3))%J in
  let x2 := (centerX + (Math_cos angle2 * dna_helixRadius)
                        * (1 + energy * 0.3))%J in
  [ mkHelix strand1 x1 y (3 + energy * 5)%J JS.NaN JS.NaN
            (Cool t%J) energy;
    mkHelix strand2 x2 y (3 + energy * 5)%J JS.NaN JS.NaN
            (Warm t%J) energy ]
  ++ (if (Z.rem i 8 =? 0)%Z
      then [ mkHelix connector x1 y JS.NaN x2 y (Viridis t%J) energy ]
      else []).

Definition dna_helixData : list HelixDatum :=
  flat_map dna_push (seqZ 0 dna_points).

Definition is_connector (d : HelixDatum) : bool :=
  match h_type d with connector => true | _ => false end.

Definition dna_strand (d : HelixDatum) : Primitive :=
  Circle "dna-strand" (h_x d) (h_y d) (h_r d) (h_color d) None None
         (0.7 + h_energy d * 0.3)%J.

Definition dna_connector (d : HelixDatum) : Primitive :=
  Line "dna-connector" (h_x d) (h_y d) (h_x2 d) (h_y2 d) (h_color d)
       (1 + h_energy d * 3)%J (Some (0.5 + h_energy d * 0.4)%J).

Definition render_dna : RenderScene :=
  List.map dna_strand
           (List.filter (fun d => negb (is_connector d)) dna_helixData)
  ++ List.map dna_connector (List.filter is_connector dna_helixData).

(** ** WAVE (mandala) *)

Definition wave_numPetals : Z := 16.
Definition wave_maxMandalaSize : Q := Qmin W H * 0.5.
Definition wave_petalSize : nat := 80.

(** [totalEnergy]: computed from the first 100 bins and not used. *)
Definition wave_totalEnergy : JS.num := (sumFrom 0 100 / 100 / 255)%J.

Definition wave_hue : Q := JS.fmod (time * 30) 360.
Definition wave_spiralPhase : Q := JS.fmod (time * 20) 100.

Definition wave_freqStart (petal : Z) : Z :=
  JS.floor ((inject_Z petal / inject_Z wave_numPetals) * (N * 0.6)).

(** [Array.from(smoothData).slice(freqStart, freqStart + petalSize)] *)
Definition wave_petalData (petal : Z) : list JS.num :=
  take wave_petalSize (drop (Z.to_nat (wave_freqStart petal)) smoothData).

Definition wave_petalEnergy (petal : Z) : JS.num :=
  let petalData := wave_petalData petal in
  (fold_left JS.add petalData 0
     / (inject_Z (Z.of_nat (length petalData))) / 255)%J.

Definition wave_petalSpiralScale (petal : Z) : Q :=
  JS.fmod (wave_spiralPhase + inject_Z petal * 6.25) 100 / 100.

Definition wave_points (petal : Z) : list (JS.num * JS.num) :=
  let petalData := wave_petalData petal in
  let mirroredData := petalData ++ rev petalData in
  let petalAngle := (inject_Z petal / inject_Z wave_numPetals) * Math_PI * 2 in
  let currentSize :=
    ((wave_maxMandalaSize * wave_petalSpiralScale petal)
     * (1.0 + wave_petalEnergy petal * 0.3))%J in
  imap (fun i val =>
    let angle :=
      petalAngle
      + ((inject_Z (Z.of_nat i) / inject_Z (Z.of_nat (length mirroredData)))
         - 0.5) * 0.4 in
    let radius :=
      (currentSize * 0.3 + (val / 255) * (currentSize * 0.7))%J in
    ((centerX + (Math_cos angle) * radius)%J,
     (centerY + (Math_sin angle) * radius)%J))
    mirroredData.

Definition wave_petal (petal : Z) : Primitive :=
  let hue :=
    JS.fmod (wave_hue + inject_Z petal * (360 / inject_Z wave_numPetals)) 360 in
  let fadeOut := 1.0 - wave_petalSpiralScale petal * 0.5 in
  let opacity := ((0.7 + wave_petalEnergy petal * 0.25) * fadeOut)%J in
  let pathData := wave_points petal in
  Group "wave-petal"
    [ mkPath "fill" pathData (Hsl hue%J 90 60) (Css "none") None opacity;
      mkPath "stroke" pathData (Css "none") (Hsl hue%J 95 85) (Some 2)
             (opacity * 0.9)%J ].

Definition render_wave : RenderScene :=
  List.map wave_petal (seqZ 0 wave_numPetals).

(** ** The [if / else if] chain over [mode] *)

Definition render (mode : VisualizerMode) : RenderScene :=
  match mode with
  | BARS => render_bars
  | WAVE => render_wave
  | CIRCLE => render_circle
  | SPIRAL => render_spiral
  | PARTICLES => render_particles
  | SPECTRUM => render_spectrum
  | RINGS => render_rings
  | DNA => render_dna
  end.

End WithPlatform.
End Render.

(* ================================================================== *)
(** * components/Visualizer.tsx: the animation-frame loop *)
(* ================================================================== *)

Module Scheduler.

Record Props : Type := mkProps {
  analyser : bool;            (* [analyser !== null] *)
  isPlaying : bool;
  mode : VisualizerMode
}.

(** The host's animation-frame queue: the callbacks waiting for the next
    display refresh, each with its handle, and the next fresh handle
    (handles are positive).  A callback is the [renderFrame] closure of
    one effect, which is determined by the props of that effect. *)
Record Host : Type := mkHost {
  pending : list (nat * Props);
  nextHandle : nat
}.

Definition requestAnimationFrame (cb : Props) (h : Host) : nat * Host :=
  (nextHandle h,
   mkHost (pending h ++ [(nextHandle h, cb)]) (S (nextHandle h))).

(** [cancelAnimationFrame(id)]; [undefined] cancels nothing. *)
Definition cancelAnimationFrame (id : option nat) (h : Host) : Host :=
  match id with
  | Some i =>
      mkHost (List.filter (fun c => negb (Nat.eqb (fst c) i)) (pending h))
             (nextHandle h)
  | None => h
  end.

(** The component's refs and drawing surface.  [ticks] is a ghost
    counter of the frames that were drawn; [hasCleanup] records that the
    last effect returned its cleanup function. *)
Record Visualizer : Type := mkVisualizer {
  animationRef : option nat;
  prevDataRef : list JS.num;
  svg : RenderScene;
  hasCleanup : bool;
  ticks : nat
}.

(** What the platform hands to one frame: the analyser's byte snapshot
    and [Date.now() / 1000]. *)
Record FrameInput : Type := mkFrameInput {
  dataArray : list byte;
  now : Q
}.

(** At most one callback is queued, and it is the one [animationRef]
    holds, registered by an effect that returned its cleanup. *)
Definition queued_once (st : Visualizer * Host) : Prop :=
  (1 <= nextHandle (snd st))%nat
  /\ (pending (snd st) = []
      \/ exists id p,
           pending (snd st) = [(id, p)]
           /\ animationRef (fst st) = Some id
           /\ hasCleanup (fst st) = true
           /\ (1 <= id)%nat).

(** The snapshot the analyser fills is a [Uint8Array(bufferLength)]. *)
Definition wellFormed (inp : FrameInput) : Prop :=
  length (dataArray inp) = Smoothing.bufferLength.

Section WithPlatform.

Variable Math_PI : Q.
Variables Math_sin Math_cos Math_sqrt : Q -> Q.
Variables width height : Z.

(** [mode !== CIRCLE && mode !== SPIRAL && mode !== WAVE] *)
Definition noIdleAnimation (m : VisualizerMode) : bool :=
  negb (VisualizerMode_eqb m CIRCLE)
  && negb (VisualizerMode_eqb m SPIRAL)
  && negb (VisualizerMode_eqb m WAVE).

(** [renderFrame]: paused in a mode without idle animation, it cancels and
    returns; otherwise it smooths, draws, and requests the next frame. *)
Definition renderFrame (p : Props) (inp : FrameInput)
    (st : Visualizer * Host) : Visualizer * Host :=
  let '(v, h) := st in
  if negb (isPlaying p) && noIdleAnimation (mode p) then
    if negb (isPlaying p)
    then (v, cancelAnimationFrame (animationRef v) h)
    else (v, h)   (* unreachable: the outer test implies the inner one *)
  else
    let n := Smoothing.bufferLength in
    let '(prev, smoothData) :=
      Smoothing.smooth (isPlaying p) (Smoothing.smoothingFactor (mode p)) n
                       (dataArray inp) (prevDataRef v) in
    let scene :=
      Render.render Math_PI Math_sin Math_cos Math_sqrt n width height
                    (now inp) smoothData (mode p) in
    let '(id, h') := requestAnimationFrame p h in
    (mkVisualizer (Some id) prev scene (hasCleanup v) (S (ticks v)), h').

(** The cleanup function returned by the effect:
    [if (animationRef.current) cancelAnimationFrame(animationRef.current)]. *)
Definition cleanup (st : Visualizer * Host) : Visualizer * Host :=
  let '(v, h) := st in
  if hasCleanup v then
    match animationRef v with
    | Some (S i) => (v, cancelAnimationFrame (Some (S i)) h)
    | _ => (v, h)
    end
  else (v, h).

(** The effect body, run after mount and after every change of
    [analyser], [isPlaying] or [mode] (the [<svg>] element is mounted):
    without an analyser it returns at once, and no cleanup is registered;
    otherwise it empties the drawing surface, resets the smoothing buffer
    if its length is not the bin count, and calls [renderFrame]. *)
Definition effect (p : Props) (inp : FrameInput)
    (st : Visualizer * Host) : Visualizer * Host :=
  let '(v, h) := st in
  if negb (analyser p)
  then (mkVisualizer (animationRef v) (prevDataRef v) (svg v) false (ticks v), h)
  else
    let prev := Smoothing.initSmoothing (prevDataRef v) Smoothing.bufferLength in
    renderFrame p inp
      (mkVisualizer (animationRef v) prev [] true (ticks v), h).

(** A change of props: the previous cleanup, then the effect. *)
Definition setProps (p : Props) (inp : FrameInput)
    (st : Visualizer * Host) : Visualizer * Host :=
  effect p inp (cleanup st).

(** One display refresh: the callbacks queued before it run once each, in
    order; what they request is queued for the next refresh.  (A callback
    never has to cancel another one of the same refresh: at most one is
    queued, see [SchedulerFacts.queued_once_reachable].) *)
Definition displayRefresh (inp : FrameInput)
    (st : Visualizer * Host) : Visualizer * Host :=
  let '(v, h) := st in
  fold_left (fun s cb => renderFrame (snd cb) inp s) (pending h)
            (v, mkHost [] (nextHandle h)).

Definition run (inps : list FrameInput)
    (st : Visualizer * Host) : Visualizer * Host :=
  fold_left (fun s inp => displayRefresh inp s) inps st.

(** The component before its first effect. *)
Definition mount : Visualizer * Host :=
  (mkVisualizer None [] [] false 0, mkHost [] 1).

(** The states the component and the queue can be in. *)
Inductive reachable : Visualizer * Host -> Prop :=
| reach_mount : reachable mount
| reach_props p inp st :
    wellFormed inp -> reachable st -> reachable (setProps p inp st)
| reach_refresh inp st :
    wellFormed inp -> reachable st -> reachable (displayRefresh inp st).

End WithPlatform.
End Scheduler.

(* ================================================================== *)
(** * App.tsx: the audio graph *)
(* ================================================================== *)

Module WebAudio.

(** The nodes [initAudioContext] creates; [Eq i] is [eqNodesRef.current[i]]. *)
Inductive AudioNode : Type :=
| Source | Eq (i : nat) | AnalyserNode | Splitter | Merger | InvertGain
| Destination.

Definition AudioNode_eqb (a b : AudioNode) : bool :=
  match a, b with
  | Source, Source | AnalyserNode, AnalyserNode | Splitter, Splitter
  | Merger, Merger | InvertGain, InvertGain
  | Destination, Destination => true
  | Eq i, Eq j => Nat.eqb i j
  | _, _ => false
  end.

(** One connection: output [out] of [src] feeds input [inp] of [dst]. *)
Record Edge : Type := mkEdge {
  src : AudioNode; out : nat; dst : AudioNode; inp : nat
}.

Definition Edge_eqb (a b : Edge) : bool :=
  AudioNode_eqb (src a) (src b) && Nat.eqb (out a) (out b)
  && AudioNode_eqb (dst a) (dst b) && Nat.eqb (inp a) (inp b).

(** The connection set, in the order the connections were made. *)
Definition Graph : Type := list Edge.

(** [a.connect(b, output, input)]: connecting twice changes nothing. *)
Definition connect (a b : AudioNode) (output input : nat) (g : Graph) : Graph :=
  let e := mkEdge a output b input in
  if existsb (Edge_eqb e) g then g else g ++ [e].

(** [a.disconnect()]: every outgoing connection of [a] is removed. *)
Definition disconnect (a : AudioNode) (g : Graph) : Graph :=
  List.filter (fun e => negb (AudioNode_eqb (src e) a)) g.

(** Two graphs with the same connection set. *)
Definition same_connections (g1 g2 : Graph) : Prop :=
  forall e, In e g1 <-> In e g2.

(** A peaking [BiquadFilterNode] and the numbers written to its three
    parameters. *)
Record BiquadFilterNode : Type := mkBiquad {
  bq_frequency : Q; bq_Q : Q; bq_gain : Q
}.

(** An [AudioParam] holds a single-precision float, clamped to the nominal
    range of the parameter.  A number written to the gain of a filter is
    held as written when it is a single-precision float (a significand
    below [2^24] over a power of two no larger than [2^149]) and lies
    within [[-40, 40]], which is inside the nominal range of that
    parameter. *)
Definition held_as_written (v : Q) : bool :=
  let r := Qred v in
  let d := Z.pos (Qden r) in
  Qle_bool (-40) v && Qle_bool v 40
  && (d =? 2 ^ Z.log2 d)%Z && (Z.log2 d <=? 149)%Z
  && (Z.abs (Qnum r) <? 2 ^ 24)%Z.

(** ** What a graph computes

    A signal is a sequence of samples; a connection carries a list of
    channels.  Fan-in sums; a gain node scales; the splitter gives
    channel [o] on output [o]; the merger makes input [k] channel [k];
    the analyser passes its input through.  The response of a filter stage
    is the platform's and stays a parameter. *)
Definition Signal : Type := nat -> Q.

Definition silence : Signal := fun _ => 0.
Definition sadd (a b : Signal) : Signal := fun t => a t + b t.
Definition scale (k : Q) (a : Signal) : Signal := fun t => k * a t.

(** Mixing two connections into one input: channel by channel, a mono
    connection being copied to every channel of a wider one. *)
Fixpoint zipAdd (a b : list Signal) : list Signal :=
  match a, b with
  | x :: a', y :: b' => sadd x y :: zipAdd a' b'
  | [], _ => b
  | _, [] => a
  end.

Definition mix (a b : list Signal) : list Signal :=
  match a, b with
  | [x], _ :: _ :: _ => List.map (sadd x) b
  | _ :: _ :: _, [y] => List.map (fun s => sadd s y) a
  | _, _ => zipAdd a b
  end.

(** An input of the merger is mixed down to one channel. *)
Definition toMono (a : list Signal) : Signal :=
  match a with
  | [] => silence
  | [x] => x
  | x :: y :: _ => scale 0.5 (sadd x y)
  end.

Section Semantics.

Variable biquad : BiquadFilterNode -> Signal -> Signal.
Variable eqNodes : list BiquadFilterNode.
Variable invertGain_gain : Q.
(** The channels the media element plays. *)
Variable sourceSignal : list Signal.
Variable g : Graph.

Fixpoint output (fuel : nat) (n : AudioNode) (o : nat) : list Signal :=
  match fuel with
  | O => []
  | S fuel' =>
      let input k :=
        fold_left
          (fun acc e =>
             if AudioNode_eqb (dst e) n && Nat.eqb (inp e) k
             then mix acc (output fuel' (src e) (out e)) else acc)
          g [] in
      match n with
      | Source => sourceSignal
      | Eq i =>
          match eqNodes !! i with
          | Some b => List.map (biquad b) (input 0%nat)
          | None => []
          end
      | AnalyserNode => input 0%nat
      | Splitter =>
          match input 0%nat !! o with
          | Some s => [s]
          | None => [silence]
          end
      | InvertGain => List.map (scale invertGain_gain) (input 0%nat)
      | Merger => [toMono (input 0%nat); toMono (input 1%nat)]
      | Destination => input 0%nat
      end
  end.

(** What reaches the loudspeakers. *)
Definition heard (fuel : nat) : list Signal := output fuel Destination 0.

(** One channel after the whole filter chain. *)
Definition eqChain (s : Signal) : Signal :=
  fold_left (fun s b => biquad b s) eqNodes s.

End Semantics.
End WebAudio.

(* ================================================================== *)
(** * App.tsx: state, [initAudioContext], [toggleKaraokeMode],
      [handleEQChange] *)
(* ================================================================== *)

Module App.
Import WebAudio.

(** [const EQ_FREQUENCIES = [60, 170, 310, 600, 1000, 3000, 6000, 12000,
    14000, 16000];] *)
Definition EQ_FREQUENCIES : list Q :=
  [60; 170; 310; 600; 1000; 3000; 6000; 12000; 14000; 16000].

Inductive ContextState : Type := running | suspended.

(** What [initAudioContext] creates and keeps in refs; the refs to the
    context, the source, the analyser, the splitter, the merger and the
    inverting gain are all set together, so one option stands for them. *)
Record AudioRefs : Type := mkAudioRefs {
  ctxState : ContextState;
  analyser_fftSize : nat;
  invertGain : Q;               (* [invertGain.gain.value] *)
  graph : Graph
}.

Record State : Type := mkState {
  audioContextRef : option AudioRefs;
  eqNodesRef : list BiquadFilterNode;
  eqBands : list EQBand;
  karaokeMode : bool            (* [playerState.karaokeMode] *)
}.

(** The state of a fresh component; [saved] is what [loadEQSettings()]
    returned: [saved || EQ_FREQUENCIES.map(f => ({ frequency: f, gain: 0 }))]. *)
Definition initialState (saved : option (list EQBand)) : State :=
  mkState None []
          (match saved with
           | Some bands => bands
           | None => List.map (fun f => mkEQBand f 0) EQ_FREQUENCIES
           end)
          false.

(** [let previousNode = source;
     chain.forEach(node => { previousNode.connect(node); previousNode = node; });] *)
Definition connectChain (n : nat) (g : Graph) : AudioNode * Graph :=
  fold_left
    (fun '(previousNode, g) i => (Eq i, connect previousNode (Eq i) 0 0 g))
    (seq 0 n) (Source, g).

(** [initAudioContext]; [st0] is the state the new context starts in. *)
Definition initAudioContext (st0 : ContextState) (s : State) : State :=
  match audioContextRef s with
  | None =>
      let bands := List.map (fun freq => mkBiquad freq 1.4 0) EQ_FREQUENCIES in
      let '(previousNode, g) := connectChain (length bands) [] in
      let g := connect previousNode AnalyserNode 0 0 g in
      let g := connect AnalyserNode Destination 0 0 g in
      mkState (Some (mkAudioRefs st0 256 (-1) g)) bands
              (eqBands s) (karaokeMode s)
  | Some a =>
      match ctxState a with
      | suspended =>
          mkState (Some (mkAudioRefs running (analyser_fftSize a)
                                     (invertGain a) (graph a)))
                  (eqNodesRef s) (eqBands s) (karaokeMode s)
      | running => s
      end
  end.

(** The "disconnect everything" block of [toggleKaraokeMode]. *)
Definition disconnectAll (n : nat) (g : Graph) : Graph :=
  let g := disconnect Source g in
  let g := fold_left (fun g i => disconnect (Eq i) g) (seq 0 n) g in
  let g := disconnect AnalyserNode g in
  let g := disconnect Splitter g in
  let g := disconnect Merger g in
  disconnect InvertGain g.

(** The karaoke branch. *)
Definition connectKaraoke (n : nat) (g : Graph) : Graph :=
  let '(previousNode, g) := connectChain n g in
  let g := connect previousNode Splitter 0 0 g in
  let g := connect Splitter Merger 0 0 g in
  let g := connect Splitter InvertGain 1 0 g in
  let g := connect InvertGain Merger 0 0 g in
  let g := connect Splitter Merger 1 1 g in
  let g := connect Splitter InvertGain 0 0 g in
  let g := connect InvertGain Merger 0 1 g in
  let g := connect Merger AnalyserNode 0 0 g in
  connect AnalyserNode Destination 0 0 g.

(** The normal branch. *)
Definition connectFlat (n : nat) (g : Graph) : Graph :=
  let '(previousNode, g) := connectChain n g in
  let g := connect previousNode AnalyserNode 0 0 g in
  connect AnalyserNode Destination 0 0 g.

(** [toggleKaraokeMode]: nothing happens before [initAudioContext].  The
    callback reads [playerState.karaokeMode] of the render it was created
    in; each call here is one event, the component having rendered since
    the previous one. *)
Definition toggleKaraokeMode (s : State) : State :=
  match audioContextRef s with
  | None => s
  | Some a =>
      let n := length (eqNodesRef s) in
      let g := disconnectAll n (graph a) in
      let newKaraokeMode := negb (karaokeMode s) in
      let g :=
        if newKaraokeMode then connectKaraoke n g else connectFlat n g in
      mkState (Some (mkAudioRefs (ctxState a) (analyser_fftSize a)
                                 (invertGain a) g))
              (eqNodesRef s) (eqBands s) newKaraokeMode
  end.

(** [a[index]] for a number used as an index. *)
Definition at_index {A : Type} (a : list A) (index : Z) : option A :=
  if (index <? 0)%Z then None else a !! Z.to_nat index.

Inductive JSError : Type := TypeError.

(** The updater passed to [setEqBands]:
    [const next = [...prev]; next[index].gain = value; return next;]
    throws when [next[index]] is [undefined]. *)
Definition eqBandsUpdater (index : Z) (value : Q) (prev : list EQBand)
    : JSError + list EQBand :=
  match at_index prev index with
  | Some b => inr (<[Z.to_nat index := mkEQBand (frequency b) value]> prev)
  | None => inl TypeError
  end.

(** [handleEQChange]: the state after the call, with the exception of the
    updater when it throws.  The function itself has no check of the index
    and no [throw]: the updater runs when React renders, and its exception
    is React's to report; the state given with it here is the one before
    the call. *)
Definition handleEQChange (index : Z) (value : Q) (s : State)
    : State * option JSError :=
  let '(bands, err) :=
    match eqBandsUpdater index value (eqBands s) with
    | inr next => (next, None)
    | inl e => (eqBands s, Some e)
    end in
  let nodes :=
    match at_index (eqNodesRef s) index with
    | Some node =>
        <[Z.to_nat index := mkBiquad (bq_frequency node) (bq_Q node) value]>
          (eqNodesRef s)
    | None => eqNodesRef s
    end in
  (mkState (audioContextRef s) nodes bands (karaokeMode s), err).

(** [resetEQ]. *)
Definition resetEQ (s : State) : State :=
  mkState (audioContextRef s)
          (List.map (fun n => mkBiquad (bq_frequency n) (bq_Q n) 0)
                    (eqNodesRef s))
          (List.map (fun b => mkEQBand (frequency b) 0) (eqBands s))
          (karaokeMode s).

(** The gain of band [i], as stored and as the live filter has it. *)
Definition bandGain (s : State) (i : Z) : option Q :=
  gain <$> at_index (eqBands s) i.
Definition filterGain (s : State) (i : Z) : option Q :=
  bq_gain <$> at_index (eqNodesRef s) i.

(** What the loudspeakers get from the channels [sourceSignal], for a given
    filter response. *)
Definition heard (biquad : BiquadFilterNode -> Signal -> Signal)
    (sourceSignal : list Signal) (s : State) : list Signal :=
  match audioContextRef s with
  | Some a =>
      WebAudio.heard biquad (eqNodesRef s) (invertGain a) sourceSignal
                     (graph a) (length (graph a) + 1)
  | None => []
  end.

End App.

(* ================================================================== *)
(** * App.tsx and components/Equalizer.tsx: the events of the equalizer
      panel; utils/persistence.ts: the built-in presets *)
(* ================================================================== *)

Module Session.
Import WebAudio App.

(** [onLoadPreset={(presetBands) => setEqBands(presetBands)}] *)
Definition onLoadPreset (presetBands : list EQBand) (s : State) : State :=
  mkState (audioContextRef s) (eqNodesRef s) presetBands (karaokeMode s).

(** [getBuiltInPresets()], in the order of the object's keys. *)
Definition getBuiltInPresets : list (string * list EQBand) :=
  [
   ("Flat"%string,
     [mkEQBand 60 0; mkEQBand 170 0; mkEQBand 310 0;
      mkEQBand 600 0; mkEQBand 1000 0; mkEQBand 3000 0;
      mkEQBand 6000 0; mkEQBand 12000 0; mkEQBand 14000 0;
      mkEQBand 16000 0]);
   ("Bass Boost"%string,
     [mkEQBand 60 8; mkEQBand 170 6; mkEQBand 310 3;
      mkEQBand 600 0; mkEQBand 1000 0; mkEQBand 3000 0;
      mkEQBand 6000 0; mkEQBand 12000 0; mkEQBand 14000 0;
      mkEQBand 16000 0]);
   ("Treble Boost"%string,
     [mkEQBand 60 0; mkEQBand 170 0; mkEQBand 310 0;
      mkEQBand 600 0; mkEQBand 1000 0; mkEQBand 3000 0;
      mkEQBand 6000 3; mkEQBand 12000 6; mkEQBand 14000 8;
      mkEQBand 16000 8]);
   ("Vocal Boost"%string,
     [mkEQBand 60 (-2); mkEQBand 170 (-1); mkEQBand 310 2;
      mkEQBand 600 4; mkEQBand 1000 5; mkEQBand 3000 4;
      mkEQBand 6000 2; mkEQBand 12000 0; mkEQBand 14000 0;
      mkEQBand 16000 0]);
   ("Classical"%string,
     [mkEQBand 60 0; mkEQBand 170 0; mkEQBand 310 0;
      mkEQBand 600 0; mkEQBand 1000 0; mkEQBand 3000 (-2);
      mkEQBand 6000 (-2); mkEQBand 12000 0; mkEQBand 14000 0;
      mkEQBand 16000 3]);
   ("Rock"%string,
     [mkEQBand 60 6; mkEQBand 170 4; mkEQBand 310 (-2);
      mkEQBand 600 (-3); mkEQBand 1000 (-1); mkEQBand 3000 2;
      mkEQBand 6000 5; mkEQBand 12000 7; mkEQBand 14000 7;
      mkEQBand 16000 7])
  ].

(** The range input of a band: [min="-12" max="12" step="0.5"]. *)
Definition slider_min : Q := -12.
Definition slider_max : Q := 12.
Definition slider_step : Q := 0.5.

(** A gain the range input can show: within its bounds and a whole number
    of steps from the minimum. *)
Definition on_slider (g : Q) : bool :=
  Qle_bool slider_min g && Qle_bool g slider_max
  && Qeq_bool (inject_Z (Qfloor ((g - slider_min) / slider_step)) * slider_step)
              (g - slider_min).

(** What the user and the player can do to the audio state: [playTrack]
    and [togglePlayPause] call [initAudioContext]; the karaoke button calls
    [toggleKaraokeMode]; the panel calls [handleEQChange], [resetEQ] and
    [onLoadPreset]. *)
Inductive Event : Type :=
| InitAudioContext (st0 : ContextState)
| ToggleKaraokeMode
| HandleEQChange (index : Z) (value : Q)
| ResetEQ
| OnLoadPreset (presetBands : list EQBand).

Definition handle (s : State) (e : Event) : State :=
  match e with
  | InitAudioContext st0 => initAudioContext st0 s
  | ToggleKaraokeMode => toggleKaraokeMode s
  | HandleEQChange index value => fst (handleEQChange index value s)
  | ResetEQ => resetEQ s
  | OnLoadPreset presetBands => onLoadPreset presetBands s
  end.

Definition run (events : list Event) (s : State) : State :=
  fold_left handle events s.


(** The stored bands show what the live filters apply. *)
Definition in_sync (s : State) : Prop :=
  List.map frequency (eqBands s) = List.map bq_frequency (eqNodesRef s)
  /\ List.map gain (eqBands s) = List.map bq_gain (eqNodesRef s).

(** The audio graph as [initAudioContext] and [toggleKaraokeMode] leave
    it: before the context exists there are no filters and the karaoke flag
    is off; afterwards the inverting gain is [-1], the ten filters have
    been given the frequencies of [EQ_FREQUENCIES] and a Q of 1.4, and the
    connections are those of the topology the karaoke flag names.  (The
    FFT size of the analyser is not part of it: [initAudioContext] sets it
    to 256 and the effect of the visualizer, which is handed the same
    node, sets it to 1024.) *)
Definition wired (s : State) : Prop :=
  match audioContextRef s with
  | None => eqNodesRef s = [] /\ karaokeMode s = false
  | Some a =>
      invertGain a = -1
      /\ List.map bq_frequency (eqNodesRef s) = EQ_FREQUENCIES
      /\ List.map bq_Q (eqNodesRef s) = List.map (fun _ => 1.4) EQ_FREQUENCIES
      /\ graph a = (if karaokeMode s then connectKaraoke 10 []
                    else connectFlat 10 [])
  end.

End Session.

(* ================================================================== *)
(** * App.tsx and components/Equalizer.tsx: the band objects, by
      reference *)
(* ================================================================== *)

Module BandStore.

(** A band is an object; an array of bands holds references to objects.
    The heap grows at its end; a reference is a position in it. *)
Definition Ref : Type := nat.
Definition Heap : Type := list EQBand.

(** [JSON.parse] of an array of bands: one new object for each band. *)
Definition parseBands (bands : list EQBand) (h : Heap) : list Ref * Heap :=
  (seq (length h) (length bands), h ++ bands).

Record State : Type := mkState {
  heap : Heap;
  eqBands : list Ref;                     (* the array in [App]'s state *)
  userPresets : gmap string (list Ref);   (* the object in the panel's state *)
  storage : gmap string (list EQBand)     (* the stored ['eq-presets'] *)
}.

(** The bands an array refers to. *)
Definition deref (h : Heap) (a : list Ref) : list (option EQBand) :=
  (fun r => h !! r) <$> a.

(** What the sliders show. *)
Definition bands (s : State) : list (option EQBand) :=
  deref (heap s) (eqBands s).

(** [loadEQPresets()]: the stored object parsed, every array of every
    preset made of new objects. *)
Definition loadEQPresets (stored : gmap string (list EQBand)) (h : Heap)
    : gmap string (list Ref) * Heap :=
  map_fold
    (fun name presetBands (acc : gmap string (list Ref) * Heap) =>
       let '(a, h') := parseBands presetBands (snd acc) in
       (<[name := a]> (fst acc), h'))
    (∅, h) stored.

(** The panel is mounted: [useState(loadEQPresets())]. *)
Definition mountPanel (s : State) : State :=
  let '(presets, h) := loadEQPresets (storage s) (heap s) in
  mkState h (eqBands s) presets (storage s).

(** [onLoadPreset={(presetBands) => setEqBands(presetBands)}] *)
Definition onLoadPreset (presetBands : list Ref) (s : State) : State :=
  mkState (heap s) presetBands (userPresets s) (storage s).

(** The button of the user preset [name]:
    [onClick={() => onLoadPreset(presetBands as EQBand[])}]. *)
Definition clickUserPreset (name : string) (s : State) : State :=
  match userPresets s !! name with
  | Some presetBands => onLoadPreset presetBands s
  | None => s
  end.

(** The updater of [handleEQChange]:
    [const next = [...prev]; next[index].gain = value; return next;]
    the new array holds the same objects, and the object at [index] is
    written in place. *)
Definition handleEQChange (index : Z) (value : Q) (s : State)
    : State * option App.JSError :=
  match App.at_index (eqBands s) index with
  | Some r =>
      match heap s !! r with
      | Some b =>
          (mkState (<[r := mkEQBand (frequency b) value]> (heap s))
                   (eqBands s) (userPresets s) (storage s), None)
      | None => (s, None)
      end
  | None => (s, Some App.TypeError)
  end.

(** [resetEQ]: [prev.map(b => ({ ...b, gain: 0 }))] makes new objects. *)
Definition resetEQ (s : State) : State :=
  let flat :=
    omap (fun r => (fun b => mkEQBand (frequency b) 0) <$> heap s !! r)
         (eqBands s) in
  let '(a, h) := parseBands flat (heap s) in
  mkState h a (userPresets s) (storage s).

(** [handleSavePreset]: [saveEQPreset(name, bands)] writes the values of
    the current bands under [name]; then
    [setUserPresets(loadEQPresets())]. *)
Definition handleSavePreset (name : string) (s : State) : State :=
  let current := omap (fun r => heap s !! r) (eqBands s) in
  let stored := <[name := current]> (storage s) in
  let '(presets, h) := loadEQPresets stored (heap s) in
  mkState h (eqBands s) presets stored.

(** What [loadEQPresets] gives: one array per stored preset, of new
    objects that show the stored values; arrays of different presets share
    no object; older objects are untouched. *)
Definition parsed (stored : gmap string (list EQBand)) (h : Heap)
    (res : gmap string (list Ref) * Heap) : Prop :=
  (exists more, snd res = h ++ more)
  /\ (forall name, fst res !! name = None <-> stored !! name = None)
  /\ (forall name a, fst res !! name = Some a ->
        (exists bs, stored !! name = Some bs /\ deref (snd res) a = Some <$> bs)
        /\ NoDup a
        /\ Forall (fun r => length h <= r < length (snd res))%nat a)
  /\ (forall n1 n2 a1 a2 r,
        n1 <> n2 -> fst res !! n1 = Some a1 -> fst res !! n2 = Some a2 ->
        r ∈ a1 -> r ∉ a2).

End BandStore.

(* ================================================================== *)
(** * App.tsx: the library, the track navigation and the playlists *)
(* ================================================================== *)

Module Library.

Inductive TrackType : Type := local | stream.

(** [Track] of types.ts; the [file] field is a platform object that the
    functions below do not read. *)
Record Track : Type := mkTrack {
  track_id : string;
  track_name : string;
  track_artist : option string;
  track_album : option string;
  track_duration : option Q;
  track_url : string;
  track_coverArtUrl : option string;
  track_type : TrackType
}.

Inductive RepeatMode : Type := off | all | one.

(** [Playlist] of types.ts; [createdAt] is a [Date.now()]. *)
Record Playlist : Type := mkPlaylist {
  pl_id : string;
  pl_name : string;
  trackIds : list string;
  createdAt : Z;
  pl_coverArtUrl : option string
}.

(** [a.findIndex(f)]: the first index whose element satisfies [f], or -1. *)
Fixpoint findIndexFrom {A : Type} (f : A -> bool) (a : list A) (i : Z) : Z :=
  match a with
  | [] => (-1)%Z
  | x :: a' => if f x then i else findIndexFrom f a' (i + 1)%Z
  end.
Definition findIndex {A : Type} (f : A -> bool) (a : list A) : Z :=
  findIndexFrom f a 0.

(** [t.id === id] *)
Definition hasId (id : string) (t : Track) : bool := String.eqb (track_id t) id.

(** [getNextTrack], with the value of [Math.random()] it may draw.  The
    result is [None] for [null] and for the [undefined] that indexing an
    empty [remaining] gives; the caller tests it with [if (next)]. *)
Definition getNextTrack (tracks : list Track) (currentTrack : option Track)
    (isShuffle : bool) (repeatMode : RepeatMode) (random : Q)
    : option Track :=
  if Nat.eqb (length tracks) 0 then None
  else
    match currentTrack with
    | None => App.at_index tracks 0
    | Some cur =>
        if isShuffle then
          let remaining :=
            List.filter (fun t => negb (hasId (track_id cur) t)) tracks in
          let randomIdx :=
            JS.floor (random * inject_Z (Z.of_nat (length remaining))) in
          App.at_index remaining randomIdx
        else
          let currentIndex := findIndex (hasId (track_id cur)) tracks in
          let nextIndex := (currentIndex + 1)%Z in
          if (nextIndex <? Z.of_nat (length tracks))%Z
          then App.at_index tracks nextIndex
          else
            match repeatMode with
            | all => App.at_index tracks 0
            | _ => None
            end
    end.

(** [getPrevTrack]: the track, and whether [handleSeek(0)] was called;
    [audio_currentTime] is [audioRef.current.currentTime]. *)
Definition getPrevTrack (tracks : list Track) (currentTrack : option Track)
    (repeatMode : RepeatMode) (audio_currentTime : Q)
    : option Track * bool :=
  if Nat.eqb (length tracks) 0 then (None, false)
  else
    match currentTrack with
    | None => (App.at_index tracks (Z.of_nat (length tracks) - 1), false)
    | Some cur =>
        if negb (Qle_bool audio_currentTime 3) then (Some cur, true)
        else
          let currentIndex := findIndex (hasId (track_id cur)) tracks in
          let prevIndex := (currentIndex - 1)%Z in
          if (0 <=? prevIndex)%Z then (App.at_index tracks prevIndex, false)
          else
            match repeatMode with
            | all => (App.at_index tracks (Z.of_nat (length tracks) - 1), false)
            | _ => (App.at_index tracks 0, false)
            end
    end.

(** What [playTrack] leaves in [currentTrack]:
    [if (currentTrack?.id !== track.id) { ...; setCurrentTrack(track); }] *)
Definition playTrack (track : Track) (currentTrack : option Track)
    : option Track :=
  match currentTrack with
  | Some cur => if hasId (track_id track) cur then Some cur else Some track
  | None => Some track
  end.

(** [playNext]: [if (next) playTrack(next); else addToast(...)]. *)
Definition playNext (tracks : list Track) (isShuffle : bool)
    (repeatMode : RepeatMode) (random : Q) (currentTrack : option Track)
    : option Track :=
  match getNextTrack tracks currentTrack isShuffle repeatMode random with
  | Some next => playTrack next currentTrack
  | None => currentTrack
  end.

(** [playPrev]: [if (prev) { if (prev.id === currentTrack?.id) { } else
    playTrack(prev); }]. *)
Definition playPrev (tracks : list Track) (repeatMode : RepeatMode)
    (audio_currentTime : Q) (currentTrack : option Track) : option Track :=
  match fst (getPrevTrack tracks currentTrack repeatMode audio_currentTime) with
  | Some prev =>
      match currentTrack with
      | Some cur =>
          if hasId (track_id cur) prev then currentTrack
          else playTrack prev currentTrack
      | None => playTrack prev currentTrack
      end
  | None => currentTrack
  end.

(** [togglePlayPause], as far as [currentTrack] goes: without a current
    track it plays [tracks[0]]. *)
Definition togglePlayPause (tracks : list Track) (currentTrack : option Track)
    : option Track :=
  match currentTrack with
  | None =>
      match App.at_index tracks 0 with
      | Some t => playTrack t currentTrack
      | None => currentTrack
      end
  | Some _ => currentTrack
  end.

(** [removeTrack]: the new [tracks] and the new [currentTrack]. *)
Definition removeTrack (id : string) (tracks : list Track)
    (currentTrack : option Track) : list Track * option Track :=
  match List.find (hasId id) tracks with
  | None => (tracks, currentTrack)
  | Some _ =>
      let tracksAfterRemoval :=
        List.filter (fun t => negb (hasId id t)) tracks in
      match currentTrack with
      | Some cur =>
          if hasId id cur then
            let currentIndex := findIndex (hasId id) tracks in
            let nextTrack :=
              match App.at_index tracksAfterRemoval currentIndex with
              | Some t => Some t
              | None => App.at_index tracksAfterRemoval 0
              end in
            match nextTrack with
            | Some t => (tracksAfterRemoval, playTrack t currentTrack)
            | None => (tracksAfterRemoval, None)
            end
          else (tracksAfterRemoval, currentTrack)
      | None => (tracksAfterRemoval, currentTrack)
      end
  end.

(** ** The library over a session

    The buttons, the track list and the touch gestures call the functions
    of the latest render, which see the current [tracks] and
    [currentTrack]; so does the [ended] listener, registered again whenever
    [tracks] or [currentTrack] changes.  The [keydown] listener is
    registered again only when [playerState] or [currentTrack] has changed
    (the dependencies of its effect): until then its [togglePlayPause] sees
    the [tracks] and the [currentTrack] of the render it was registered
    in. *)

Record State : Type := mkState {
  tracks : list Track;
  currentTrack : option Track;
  (* what the registered [handleKeyDown] closes over *)
  keydown_tracks : list Track;
  keydown_currentTrack : option Track
}.

(** Whether [currentTrack] is still the same object.  The functions above
    pass [setCurrentTrack] a track only when its id differs from that of
    the current track, and [null] only when there is a current track, so
    the ids tell. *)
Definition sameTrack (a b : option Track) : bool :=
  match a, b with
  | Some x, Some y => String.eqb (track_id x) (track_id y)
  | None, None => true
  | _, _ => false
  end.

(** The render that follows an event, with the new [tracks] and
    [currentTrack]: the effect of the keyboard shortcuts runs again when
    [playerState] was set or [currentTrack] has changed, and registers a
    listener that closes over this render. *)
Definition commit (s : State) (tracks' : list Track)
    (currentTrack' : option Track) (playerStateSet : bool) : State :=
  if playerStateSet || negb (sameTrack currentTrack' (currentTrack s))
  then mkState tracks' currentTrack' tracks' currentTrack'
  else mkState tracks' currentTrack'
               (keydown_tracks s) (keydown_currentTrack s).

(** New tracks are appended ([handleFileUpload]; the library loaded at
    startup, on the empty list); a track of the list is clicked; the next
    button, a swipe or the end of a track; the previous button or a swipe;
    the play button or a double tap; the remove button of a track; any
    other update of [playerState] (the time, the volume, shuffle, repeat,
    the [play] and [pause] events of the audio element); the space key. *)
Inductive Event : Type :=
| AddTracks (newTracks : list Track)
| PlayTrack (index : nat)
| PlayNext (isShuffle : bool) (repeatMode : RepeatMode) (random : Q)
| PlayPrev (repeatMode : RepeatMode) (audio_currentTime : Q)
| TogglePlayPause
| RemoveTrack (id : string)
| SetPlayerState
| KeySpace.

(** The event is handled by a function of the latest render. *)
Definition usesLatestRender (e : Event) : bool :=
  match e with KeySpace => false | _ => true end.

Definition handle (s : State) (e : Event) : State :=
  match e with
  | AddTracks newTracks =>
      commit s (tracks s ++ newTracks) (currentTrack s) false
  | PlayTrack index =>
      match tracks s !! index with
      | Some t => commit s (tracks s) (playTrack t (currentTrack s)) false
      | None => s
      end
  | PlayNext isShuffle repeatMode random =>
      commit s (tracks s)
             (playNext (tracks s) isShuffle repeatMode random (currentTrack s))
             false
  | PlayPrev repeatMode audio_currentTime =>
      (* [handleSeek(0)] sets [playerState] *)
      commit s (tracks s)
             (playPrev (tracks s) repeatMode audio_currentTime (currentTrack s))
             (snd (getPrevTrack (tracks s) (currentTrack s) repeatMode
                                audio_currentTime))
  | TogglePlayPause =>
      commit s (tracks s) (togglePlayPause (tracks s) (currentTrack s)) false
  | RemoveTrack id =>
      (* [playerState] is set only together with [setCurrentTrack(null)] *)
      let '(ts, cur) := removeTrack id (tracks s) (currentTrack s) in
      commit s ts cur false
  | SetPlayerState => commit s (tracks s) (currentTrack s) true
  | KeySpace =>
      (* the [togglePlayPause] of the listener's render; it sets
         [currentTrack] when it calls [playTrack] *)
      let cur := togglePlayPause (keydown_tracks s) (keydown_currentTrack s) in
      if sameTrack cur (keydown_currentTrack s) then s
      else commit s (tracks s) cur false
  end.

Definition run (events : list Event) (s : State) : State :=
  fold_left handle events s.

(** [useState<Track[]>([])], [useState<Track | null>(null)]; the listener
    registered after the first render. *)
Definition initialState : State := mkState [] None [] None.

(** ** Playlists *)

(** [createPlaylist]; [newId] is the [generateId()] and [now] the
    [Date.now()] it draws. *)
Definition createPlaylist (newId : string) (now : Z) (name : string)
    (playlists : list Playlist) : list Playlist :=
  playlists ++ [mkPlaylist newId name [] now None].

(** [deletePlaylist]: the new [playlists] and [selectedPlaylist]. *)
Definition deletePlaylist (playlistId : string) (playlists : list Playlist)
    (selectedPlaylist : option string) : list Playlist * option string :=
  match List.find (fun p => String.eqb (pl_id p) playlistId) playlists with
  | Some _ =>
      (List.filter (fun p => negb (String.eqb (pl_id p) playlistId)) playlists,
       match selectedPlaylist with
       | Some sel => if String.eqb sel playlistId then None else Some sel
       | None => None
       end)
  | None => (playlists, selectedPlaylist)
  end.

(** [ids.includes(id)] *)
Definition includes (id : string) (ids : list string) : bool :=
  existsb (String.eqb id) ids.

Definition addTrackToPlaylist (trackId playlistId : string)
    (playlists : list Playlist) : list Playlist :=
  List.map (fun p =>
    if String.eqb (pl_id p) playlistId && negb (includes trackId (trackIds p))
    then mkPlaylist (pl_id p) (pl_name p) (trackIds p ++ [trackId])
                    (createdAt p) (pl_coverArtUrl p)
    else p) playlists.

Definition removeTrackFromPlaylist (trackId playlistId : string)
    (playlists : list Playlist) : list Playlist :=
  List.map (fun p =>
    if String.eqb (pl_id p) playlistId
    then mkPlaylist (pl_id p) (pl_name p)
           (List.filter (fun id => negb (String.eqb id trackId)) (trackIds p))
           (createdAt p) (pl_coverArtUrl p)
    else p) playlists.

(** [getFilteredTracks]; [!selectedPlaylist] holds for [null] and for the
    empty string. *)
Definition getFilteredTracks (tracks : list Track) (playlists : list Playlist)
    (selectedPlaylist : option string) : list Track :=
  match selectedPlaylist with
  | None => tracks
  | Some sel =>
      if String.eqb sel "" then tracks
      else
        match List.find (fun p => String.eqb (pl_id p) sel) playlists with
        | None => tracks
        | Some playlist =>
            List.filter (fun t => includes (track_id t) (trackIds playlist))
                        tracks
        end
  end.

(** The current track, when there is one, is a track of the library. *)
Definition current_in_library (s : State) : Prop :=
  match currentTrack s with
  | Some cur => In cur (tracks s)
  | None => True
  end.

(** ** The playlists over a session *)

Record Shelf : Type := mkShelf {
  playlists : list Playlist;
  selectedPlaylist : option string
}.

(** A playlist is created or deleted; the sidebar selects "All Tracks" or
    one of the playlists it lists; a track is added to or removed from a
    playlist. *)
Inductive ShelfEvent : Type :=
| CreatePlaylist (newId : string) (now : Z) (name : string)
| DeletePlaylist (playlistId : string)
| SelectAllTracks
| SelectPlaylist (index : nat)
| AddTrackToPlaylist (trackId playlistId : string)
| RemoveTrackFromPlaylist (trackId playlistId : string).

Definition handleShelf (s : Shelf) (e : ShelfEvent) : Shelf :=
  match e with
  | CreatePlaylist newId now name =>
      mkShelf (createPlaylist newId now name (playlists s)) (selectedPlaylist s)
  | DeletePlaylist playlistId =>
      let '(ps, sel) :=
        deletePlaylist playlistId (playlists s) (selectedPlaylist s) in
      mkShelf ps sel
  | SelectAllTracks => mkShelf (playlists s) None
  | SelectPlaylist index =>
      match playlists s !! index with
      | Some playlist => mkShelf (playlists s) (Some (pl_id playlist))
      | None => s
      end
  | AddTrackToPlaylist trackId playlistId =>
      mkShelf (addTrackToPlaylist trackId playlistId (playlists s))
              (selectedPlaylist s)
  | RemoveTrackFromPlaylist trackId playlistId =>
      mkShelf (removeTrackFromPlaylist trackId playlistId (playlists s))
              (selectedPlaylist s)
  end.

Definition runShelf (events : list ShelfEvent) (s : Shelf) : Shelf :=
  fold_left handleShelf events s.

(** The selected playlist, when there is one, is one of the playlists. *)
Definition selection_exists (s : Shelf) : Prop :=
  match selectedPlaylist s with
  | Some sel => exists p, In p (playlists s) /\ pl_id p = sel
  | None => True
  end.

End Library.

(* ================================================================== *)
(** * App.tsx: chapter markers *)
(* ================================================================== *)

Module Markers.

(** [ChapterMarker] of types.ts; a timestamp is a finite number of
    seconds. *)
Record ChapterMarker : Type := mkMarker {
  m_id : string;
  m_trackId : string;
  timestamp : Q;
  label : string;
  color : option string
}.

(** [l.sort((a, b) => a.timestamp - b.timestamp)]: the sort is stable, so
    its result is the one of inserting the elements from the last to the
    first, each before the first element that is not smaller. *)
Fixpoint insertMarker (m : ChapterMarker) (sorted : list ChapterMarker)
    : list ChapterMarker :=
  match sorted with
  | [] => [m]
  | x :: rest =>
      if Qle_bool (timestamp m) (timestamp x) then m :: x :: rest
      else x :: insertMarker m rest
  end.

Definition sortByTimestamp (l : list ChapterMarker) : list ChapterMarker :=
  fold_right insertMarker [] l.

(** The order of the sort: by timestamp. *)
Definition byTime (a b : ChapterMarker) : Prop := timestamp a <= timestamp b.

(** [m.trackId === currentTrack.id] *)
Definition ofTrack (cur : Library.Track) (m : ChapterMarker) : bool :=
  String.eqb (m_trackId m) (Library.track_id cur).

Definition getCurrentTrackMarkers (markers : list ChapterMarker)
    (currentTrack : option Library.Track) : list ChapterMarker :=
  match currentTrack with
  | None => []
  | Some cur => sortByTimestamp (List.filter (ofTrack cur) markers)
  end.

(** [n.toString()] of a natural number. *)
Definition toString (n : nat) : string :=
  NilEmpty.string_of_uint (Nat.to_uint n).

(** [addMarker]; [newId] is the [generateId()] it draws; a label that is
    missing or empty is replaced by [`Marker ${markerNumber}`]. *)
Definition addMarker (newId : string) (time : Q) (lbl : option string)
    (currentTrack : option Library.Track) (markers : list ChapterMarker)
    : list ChapterMarker :=
  match currentTrack with
  | None => markers
  | Some cur =>
      let currentTrackMarkers := List.filter (ofTrack cur) markers in
      let markerNumber := (length currentTrackMarkers + 1)%nat in
      let auto := String.append "Marker " (toString markerNumber) in
      let markerLabel :=
        match lbl with
        | Some l => if String.eqb l "" then auto else l
        | None => auto
        end in
      markers ++ [mkMarker newId (Library.track_id cur) time markerLabel
                           (Some "#06b6d4"%string)]
  end.

Definition deleteMarker (markerId : string) (markers : list ChapterMarker)
    : list ChapterMarker :=
  List.filter (fun m => negb (String.eqb (m_id m) markerId)) markers.

(** [jumpToNextMarker]: the value [jumpToMarker] writes to
    [audioRef.current.currentTime], if it is called; [currentTime] is
    [playerState.currentTime]. *)
Definition jumpToNextMarker (markers : list ChapterMarker)
    (currentTrack : option Library.Track) (currentTime : Q) : option Q :=
  let currentMarkers := getCurrentTrackMarkers markers currentTrack in
  if Nat.eqb (length currentMarkers) 0 then None
  else
    match List.find (fun m => negb (Qle_bool (timestamp m) currentTime))
                    currentMarkers with
    | Some nextMarker => Some (timestamp nextMarker)
    | None => None
    end.

(** [jumpToPrevMarker]: the last marker more than a second before
    [currentTime]. *)
Definition jumpToPrevMarker (markers : list ChapterMarker)
    (currentTrack : option Library.Track) (currentTime : Q) : option Q :=
  let currentMarkers := getCurrentTrackMarkers markers currentTrack in
  if Nat.eqb (length currentMarkers) 0 then None
  else
    match List.find (fun m => negb (Qle_bool (currentTime - 1) (timestamp m)))
                    (List.rev currentMarkers) with
    | Some prevMarker => Some (timestamp prevMarker)
    | None => None
    end.

End Markers.

(* ================================================================== *)
(** * App.tsx: volume, mute, shuffle and repeat *)
(* ================================================================== *)

Module Controls.

(** The fields of [PlayerState] the handlers below write, and the two
    properties of the audio element they set. *)
Record State : Type := mkState {
  volume : Q;
  isMuted : bool;
  isShuffle : bool;
  repeatMode : Library.RepeatMode;
  audio_volume : Q;
  audio_muted : bool
}.

(** [useState<PlayerState>({ ..., volume: 1, isMuted: false, isShuffle:
    false, repeatMode: 'off', ... })] and a new [Audio()]. *)
Definition initialState : State :=
  mkState 1 false false Library.off 1 false.

Definition handleVolume (vol : Q) (s : State) : State :=
  mkState vol false (isShuffle s) (repeatMode s) vol false.

Definition toggleMute (s : State) : State :=
  let newMuted := negb (isMuted s) in
  mkState (volume s) newMuted (isShuffle s) (repeatMode s) (audio_volume s)
          newMuted.

(** The [onToggleRepeat] of the controls. *)
Definition onToggleRepeat (s : State) : State :=
  mkState (volume s) (isMuted s) (isShuffle s)
    (match repeatMode s with
     | Library.off => Library.all
     | Library.all => Library.one
     | _ => Library.off
     end)
    (audio_volume s) (audio_muted s).

Definition onToggleShuffle (s : State) : State :=
  mkState (volume s) (isMuted s) (negb (isShuffle s)) (repeatMode s)
          (audio_volume s) (audio_muted s).

(** The keys of [handleKeyDown] that act on this state. *)
Inductive Key : Type := ArrowUp | ArrowDown | KeyM | KeyS | KeyR.

Definition handleKeyDown (key : Key) (s : State) : State :=
  match key with
  | ArrowUp => handleVolume (Qmin 1 (volume s + 0.1)) s
  | ArrowDown => handleVolume (Qmax 0 (volume s - 0.1)) s
  | KeyM => toggleMute s
  | KeyS =>
      mkState (volume s) (isMuted s) (negb (isShuffle s)) (repeatMode s)
              (audio_volume s) (audio_muted s)
  | KeyR =>
      let next :=
        match repeatMode s with
        | Library.off => Library.all
        | Library.all => Library.one
        | _ => Library.off
        end in
      mkState (volume s) (isMuted s) (isShuffle s) next
              (audio_volume s) (audio_muted s)
  end.

(** A key, a click on one of the buttons, or the volume slider, whose
    range input has [min="0" max="1"]. *)
Inductive Event : Type :=
| Press (key : Key)
| ClickMute
| ClickShuffle
| ClickRepeat
| SlideVolume (vol : Q).

Definition handle (s : State) (e : Event) : State :=
  match e with
  | Press key => handleKeyDown key s
  | ClickMute => toggleMute s
  | ClickShuffle => onToggleShuffle s
  | ClickRepeat => onToggleRepeat s
  | SlideVolume vol => handleVolume vol s
  end.

Definition run (events : list Event) (s : State) : State :=
  fold_left handle events s.

Definition volumeOnSlider (e : Event) : Prop :=
  match e with
  | SlideVolume vol => 0 <= vol <= 1
  | _ => True
  end.

(** The volume is on its slider, and the audio element has the volume
    and the mute flag the state shows. *)
Definition coherent (s : State) : Prop :=
  0 <= volume s <= 1
  /\ audio_volume s = volume s
  /\ audio_muted s = isMuted s.

End Controls.

(* ================================================================== *)
(** * components/PlayerControls.tsx: the seek bar; App.tsx: [handleSeek] *)
(* ================================================================== *)

Module SeekBar.

(** What a click on the seek bar calls. *)
Inductive Action : Type :=
| Ignored
| OnSeek (time : JS.num)
| OnAddMarker (timestamp : JS.num).

(** [handleSeekBarClick]; [duration] is [playerState.duration], a finite
    number here (the track is not a live stream), so that
    [playerState.duration || 0] is [duration]; [rect_left] and
    [rect_width] are those of the bar's bounding rectangle. *)
Definition handleSeekBarClick (hasTrack : bool) (duration : Q)
    (clientX rect_left rect_width : Q) (button : Z) (ctrlKey metaKey : bool)
    : Action :=
  if negb hasTrack then Ignored
  else
    let clickX := clientX - rect_left in
    let percentage := (JS.fin clickX / JS.fin rect_width)%J in
    let timestamp := (percentage * JS.or0 (JS.fin duration))%J in
    if (button =? 2)%Z || ctrlKey || metaKey
    then OnAddMarker timestamp
    else OnSeek timestamp.

(** [handleSeek]: what it leaves in [playerState.currentTime];
    [isFinite(time)] fails for [NaN] and the infinities. *)
Definition handleSeek (time : JS.num) (currentTime : Q) : Q :=
  match time with
  | Some t => t
  | None => currentTime
  end.

(** The width of the filled part of the bar, in percent:
    [(playerState.currentTime / (playerState.duration || 1)) * 100]. *)
Definition progress (currentTime duration : Q) : Q :=
  currentTime / (if Qeq_bool duration 0 then 1 else duration) * 100.

End SeekBar.

(* ================================================================== *)
(** * App.tsx: the sleep timer's display *)
(* ================================================================== *)

Module SleepTimer.

(** [n.toString()] of an integer. *)
Definition toString (n : Z) : string := NilEmpty.string_of_int (Z.to_int n).

(** [s.padStart(targetLength, "0")] *)
Definition padStart0 (targetLength : nat) (s : string) : string :=
  String.append
    (string_of_list_ascii
       (repeat "0"%char (targetLength - String.length s)))
    s.

(** [startSleepTimer]: the [endTime] it stores; [now] is [Date.now()]. *)
Definition startSleepTimer (minutes : Z) (now : Z) : Z :=
  (now + minutes * 60 * 1000)%Z.

(** [getRemainingTime]; [now] is [Date.now()]; [!sleepTimerEndTime] holds
    for [null] and for 0. *)
Definition getRemainingTime (sleepTimerEndTime : option Z) (now : Z)
    : string :=
  match sleepTimerEndTime with
  | None => ""
  | Some endTime =>
      if (endTime =? 0)%Z then ""
      else
        let remaining := Z.max 0 (endTime - now) in
        let minutes := JS.floor (inject_Z remaining / 60000) in
        let seconds :=
          JS.floor (inject_Z (Z.rem remaining 60000) / 1000) in
        String.append (toString minutes)
          (String.append ":" (padStart0 2 (toString seconds)))
  end.

(** The check the interval makes every second. *)
Definition expired (endTime now : Z) : bool := (endTime <=? now)%Z.

(** The two decimal digits of a number below 100. *)
Definition twoDigits (n : Z) : string :=
  String (ascii_of_nat (48 + Z.to_nat (n / 10)))
    (String (ascii_of_nat (48 + Z.to_nat (n mod 10))) EmptyString).

End SleepTimer.

(* ================================================================== *)
(** * App.tsx: [extractVideoId] *)
(* ================================================================== *)

Module VideoId.

(** A string is the sequence of its code units, here below 256. *)

(** [[^?&#]] *)
Definition idChar (c : ascii) : bool :=
  negb (Ascii.eqb c "?" || Ascii.eqb c "&" || Ascii.eqb c "#").

(** What [([^?&#]+)] takes: the longest run of such characters. *)
Fixpoint takeIdChars (s : string) : string :=
  match s with
  | String c s' => if idChar c then String c (takeIdChars s') else ""
  | EmptyString => ""
  end.

(** What is left of [s] after the literal [lit], if [s] starts with it. *)
Fixpoint stripPrefix (lit s : string) : option string :=
  match lit, s with
  | EmptyString, _ => Some s
  | String a lit', String b s' =>
      if Ascii.eqb a b then stripPrefix lit' s' else None
  | String _ _, EmptyString => None
  end.

(** The pattern at the start of [s]: the group it captures. *)
Definition matchHere (lit s : string) : option string :=
  match stripPrefix lit s with
  | Some rest =>
      match takeIdChars rest with
      | EmptyString => None
      | g => Some g
      end
  | None => None
  end.

(** [url.match(/lit([^?&#]+)/)]: group 1 of the leftmost match. *)
Fixpoint matchPattern (lit url : string) : option string :=
  match matchHere lit url with
  | Some g => Some g
  | None =>
      match url with
      | String _ url' => matchPattern lit url'
      | EmptyString => None
      end
  end.

(** The literal parts of the five patterns, in their order. *)
Definition patterns : list string :=
  ["youtu.be/"; "youtube.com/watch?v="; "youtube.com/embed/";
   "youtube.com/shorts/"; "youtube.com/v/"]%string.

(** [for (const pattern of patterns) { ... }] *)
Fixpoint firstId (ps : list string) (url : string) : option string :=
  match ps with
  | [] => None
  | pattern :: ps' =>
      match matchPattern pattern url with
      | Some g =>
          let id := String.substring 0 11 g in
          if Nat.eqb (String.length id) 11 then Some id else firstId ps' url
      | None => firstId ps' url
      end
  end.

Definition extractVideoId (url : string) : option string :=
  firstId patterns url.

(** Every character of the string is one the group accepts. *)
Fixpoint allId (s : string) : bool :=
  match s with
  | String c s' => idChar c && allId s'
  | EmptyString => true
  end.

(** The string is empty or starts with a character the group refuses. *)
Definition stops (tail : string) : bool :=
  match tail with
  | String c _ => negb (idChar c)
  | EmptyString => true
  end.

(** No character of the string is [y], the first one of every pattern. *)
Fixpoint noY (s : string) : bool :=
  match s with
  | String c s' => negb (Ascii.eqb c "y") && noY s'
  | EmptyString => true
  end.

End VideoId.

(* ================================================================== *)
(** * components/Visualizer.tsx: what a drawn frame leaves, and scenes
      whose numbers are all finite *)
(* ================================================================== *)

Module Frames.

(** The props for which [renderFrame] goes past its first test. *)
Definition draws (p : Scheduler.Props) : bool :=
  negb (negb (Scheduler.isPlaying p)
        && Scheduler.noIdleAnimation (Scheduler.mode p)).

(** The [smoothData] of a frame, from the buffer it starts with. *)
Definition smoothDataOf (p : Scheduler.Props) (inp : Scheduler.FrameInput)
    (prev : list JS.num) : list JS.num :=
  snd (Smoothing.smooth (Scheduler.isPlaying p)
         (Smoothing.smoothingFactor (Scheduler.mode p))
         Smoothing.bufferLength (Scheduler.dataArray inp) prev).

(** The scene a drawn frame leaves in the surface. *)
Definition drawn (Math_PI : Q) (Math_sin Math_cos Math_sqrt : Q -> Q)
    (width height : Z) (p : Scheduler.Props) (inp : Scheduler.FrameInput)
    (prev : list JS.num) : RenderScene :=
  Render.render Math_PI Math_sin Math_cos Math_sqrt Smoothing.bufferLength
                width height (Scheduler.now inp) (smoothDataOf p inp prev)
                (Scheduler.mode p).

(** Every queued callback was queued by a frame that was drawn. *)
Definition queued_draws (st : Scheduler.Visualizer * Scheduler.Host) : Prop :=
  forall c, In c (Scheduler.pending (snd st)) -> draws (snd c) = true.

Definition num_ok (a : JS.num) : bool :=
  match a with Some _ => true | None => false end.

Definition opt_ok {A : Type} (f : A -> bool) (o : option A) : bool :=
  match o with Some a => f a | None => true end.

Definition paint_ok (c : Paint) : bool :=
  match c with
  | Css _ => true
  | Cool t | Warm t | Viridis t => num_ok t
  | Hsl h _ _ => num_ok h
  end.

Definition path_ok (e : PathEl) : bool :=
  forallb (fun xy => num_ok (fst xy) && num_ok (snd xy)) (path_d e)
  && paint_ok (path_fill e) && paint_ok (path_stroke e)
  && num_ok (path_opacity e).

(** No attribute of the element is [NaN]. *)
Definition primitive_ok (p : Primitive) : bool :=
  match p with
  | Rect _ x y w h fill _ _ =>
      num_ok x && num_ok y && num_ok w && num_ok h && paint_ok fill
  | Circle _ cx cy r fill stroke sw op =>
      num_ok cx && num_ok cy && num_ok r && paint_ok fill
      && opt_ok paint_ok stroke && opt_ok num_ok sw && num_ok op
  | Line _ x1 y1 x2 y2 stroke sw op =>
      num_ok x1 && num_ok y1 && num_ok x2 && num_ok y2 && paint_ok stroke
      && num_ok sw && opt_ok num_ok op
  | Group _ children => forallb path_ok children
  | Defs _ _ => true
  end.

Definition scene_ok (s : RenderScene) : bool := forallb primitive_ok s.

(** A bar of the Bars or Spectrum mode in a viewport of [W] by [H]: it
    lies between the left and the right edge, its top is between [top] and
    the bottom edge, it is at least [minHeight] tall, and it ends at the
    bottom edge unless the minimum height makes it longer. *)
Definition bar_in_viewport (W H top minHeight : Q) (p : Primitive) : Prop :=
  match p with
  | Rect _ (Some x) (Some y) (Some w) (Some h) _ _ _ =>
      0 <= x /\ 0 <= w /\ x + w <= W
      /\ top <= y <= H
      /\ minHeight <= h /\ H <= y + h
      /\ (h == minHeight \/ y + h == H)
  | Defs _ _ => True
  | _ => False
  end.

End Frames.

(* ================================================================== *)
(** * Facts about the smoothing buffer *)
(* ================================================================== *)

Module SmoothingFacts.
Import Smoothing.

Lemma get_of_nat (a : list JS.num) (k : nat) :
  JS.get a (Z.of_nat k) = default None (a !! k).
Proof.
  unfold JS.get. destruct (Z.ltb_spec (Z.of_nat k) 0); [lia|].
  rewrite Nat2Z.id. destruct (a !! k); reflexivity.
Qed.

Lemma set_of_nat (a : list JS.num) (k : nat) v :
  JS.set a (Z.of_nat k) v = <[k := v]> a.
Proof.
  unfold JS.set. destruct (Z.ltb_spec (Z.of_nat k) 0); [lia|].
  now rewrite Nat2Z.id.
Qed.

Lemma byte_get_of_nat (d : list byte) (k : nat) :
  byte_get d (Z.of_nat k)
  = match d !! k with
    | Some b => Some (inject_Z (Z.of_N (Byte.to_N b)))
    | None => None
    end.
Proof.
  unfold byte_get. destruct (Z.ltb_spec (Z.of_nat k) 0); [lia|].
  now rewrite Nat2Z.id.
Qed.

(** The loop after its first [m] iterations. *)
Lemma smooth_prefix isPlaying alpha d prev sd0 (m : nat) :
  let st := fold_left (smoothAt isPlaying alpha d)
                      (seqZ 0 (Z.of_nat m)) (prev, sd0) in
  length (fst st) = length prev
  /\ length (snd st) = length sd0
  /\ (forall i, (i < m)%nat ->
        fst st !! i = ema isPlaying alpha d i <$> prev !! i)
  /\ (forall i, (m <= i)%nat -> fst st !! i = prev !! i)
  /\ (forall i, (i < m)%nat -> (i < length sd0)%nat ->
        snd st !! i = Some (default None (fst st !! i)))
  /\ (forall i, (m <= i)%nat -> snd st !! i = sd0 !! i).
Proof.
  induction m as [|m IH]; simpl.
  - repeat split; auto; intros; lia.
  - rewrite seqZ_S, fold_left_app. simpl.
    destruct (fold_left _ _ _) as [p sd] eqn:E. simpl in IH.
    destruct IH as (Lp & Ls & Hlt & Hge & Slt & Sge).
    unfold smoothAt. rewrite Z.add_0_l, !set_of_nat, !get_of_nat. simpl.
    rewrite !length_insert.
    assert (Hnew : forall i, (i < S m)%nat ->
              <[m:=ema isPlaying alpha d m (default None (p !! m))]> p !! i
              = ema isPlaying alpha d i <$> prev !! i).
    { intros i Hi. destruct (decide (i = m)) as [->|Hne].
      - rewrite Hge by lia.
        destruct (prev !! m) as [x|] eqn:Ex.
        + rewrite list_lookup_insert_eq; [reflexivity|].
          rewrite Lp. now apply lookup_lt_Some in Ex.
        + simpl. apply lookup_ge_None. rewrite length_insert, Lp.
          now apply lookup_ge_None in Ex.
      - rewrite list_lookup_insert_ne by auto. apply Hlt. lia. }
    split; [exact Lp|]. split; [exact Ls|]. split; [exact Hnew|].
    split; [|split].
    + intros i Hi. rewrite list_lookup_insert_ne by lia. apply Hge. lia.
    + intros i Hi Hl. destruct (decide (i = m)) as [->|Hne].
      * rewrite (list_lookup_insert_eq sd) by lia. reflexivity.
      * rewrite !list_lookup_insert_ne by auto. apply Slt; lia.
    + intros i Hi. rewrite list_lookup_insert_ne by lia. apply Sge. lia.
Qed.

(** After the whole loop, on a buffer of the right length. *)
Lemma smooth_spec isPlaying alpha n d prev :
  length prev = n ->
  let st := smooth isPlaying alpha n d prev in
  length (fst st) = n /\ length (snd st) = n
  /\ snd st = fst st
  /\ forall i, fst st !! i = ema isPlaying alpha d i <$> prev !! i.
Proof.
  intros Hn.
  pose proof (smooth_prefix isPlaying alpha d prev (JS.zeros n) n) as Hp.
  cbv zeta in Hp |- *. unfold smooth.
  set (st := fold_left _ _ _) in *.
  destruct Hp as (Lp & Ls & Hlt & Hge & Slt & Sge). clearbody st.
  unfold JS.zeros in Ls, Slt. rewrite length_replicate in Ls, Slt.
  assert (Hall : forall i, fst st !! i = ema isPlaying alpha d i <$> prev !! i).
  { intros i. destruct (Nat.lt_ge_cases i n) as [Hi|Hi]; [now apply Hlt|].
    rewrite Hge by lia. rewrite (proj2 (lookup_ge_None prev i)) by lia.
    reflexivity. }
  repeat split; try lia; auto.
  apply list_eq. intros i.
  destruct (Nat.lt_ge_cases i n) as [Hi|Hi].
  - rewrite Slt by lia.
    destruct (fst st !! i) eqn:E; [reflexivity|].
    apply lookup_ge_None in E. unfold JS.num in *. lia.
  - rewrite (proj2 (lookup_ge_None (snd st) i)) by lia.
    rewrite (proj2 (lookup_ge_None (fst st) i)) by lia. reflexivity.
Qed.

Lemma byte_within (b : byte) :
  0 <= inject_Z (Z.of_N (Byte.to_N b)) <= 255.
Proof.
  pose proof (Byte.to_N_bounded b) as Hb.
  split.
  - change 0 with (inject_Z 0). rewrite <- Zle_Qle. lia.
  - change 255 with (inject_Z 255). rewrite <- Zle_Qle. lia.
Qed.

Lemma smoothingFactor_unit mode :
  0 < smoothingFactor mode /\ smoothingFactor mode <= 8 # 10.
Proof. destruct mode; vm_compute; split; congruence. Qed.

Lemma ema_within isPlaying alpha d k x :
  0 <= alpha <= 1 -> (k < length d)%nat ->
  JS.within 0 255 x -> JS.within 0 255 (ema isPlaying alpha d k x).
Proof.
  intros Ha Hk Hx. unfold ema. destruct x as [x|]; [|contradiction].
  simpl in Hx. destruct isPlaying.
  - rewrite byte_get_of_nat.
    destruct (lookup_lt_is_Some_2 d k Hk) as [b ->].
    pose proof (byte_within b). simpl. nra.
  - simpl. nra.
Qed.

Lemma initSmoothing_length prev n : length (initSmoothing prev n) = n.
Proof.
  unfold initSmoothing. destruct (Nat.eqb_spec (length prev) n); [auto|].
  apply length_replicate.
Qed.

Lemma initSmoothing_within prev n :
  Forall (JS.within 0 255) prev ->
  Forall (JS.within 0 255) (initSmoothing prev n).
Proof.
  intros Hp. unfold initSmoothing. destruct (Nat.eqb (length prev) n); [auto|].
  apply Forall_replicate. simpl. lra.
Qed.

(** One frame keeps a buffer of the right length within [[0, 255]]. *)
Lemma smooth_within isPlaying alpha n d prev :
  0 <= alpha <= 1 -> length d = n -> length prev = n ->
  Forall (JS.within 0 255) prev ->
  Forall (JS.within 0 255) (fst (smooth isPlaying alpha n d prev)).
Proof.
  intros Ha Hd Hn Hp.
  destruct (smooth_spec isPlaying alpha n d prev Hn) as (L1 & _ & _ & Hl).
  apply Forall_lookup_2. intros i y Hy. rewrite Hl in Hy.
  destruct (prev !! i) as [x|] eqn:Ex; [|discriminate].
  simpl in Hy. injection Hy as <-.
  apply ema_within; auto.
  - apply lookup_lt_Some in Ex. lia.
  - eapply Forall_lookup_1; eauto.
Qed.

End SmoothingFacts.

(** ** Powers of the decay factor *)

Module Decay.

Lemma pow_S (q : Q) (k : nat) : q ^ Z.of_nat (S k) == q * q ^ Z.of_nat k.
Proof.
  rewrite Nat2Z.inj_succ. unfold Z.succ. rewrite Z.add_comm.
  rewrite Qpower_plus' by lia. simpl (q ^ 1). reflexivity.
Qed.

Lemma pow_unit (r : Q) (k : nat) : 0 <= r <= 1 -> 0 <= r ^ Z.of_nat k <= 1.
Proof.
  intros Hr. induction k as [|k IH].
  - simpl. lra.
  - rewrite pow_S. nra.
Qed.

Lemma pow_mono (r r' : Q) (k : nat) :
  0 <= r <= r' -> r ^ Z.of_nat k <= r' ^ Z.of_nat k.
Proof.
  intros Hr. induction k as [|k IH].
  - simpl. lra.
  - rewrite !pow_S.
    assert (0 <= r ^ Z.of_nat k) by (apply Qpower_pos; lra).
    nra.
Qed.

Lemma pow_antitone (r : Q) (m k : nat) :
  0 <= r <= 1 -> (m <= k)%nat -> r ^ Z.of_nat k <= r ^ Z.of_nat m.
Proof.
  intros Hr Hmk. induction Hmk as [|k Hmk IH].
  - lra.
  - rewrite pow_S. pose proof (pow_unit r k Hr). nra.
Qed.

(** Bernoulli's inequality for [10/7], turned around. *)
Lemma bernoulli_07 (k : nat) :
  (7 # 10) ^ Z.of_nat k * (7 + 3 * inject_Z (Z.of_nat k)) <= 7.
Proof.
  induction k as [|k IH].
  - vm_compute. discriminate.
  - rewrite pow_S. rewrite Nat2Z.inj_succ. unfold Z.succ.
    rewrite inject_Z_plus.
    assert (Hu : 0 <= (7 # 10) ^ Z.of_nat k <= 1) by (apply pow_unit; lra).
    change (inject_Z 1) with 1. nra.
Qed.

(** Enough frames bring [255 * r ^ k] below any positive bound. *)
Lemma below_eps (eps : Q) :
  0 < eps ->
  exists K : nat, forall (k : nat) (r : Q),
    (K <= k)%nat -> 0 <= r <= 7 # 10 -> 255 * r ^ Z.of_nat k < eps.
Proof.
  intros He.
  exists (Z.to_nat (Qceiling (1785 / eps))).
  intros k r Hk Hr.
  pose proof (Qle_ceiling (1785 / eps)) as Hc.
  assert (Hq : 1785 / eps <= inject_Z (Z.of_nat k)).
  { eapply Qle_trans; [exact Hc|]. rewrite <- Zle_Qle. lia. }
  assert (Hm : 1785 <= inject_Z (Z.of_nat k) * eps).
  { assert (Hd : 1785 == 1785 / eps * eps) by (field; lra).
    rewrite Hd at 1. apply Qmult_le_compat_r; [exact Hq | lra]. }
  pose proof (bernoulli_07 k) as Hb.
  pose proof (pow_mono r (7 # 10) k (conj (proj1 Hr) (proj2 Hr))) as Hmono.
  assert (Hp : 0 <= r ^ Z.of_nat k) by (apply Qpower_pos; lra).
  assert (Hk0 : 0 <= inject_Z (Z.of_nat k)).
  { change 0 with (inject_Z 0). rewrite <- Zle_Qle. lia. }
  nra.
Qed.

End Decay.

Module SilenceFacts.
Import Smoothing.

(** On a frame of silence a bin goes from [x] to [x + (0 - x) * alpha]. *)
Lemma ema_silent isPlaying alpha n d k (x : Q) :
  silentFrame isPlaying n d -> (k < n)%nat ->
  ema isPlaying alpha d k (Some x) = Some (x + (0 - x) * alpha).
Proof.
  intros [-> | ->] Hk; unfold ema.
  - reflexivity.
  - destruct isPlaying; [|reflexivity].
    rewrite SmoothingFacts.byte_get_of_nat.
    rewrite lookup_replicate_2 by exact Hk. reflexivity.
Qed.

Lemma smoothFrames_length isPlaying alpha n frames prev :
  length prev = n -> length (smoothFrames isPlaying alpha n frames prev) = n.
Proof.
  revert prev. induction frames as [|d fs IH]; intros prev Hn; simpl; [auto|].
  apply IH. now apply SmoothingFacts.smooth_spec.
Qed.

(** Geometric decay of one bin over a run of silent frames. *)
Lemma smoothFrames_decay isPlaying alpha n frames :
  Forall (silentFrame isPlaying n) frames ->
  forall prev i (s0 : Q),
    length prev = n -> prev !! i = Some (Some s0) ->
    exists s, smoothFrames isPlaying alpha n frames prev !! i = Some (Some s)
              /\ s == s0 * (1 - alpha) ^ Z.of_nat (length frames).
Proof.
  induction 1 as [|d fs Hd _ IH]; intros prev i s0 Hn Hi.
  - exists s0. split; [exact Hi|]. simpl. ring.
  - simpl smoothFrames.
    destruct (SmoothingFacts.smooth_spec isPlaying alpha n d prev Hn)
      as (L1 & _ & _ & Hl).
    assert (Hin : (i < n)%nat).
    { apply lookup_lt_Some in Hi. unfold JS.num in *. lia. }
    specialize (IH (fst (smooth isPlaying alpha n d prev)) i
                   (s0 + (0 - s0) * alpha) L1).
    destruct IH as (s & Hs & Es).
    { rewrite Hl. unfold JS.num in *. rewrite Hi. simpl. f_equal.
      eapply ema_silent; eauto. }
    exists s. split; [exact Hs|].
    rewrite Es. change (length (d :: fs)) with (S (length fs)).
    rewrite Decay.pow_S. ring.
Qed.

End SilenceFacts.

(** C5.  Under sustained silence (the player paused, or an all-zero
    snapshot on every frame) each smoothed bin is multiplied by
    [1 - alpha] per frame, [alpha] being the smoothing factor of the mode;
    a buffer within [[0, 255]] gets below any positive bound in every bin
    once enough frames have passed; and for [alpha = 0.3] a bin that starts
    at 255 is strictly below 1 after 16 frames and stays there, so in
    particular after 17 frames. *)
Theorem silence_decays_to_zero :
  forall (mode : VisualizerMode) (isPlaying : bool) (n : nat)
         (prevData : list JS.num),
    length prevData = n ->
    let alpha := Smoothing.smoothingFactor mode in
    let after frames := Smoothing.smoothFrames isPlaying alpha n frames prevData in
    (forall frames i (s0 : Q),
        Forall (Smoothing.silentFrame isPlaying n) frames ->
        prevData !! i = Some (Some s0) ->
        exists s, after frames !! i = Some (Some s)
                  /\ s == s0 * (1 - alpha) ^ Z.of_nat (length frames))
    /\ (Forall (JS.within 0 255) prevData ->
        forall eps, 0 < eps ->
        exists K : nat, forall frames,
          Forall (Smoothing.silentFrame isPlaying n) frames ->
          (K <= length frames)%nat ->
          Forall (fun x => exists s, x = Some s /\ 0 <= s < eps) (after frames))
    /\ (alpha = 0.3 ->
        forall frames i,
          Forall (Smoothing.silentFrame isPlaying n) frames ->
          (16 <= length frames)%nat ->
          prevData !! i = Some (Some 255) ->
          exists s, after frames !! i = Some (Some s) /\ s < 1).
Proof.
  intros mode isPlaying n prev Hn alpha after.
  destruct (SmoothingFacts.smoothingFactor_unit mode) as [Ha0 Ha1].
  fold alpha in Ha0, Ha1.
  split; [|split].
  - intros frames i s0 Hs Hi.
    now apply SilenceFacts.smoothFrames_decay.
  - intros Hw eps He.
    assert (Hlow : 3 # 10 <= alpha).
    { subst alpha. destruct mode; vm_compute; discriminate. }
    destruct (Decay.below_eps eps He) as [K HK].
    exists K. intros frames Hs Hk.
    apply Forall_lookup_2. intros i x Hx.
    assert (Hi : (i < n)%nat).
    { apply lookup_lt_Some in Hx. subst after. cbv beta in Hx.
      rewrite SilenceFacts.smoothFrames_length in Hx; auto. }
    destruct (lookup_lt_is_Some_2 prev i) as [x0 Hx0].
    { unfold JS.num in *. lia. }
    pose proof (Forall_lookup_1 _ _ _ _ Hw Hx0) as Hr.
    destruct x0 as [s0|]; [|contradiction]. simpl in Hr.
    destruct (SilenceFacts.smoothFrames_decay isPlaying alpha n frames Hs
                prev i s0 Hn Hx0) as (s & Hs' & Es).
    subst after. cbv beta in Hx. unfold JS.num in *.
    rewrite Hs' in Hx. injection Hx as <-.
    exists s. split; [reflexivity|].
    specialize (HK (length frames) (1 - alpha) Hk).
    assert (Hp : 0 <= (1 - alpha) ^ Z.of_nat (length frames))
      by (apply Qpower_pos; lra).
    assert (Hb : 255 * (1 - alpha) ^ Z.of_nat (length frames) < eps)
      by (apply HK; lra).
    rewrite Es. clear Es HK.
    set (p := (1 - alpha) ^ Z.of_nat (length frames)) in *. clearbody p.
    split; nra.
  - intros Ea frames i Hs Hk Hi.
    destruct (SilenceFacts.smoothFrames_decay isPlaying alpha n frames Hs
                prev i 255 Hn Hi) as (s & Hs' & Es).
    exists s. split; [exact Hs'|].
    rewrite Es, Ea.
    assert (Hr : 0 <= 1 - 0.3 <= 1) by lra.
    pose proof (Decay.pow_antitone (1 - 0.3) 16 (length frames) Hr Hk) as Hle.
    assert (H16 : 255 * (1 - 0.3) ^ Z.of_nat 16 < 1)
      by (vm_compute; reflexivity).
    set (p := (1 - 0.3) ^ Z.of_nat (length frames)) in *. clearbody p.
    set (q := (1 - 0.3) ^ Z.of_nat 16) in *. clearbody q.
    nra.
Qed.

Lemma silence_decays_to_zero_witness :
  exists s,
    Smoothing.smoothFrames false (Smoothing.smoothingFactor CIRCLE) 1
      (replicate 17 [x00]) [Some 255] !! 0%nat = Some (Some s)
    /\ s < 1.
Proof.
  destruct (silence_decays_to_zero CIRCLE false 1 [Some 255] eq_refl)
    as (_ & _ & H).
  apply (H eq_refl (replicate 17 [x00]) 0%nat).
  - apply Forall_replicate. left. reflexivity.
  - simpl. lia.
  - reflexivity.
Defined.

(** C6.  Every smoothed value stays in [[0, 255]]: the effect leaves a
    buffer of exactly [n] bins (zero-filled when the bin count changed, so
    every index the loop visits is in range), and from a buffer within
    [[0, 255]] one frame, for the smoothing factor of any mode and any byte
    snapshot of [n] bins, playing or not, gives a buffer and a [smoothData]
    of [n] values within [[0, 255]]. *)
Theorem smoothed_stays_in_range :
  forall (mode : VisualizerMode) (isPlaying : bool) (n : nat)
         (dataArray : list byte) (prevData : list JS.num),
    length dataArray = n ->
    Forall (JS.within 0 255) prevData ->
    let prev0 := Smoothing.initSmoothing prevData n in
    let st := Smoothing.smooth isPlaying (Smoothing.smoothingFactor mode) n
                               dataArray prev0 in
    length prev0 = n
    /\ (length prevData <> n -> prev0 = JS.zeros n)
    /\ (forall i, (i < n)%nat -> is_Some (prev0 !! i))
    /\ length (fst st) = n /\ Forall (JS.within 0 255) (fst st)
    /\ length (snd st) = n /\ Forall (JS.within 0 255) (snd st).
Proof.
  intros mode isPlaying n d prev Hd Hp prev0 st.
  pose proof (SmoothingFacts.initSmoothing_length prev n) as L0.
  fold prev0 in L0.
  destruct (SmoothingFacts.smooth_spec isPlaying (Smoothing.smoothingFactor mode)
              n d prev0 L0) as (L1 & L2 & E & _).
  fold st in L1, L2, E.
  assert (Hw : Forall (JS.within 0 255) (fst st)).
  { apply SmoothingFacts.smooth_within; auto.
    - destruct (SmoothingFacts.smoothingFactor_unit mode). lra.
    - now apply SmoothingFacts.initSmoothing_within. }
  split; [exact L0|]. split.
  { intros Hne. subst prev0. unfold Smoothing.initSmoothing.
    destruct (Nat.eqb_spec (length prev) n); [contradiction|reflexivity]. }
  split.
  { intros i Hi. apply lookup_lt_is_Some_2. unfold JS.num in *. lia. }
  split; [exact L1|]. split; [exact Hw|]. split; [exact L2|].
  rewrite E. exact Hw.
Qed.

Lemma smoothed_stays_in_range_witness :
  let st := Smoothing.smooth true (Smoothing.smoothingFactor BARS) 2
              [xff; x00] (Smoothing.initSmoothing [Some 255] 2) in
  Forall (JS.within 0 255) (fst st) /\ Forall (JS.within 0 255) (snd st).
Proof.
  assert (Hp : Forall (JS.within 0 255) [Some 255]).
  { repeat constructor; simpl; lra. }
  pose proof (smoothed_stays_in_range BARS true 2 [xff; x00] [Some 255]
                eq_refl Hp) as H.
  cbv zeta in H. split; apply H.
Defined.

(* ================================================================== *)
(** * The animation-frame loop *)
(* ================================================================== *)

Module SchedulerFacts.
Import Scheduler.

#[local] Opaque Smoothing.smooth Render.render Smoothing.initSmoothing.

Section WithPlatform.

Variable Math_PI : Q.
Variables Math_sin Math_cos Math_sqrt : Q -> Q.
Variables width height : Z.

Local Abbreviation renderFrame :=
  (renderFrame Math_PI Math_sin Math_cos Math_sqrt width height).
Local Abbreviation cleanup := Scheduler.cleanup.
Local Abbreviation effect :=
  (effect Math_PI Math_sin Math_cos Math_sqrt width height).
Local Abbreviation setProps :=
  (setProps Math_PI Math_sin Math_cos Math_sqrt width height).
Local Abbreviation displayRefresh :=
  (displayRefresh Math_PI Math_sin Math_cos Math_sqrt width height).
Local Abbreviation run :=
  (run Math_PI Math_sin Math_cos Math_sqrt width height).
Local Abbreviation reachable :=
  (reachable Math_PI Math_sin Math_cos Math_sqrt width height).

Lemma cancel_empty id h : pending h = [] -> cancelAnimationFrame id h = h.
Proof.
  destruct h as [pnd nx]. simpl. intros ->. destruct id; reflexivity.
Qed.

Lemma run_cons inp inps st :
  run (inp :: inps) st = run inps (displayRefresh inp st).
Proof. reflexivity. Qed.

Lemma displayRefresh_none inp v nx :
  displayRefresh inp (v, mkHost [] nx) = (v, mkHost [] nx).
Proof. reflexivity. Qed.

Lemma displayRefresh_one inp v id p nx :
  displayRefresh inp (v, mkHost [(id, p)] nx)
  = renderFrame p inp (v, mkHost [] nx).
Proof. reflexivity. Qed.

(** A frame that is drawn queues exactly one callback. *)
Lemma renderFrame_draws p inp v nx :
  negb (isPlaying p) && noIdleAnimation (mode p) = false ->
  exists prev scene,
    renderFrame p inp (v, mkHost [] nx)
    = (mkVisualizer (Some nx) prev scene (hasCleanup v) (S (ticks v)),
       mkHost [(nx, p)] (S nx)).
Proof.
  intros Hg. unfold Scheduler.renderFrame. rewrite Hg.
  destruct (Smoothing.smooth _ _ _ _ _) as [prev sd].
  eexists _, _. reflexivity.
Qed.

(** A frame that is not drawn leaves everything as it is. *)
Lemma renderFrame_stops p inp v nx :
  negb (isPlaying p) && noIdleAnimation (mode p) = true ->
  renderFrame p inp (v, mkHost [] nx) = (v, mkHost [] nx).
Proof.
  intros Hg. unfold Scheduler.renderFrame. rewrite Hg.
  destruct (negb (isPlaying p)); [|reflexivity].
  now rewrite cancel_empty.
Qed.

Lemma cleanup_clears st :
  queued_once st ->
  exists nx, (1 <= nx)%nat /\ cleanup st = (fst st, mkHost [] nx).
Proof.
  destruct st as [v [pnd nx]]. intros [Hn [Hp | (id & p & Hp & Hr & Hc & Hid)]];
    simpl in *; subst pnd; exists nx; (split; [exact Hn|]).
  - unfold Scheduler.cleanup.
    destruct (hasCleanup v); [|reflexivity].
    destruct (animationRef v) as [[|i]|]; reflexivity.
  - unfold Scheduler.cleanup. rewrite Hc, Hr.
    destruct id as [|i]; [lia|]. simpl.
    now rewrite Nat.eqb_refl.
Qed.

Lemma queued_once_renderFrame p inp v nx :
  (1 <= nx)%nat -> hasCleanup v = true ->
  queued_once (renderFrame p inp (v, mkHost [] nx)).
Proof.
  intros Hn Hc.
  destruct (negb (isPlaying p) && noIdleAnimation (mode p)) eqn:Hg.
  - rewrite renderFrame_stops by exact Hg. split; [exact Hn| now left].
  - destruct (renderFrame_draws p inp v nx Hg) as (prev & scene & ->).
    split; simpl; [lia|]. right. exists nx, p. auto.
Qed.

Lemma queued_once_reachable st : reachable st -> queued_once st.
Proof.
  induction 1 as [|p inp st _ _ IH|inp st _ _ IH].
  - split; simpl; [lia | now left].
  - destruct (cleanup_clears st IH) as (nx & Hn & Hcl).
    unfold Scheduler.setProps. rewrite Hcl. unfold Scheduler.effect.
    destruct (negb (analyser p)).
    + split; simpl; [exact Hn | now left].
    + now apply queued_once_renderFrame.
  - destruct st as [v [pnd nx]].
    destruct IH as [Hn [Hp | (id & p & Hp & Hr & Hc & Hid)]];
      simpl in * |-; subst pnd.
    + rewrite displayRefresh_none. split; simpl; [exact Hn | now left].
    + rewrite displayRefresh_one. now apply queued_once_renderFrame.
Qed.

(** With nothing queued, display refreshes change nothing. *)
Lemma run_idle inps v nx : run inps (v, mkHost [] nx) = (v, mkHost [] nx).
Proof.
  induction inps as [|inp inps IH]; [reflexivity|].
  now rewrite run_cons, displayRefresh_none.
Qed.


(** What [renderFrame] leaves in [prevDataRef]: the old buffer when the
    frame is not drawn, the smoothed one otherwise. *)
Lemma renderFrame_prevData p inp v h :
  prevDataRef (fst (renderFrame p inp (v, h))) = prevDataRef v
  \/ prevDataRef (fst (renderFrame p inp (v, h)))
     = fst (Smoothing.smooth (isPlaying p)
              (Smoothing.smoothingFactor (mode p)) Smoothing.bufferLength
              (dataArray inp) (prevDataRef v)).
Proof.
  unfold Scheduler.renderFrame.
  destruct (negb (isPlaying p) && noIdleAnimation (mode p)).
  - left. destruct (negb (isPlaying p)); reflexivity.
  - right. destruct (Smoothing.smooth _ _ _ _ _) as [prev sd]. reflexivity.
Qed.

(** A full-length buffer within [[0, 255]] stays so over a frame. *)
Lemma renderFrame_in_range p inp v h :
  wellFormed inp ->
  length (prevDataRef v) = Smoothing.bufferLength ->
  Forall (JS.within 0 255) (prevDataRef v) ->
  let v' := fst (renderFrame p inp (v, h)) in
  length (prevDataRef v') = Smoothing.bufferLength
  /\ Forall (JS.within 0 255) (prevDataRef v').
Proof.
  intros Hin Hl Hw v'. subst v'.
  destruct (renderFrame_prevData p inp v h) as [-> | ->]; [auto|].
  split.
  - exact (proj1 (SmoothingFacts.smooth_spec _ _ _ (dataArray inp) _ Hl)).
  - apply SmoothingFacts.smooth_within; [|exact Hin|exact Hl|exact Hw].
    destruct (SmoothingFacts.smoothingFactor_unit (mode p)). lra.
Qed.

(** The smoothing buffer of every reachable state is within [[0, 255]];
    it has the full length as soon as a callback is queued. *)
Lemma reachable_smoothed_in_range st :
  reachable st ->
  Forall (JS.within 0 255) (prevDataRef (fst st))
  /\ (length (prevDataRef (fst st)) = Smoothing.bufferLength
      \/ (prevDataRef (fst st) = [] /\ pending (snd st) = [])).
Proof.
  induction 1 as [|p inp st Hin Hst IH|inp st Hin Hst IH].
  - split; [constructor | right; auto].
  - pose proof (queued_once_reachable st Hst) as Hq.
    destruct (cleanup_clears st Hq) as (nx & Hn & Hcl).
    destruct IH as [Hw Hl].
    unfold Scheduler.setProps. rewrite Hcl. unfold Scheduler.effect.
    destruct (negb (analyser p)); simpl.
    + split; [exact Hw|]. destruct Hl as [Hl | [Hl _]]; auto.
    + destruct (renderFrame_in_range p inp
                  (mkVisualizer (animationRef (fst st))
                     (Smoothing.initSmoothing (prevDataRef (fst st))
                                              Smoothing.bufferLength)
                     [] true (ticks (fst st)))
                  (mkHost [] nx) Hin) as [L W].
      * apply SmoothingFacts.initSmoothing_length.
      * now apply SmoothingFacts.initSmoothing_within.
      * split; [exact W | left; exact L].
  - pose proof (queued_once_reachable st Hst) as Hq.
    destruct st as [v [pnd nx]]. destruct IH as [Hw Hl].
    destruct Hq as [Hn [Hp | (id & p & Hp & _)]]; simpl in * |-; subst pnd.
    + rewrite displayRefresh_none. auto.
    + rewrite displayRefresh_one.
      destruct Hl as [Hl | [_ Hl]]; [|discriminate].
      destruct (renderFrame_in_range p inp v (mkHost [] nx) Hin Hl Hw) as [L W].
      split; [exact W | left; exact L].
Qed.

End WithPlatform.
End SchedulerFacts.




(* ================================================================== *)
(** * The audio graph and the equalizer *)
(* ================================================================== *)

Module AppFacts.
Import WebAudio App.

Lemma at_index_lt {A} (a : list A) (i : Z) :
  (0 <= i < Z.of_nat (length a))%Z ->
  exists x, at_index a i = Some x /\ a !! Z.to_nat i = Some x.
Proof.
  intros Hi. unfold at_index.
  destruct (Z.ltb_spec i 0); [lia|].
  destruct (lookup_lt_is_Some_2 a (Z.to_nat i)) as [x Hx]; [lia|].
  exists x. auto.
Qed.

Lemma at_index_out {A} (a : list A) (i : Z) :
  (i < 0 \/ Z.of_nat (length a) <= i)%Z -> at_index a i = None.
Proof.
  intros Hi. unfold at_index.
  destruct (Z.ltb_spec i 0); [reflexivity|].
  apply lookup_ge_None. lia.
Qed.

Lemma at_index_insert {A} (a : list A) (i : Z) (x : A) :
  (0 <= i < Z.of_nat (length a))%Z ->
  at_index (<[Z.to_nat i := x]> a) i = Some x.
Proof.
  intros Hi. unfold at_index.
  destruct (Z.ltb_spec i 0); [lia|].
  apply list_lookup_insert_eq. lia.
Qed.

Lemma at_index_insert_ne {A} (a : list A) (i j : Z) (x : A) :
  (0 <= i)%Z -> i <> j ->
  at_index (<[Z.to_nat i := x]> a) j = at_index a j.
Proof.
  intros Hi Hne. unfold at_index.
  destruct (Z.ltb_spec j 0); [reflexivity|].
  apply list_lookup_insert_ne. lia.
Qed.

(** The stored gain after [handleEQChange], index within the bands. *)
Lemma handleEQChange_band index value s :
  (0 <= index < Z.of_nat (length (eqBands s)))%Z ->
  snd (handleEQChange index value s) = None
  /\ bandGain (fst (handleEQChange index value s)) index = Some value
  /\ forall j, j <> index ->
       bandGain (fst (handleEQChange index value s)) j = bandGain s j.
Proof.
  intros Hi. unfold handleEQChange, eqBandsUpdater, bandGain.
  destruct (at_index_lt (eqBands s) index Hi) as (b & -> & _). simpl.
  split; [reflexivity|]. split.
  - now rewrite at_index_insert.
  - intros j Hj. rewrite at_index_insert_ne; [reflexivity| lia | auto].
Qed.

(** The live filter after [handleEQChange], index within the filters. *)
Lemma handleEQChange_filter index value s :
  (0 <= index < Z.of_nat (length (eqNodesRef s)))%Z ->
  filterGain (fst (handleEQChange index value s)) index = Some value
  /\ forall j, j <> index ->
       filterGain (fst (handleEQChange index value s)) j = filterGain s j.
Proof.
  intros Hi. unfold handleEQChange, filterGain.
  destruct (eqBandsUpdater index value (eqBands s)) as [e|next];
    destruct (at_index_lt (eqNodesRef s) index Hi) as (b & -> & _); simpl;
    (split; [now rewrite at_index_insert
            | intros j Hj; rewrite at_index_insert_ne;
              [reflexivity | lia | auto]]).
Qed.

Lemma initAudioContext_nodes st0 s :
  audioContextRef s = None ->
  length (eqNodesRef (initAudioContext st0 s)) = 10%nat
  /\ eqBands (initAudioContext st0 s) = eqBands s.
Proof.
  intros Hn. unfold initAudioContext. rewrite Hn. split; reflexivity.
Qed.

End AppFacts.

(** C1.  What the karaoke topology computes.  After [initAudioContext] and
    one [toggleKaraokeMode], for any filter response and any stereo source
    [(l, r)], the loudspeakers get two channels: the left one is the
    filtered right channel inverted and the right one the filtered left
    channel inverted, because both channels go through the one inverting
    gain node.  In particular, with a flat filter response, a signal [c]
    present in both channels comes out as [- c] in both: it is not
    attenuated. *)
Theorem karaoke_swaps_and_inverts :
  forall (biquad : WebAudio.BiquadFilterNode -> WebAudio.Signal -> WebAudio.Signal)
         (st0 : App.ContextState) (saved : option (list EQBand))
         (l r c : WebAudio.Signal),
    let s := App.toggleKaraokeMode
               (App.initAudioContext st0 (App.initialState saved)) in
    App.karaokeMode s = true
    /\ (exists lo ro,
          App.heard biquad [l; r] s = [lo; ro]
          /\ forall t,
               lo t == - WebAudio.eqChain biquad (App.eqNodesRef s) r t
               /\ ro t == - WebAudio.eqChain biquad (App.eqNodesRef s) l t)
    /\ (exists lo ro,
          App.heard (fun _ x => x) [c; c] s = [lo; ro]
          /\ forall t, lo t == - c t /\ ro t == - c t).
Proof.
  intros biquad st0 saved l r c s. split; [reflexivity|]. split.
  - eexists _, _. split.
    + lazy -[Qplus Qmult Qeq Qopp Qdiv Qinv Qminus]. reflexivity.
    + intros t. lazy -[Qplus Qmult Qeq Qopp Qdiv Qinv Qminus]. split; ring.
  - eexists _, _. split.
    + lazy -[Qplus Qmult Qeq Qopp Qdiv Qinv Qminus]. reflexivity.
    + intros t. lazy -[Qplus Qmult Qeq Qopp Qdiv Qinv Qminus]. split; ring.
Qed.

(** C2, as the code has it.  [handleEQChange] does not clamp.  With the
    index of an existing band, the stored gain of that band is the value
    passed, whatever the value; with the index of an existing filter stage
    and a value that the parameter holds as written (a single-precision
    float within [[-40, 40]], as 20 and every position of the slider are),
    the gain of the live filter is the value passed; every other band and
    every other filter keeps its gain. *)
Theorem handleEQChange_stores_value_unclamped :
  forall (index : Z) (value : Q) (s : App.State),
    let s' := fst (App.handleEQChange index value s) in
    ((0 <= index < Z.of_nat (length (App.eqBands s)))%Z ->
       App.bandGain s' index = Some value
       /\ forall j, j <> index -> App.bandGain s' j = App.bandGain s j)
    /\ ((0 <= index < Z.of_nat (length (App.eqNodesRef s)))%Z ->
        WebAudio.held_as_written value = true ->
          App.filterGain s' index = Some value
          /\ forall j, j <> index -> App.filterGain s' j = App.filterGain s j).
Proof.
  intros index value s s'. subst s'. split.
  - intros Hi. now destruct (AppFacts.handleEQChange_band index value s Hi).
  - intros Hi _. apply AppFacts.handleEQChange_filter, Hi.
Qed.

Lemma handleEQChange_stores_value_unclamped_witness :
  let s := App.initAudioContext App.running (App.initialState None) in
  let s' := fst (App.handleEQChange 0 20 s) in
  App.bandGain s' 0 = Some 20 /\ App.filterGain s' 0 = Some 20
  /\ App.bandGain s' 1 = Some 0 /\ App.filterGain s' 1 = Some 0.
Proof.
  intros s s'.
  destruct (handleEQChange_stores_value_unclamped 0 20 s) as (Hb & Hf).
  destruct Hb as (H1 & H2); [simpl; lia|].
  destruct Hf as (H3 & H4); [simpl; lia | reflexivity |].
  split; [exact H1|]. split; [exact H3|]. split.
  - exact (H2 1%Z ltac:(lia)).
  - exact (H4 1%Z ltac:(lia)).
Defined.

(** C2, as stated, fails: after [handleEQChange(0, 20)] on the initialized
    player the stored gain of band 0 and the gain of its live filter are
    20, not 12. *)
Lemma handleEQChange_20_is_not_clamped :
  let s := App.initAudioContext App.running (App.initialState None) in
  let s' := fst (App.handleEQChange 0 20 s) in
  App.bandGain s' 0 = Some 20 /\ App.filterGain s' 0 = Some 20
  /\ ~ (exists g, App.bandGain s' 0 = Some g /\ g == 12)
  /\ ~ (exists g, App.filterGain s' 0 = Some g /\ g == 12).
Proof.
  cbv zeta. split; [reflexivity|]. split; [reflexivity|].
  split; intros (g & Hg & E); vm_compute in Hg; injection Hg as <-;
    vm_compute in E; discriminate.
Qed.

(** C3.  From a state whose graph is the flat topology (source, the ten
    filter stages in a chain, the analyser, the destination), with ten
    filters and karaoke mode off, two calls of [toggleKaraokeMode] give the
    same state back: the same connections and a [karaokeMode] flag of false;
    the state in between has the flag on. *)
Theorem toggle_twice_restores_flat :
  forall (s : App.State) (a : App.AudioRefs),
    App.audioContextRef s = Some a ->
    length (App.eqNodesRef s) = 10%nat ->
    App.karaokeMode s = false ->
    App.graph a = App.connectFlat 10 [] ->
    let s1 := App.toggleKaraokeMode s in
    let s2 := App.toggleKaraokeMode s1 in
    App.karaokeMode s1 = true
    /\ App.karaokeMode s2 = false
    /\ (exists a2, App.audioContextRef s2 = Some a2
                   /\ App.graph a2 = App.graph a
                   /\ WebAudio.same_connections (App.graph a2) (App.graph a))
    /\ s2 = s
    /\ App.graph a
       = WebAudio.mkEdge WebAudio.Source 0 (WebAudio.Eq 0) 0
         :: List.map (fun i => WebAudio.mkEdge (WebAudio.Eq i) 0
                                               (WebAudio.Eq (S i)) 0)
                     (seq 0 9)
         ++ [WebAudio.mkEdge (WebAudio.Eq 9) 0 WebAudio.AnalyserNode 0;
             WebAudio.mkEdge WebAudio.AnalyserNode 0 WebAudio.Destination 0].
Proof.
  intros [ctx nodes bands km] [cs fft ig g] Hctx Hn Hk Hg s1 s2.
  simpl in Hctx, Hn, Hk, Hg. subst ctx km g.
  assert (E1 : s1 = App.mkState
                 (Some (App.mkAudioRefs cs fft ig
                          (App.connectKaraoke 10
                             (App.disconnectAll 10 (App.connectFlat 10 []))))) 
                 nodes bands true).
  { subst s1. unfold App.toggleKaraokeMode. simpl. rewrite Hn. reflexivity. }
  assert (E2 : s2 = App.mkState
                 (Some (App.mkAudioRefs cs fft ig (App.connectFlat 10 [])))
                 nodes bands false).
  { subst s2. rewrite E1. unfold App.toggleKaraokeMode. simpl. rewrite Hn.
    reflexivity. }
  rewrite E1, E2. simpl.
  split; [reflexivity|]. split; [reflexivity|]. split.
  { eexists. split; [reflexivity|]. split; [reflexivity|].
    intros e. reflexivity. }
  split; reflexivity.
Qed.

Lemma toggle_twice_restores_flat_witness :
  let s := App.initAudioContext App.running (App.initialState None) in
  App.toggleKaraokeMode (App.toggleKaraokeMode s) = s
  /\ App.karaokeMode (App.toggleKaraokeMode s) = true.
Proof.
  intros s.
  destruct (toggle_twice_restores_flat s
              (App.mkAudioRefs App.running 256 (-1) (App.connectFlat 10 []))
              eq_refl eq_refl eq_refl eq_refl) as (H1 & _ & _ & H2 & _).
  split; [exact H2 | exact H1].
Defined.

(** C9.  After [initAudioContext] on a player with ten bands, for every
    band index [i] in [[0, 9]] and every gain [g] in [[-12, 12]],
    [handleEQChange i g] raises nothing and leaves [g] both as the gain of
    the live filter [i] and as the stored gain of band [i]. *)
Theorem handleEQChange_then_read :
  forall (st0 : App.ContextState) (s0 : App.State) (i : Z) (g : Q),
    App.audioContextRef s0 = None ->
    length (App.eqBands s0) = 10%nat ->
    (0 <= i <= 9)%Z ->
    -12 <= g <= 12 ->
    let s := App.initAudioContext st0 s0 in
    let r := App.handleEQChange i g s in
    snd r = None
    /\ App.filterGain (fst r) i = Some g
    /\ App.bandGain (fst r) i = Some g.
Proof.
  intros st0 s0 i g Hctx Hb Hi Hg s r.
  destruct (AppFacts.initAudioContext_nodes st0 s0 Hctx) as [Hn Hbands].
  fold s in Hn, Hbands.
  destruct (AppFacts.handleEQChange_band i g s) as (H1 & H2 & _).
  { rewrite Hbands, Hb. lia. }
  destruct (AppFacts.handleEQChange_filter i g s) as (H3 & _).
  { rewrite Hn. lia. }
  auto.
Qed.

Lemma handleEQChange_then_read_witness :
  let s := App.initAudioContext App.running (App.initialState None) in
  let r := App.handleEQChange 3 (-7.5) s in
  snd r = None /\ App.filterGain (fst r) 3 = Some (-7.5)
  /\ App.bandGain (fst r) 3 = Some (-7.5).
Proof.
  apply (handleEQChange_then_read App.running (App.initialState None) 3 (-7.5)
           eq_refl eq_refl).
  - lia.
  - split; vm_compute; discriminate.
Defined.

(* ================================================================== *)
(** * The render modes *)
(* ================================================================== *)

Module RenderFacts.

(** A check over a range of loop indices. *)
Lemma forall_range (P : Z -> bool) (k : Z) :
  forallb P (seqZ 0 k) = true ->
  forall i, (0 <= i < k)%Z -> P i = true.
Proof.
  intros Hall i Hi. rewrite forallb_forall in Hall. apply Hall.
  apply list_elem_of_In, elem_of_seqZ. lia.
Qed.

Lemma forall_range2 (P : Z -> Z -> bool) (k m : Z) :
  forallb (fun i => forallb (P i) (seqZ 0 m)) (seqZ 0 k) = true ->
  forall i j, (0 <= i < k)%Z -> (0 <= j < m)%Z -> P i j = true.
Proof.
  intros Hall i j Hi Hj.
  apply (forall_range (P i) m); [|exact Hj].
  apply (forall_range (fun i => forallb (P i) (seqZ 0 m)) k Hall i Hi).
Qed.

Lemma inside_spec n i : JS.inside n i = true -> (0 <= i < n)%Z.
Proof. unfold JS.inside. lia. Qed.

(** A read at an index inside the buffer gives the stored element. *)
Lemma get_inside (a : list JS.num) (i : Z) :
  (0 <= i < Z.of_nat (length a))%Z ->
  exists v, a !! Z.to_nat i = Some v /\ JS.get a i = v.
Proof.
  intros Hi. unfold JS.get. destruct (Z.ltb_spec i 0); [lia|].
  destruct (lookup_lt_is_Some_2 a (Z.to_nat i)) as [v Hv]; [lia|].
  exists v. rewrite Hv. auto.
Qed.

Lemma or0_finite (a : JS.num) : JS.finite (JS.or0 a).
Proof. destruct a; exact I. Qed.

Lemma count_map_all {A} (f : Primitive -> bool) (g : A -> Primitive) l :
  (forall x, f (g x) = true) -> count f (List.map g l) = length l.
Proof.
  intros Hall. unfold count. induction l as [|x l IH]; simpl; [reflexivity|].
  rewrite Hall. simpl. now rewrite IH.
Qed.

Lemma count_cons_skip (f : Primitive -> bool) x l :
  f x = false -> count f (x :: l) = count f l.
Proof. intros Hx. unfold count. simpl. now rewrite Hx. Qed.

End RenderFacts.

(** C4.  Whatever the spectrum, the bin count, the viewport and the time,
    a frame leaves 64 bars in Bars mode, 96 bars in Spectrum mode (next to
    the gradient definition), 12 rings in Rings mode, 700 points in Spiral
    mode (350 in each of the two vortices), 150 points in Particles mode, and 240 strand
    points with 15 connectors in DNA mode. *)
Theorem primitive_counts_are_fixed :
  forall (Math_PI : Q) (Math_sin Math_cos Math_sqrt : Q -> Q)
         (bufferLength : nat) (width height : Z) (time : Q)
         (smoothData : list JS.num),
    let scene := Render.render Math_PI Math_sin Math_cos Math_sqrt
                               bufferLength width height time smoothData in
    (length (scene BARS) = 64%nat /\ count is_rect (scene BARS) = 64%nat)
    /\ (count is_rect (scene SPECTRUM) = 96%nat
        /\ length (scene SPECTRUM) = 97%nat)
    /\ (length (scene RINGS) = 12%nat /\ count is_circle (scene RINGS) = 12%nat)
    /\ (length (scene SPIRAL) = 700%nat
        /\ count is_circle (scene SPIRAL) = 700%nat
        /\ count is_cool_circle (scene SPIRAL) = 350%nat
        /\ count is_warm_circle (scene SPIRAL) = 350%nat)
    /\ (length (scene PARTICLES) = 150%nat
        /\ count is_circle (scene PARTICLES) = 150%nat)
    /\ (count is_circle (scene DNA) = 240%nat
        /\ count is_line (scene DNA) = 15%nat
        /\ length (scene DNA) = 255%nat).
Proof.
  intros PI sin cos sqrt n w h t sd scene. subst scene.
  split; [|split; [|split; [|split; [|split]]]].
  - (* Bars: one rectangle per entry of visualData *)
    unfold Render.render, Render.render_bars. cbv zeta. split.
    + rewrite length_map, length_imap. unfold Render.bars_visualData.
      rewrite length_map, length_seqZ. reflexivity.
    + etransitivity;
        [apply RenderFacts.count_map_all; intros [i [v idx]]; reflexivity|].
      rewrite length_imap. unfold Render.bars_visualData.
      rewrite length_map, length_seqZ. reflexivity.
  - unfold Render.render, Render.render_spectrum. cbv zeta. split.
    + etransitivity; [apply RenderFacts.count_cons_skip; reflexivity|].
      etransitivity;
        [apply RenderFacts.count_map_all; intros [i [v idx]]; reflexivity|].
      rewrite length_imap. unfold Render.spectrum_visualData.
      rewrite length_map, length_seqZ. reflexivity.
    + cbn [length]. rewrite length_map, length_imap.
      unfold Render.spectrum_visualData.
      rewrite length_map, length_seqZ. reflexivity.
  - unfold Render.render, Render.render_rings. split.
    + rewrite length_map, length_seqZ. reflexivity.
    + etransitivity; [apply RenderFacts.count_map_all; reflexivity|].
      rewrite length_seqZ. reflexivity.
  - vm_compute. auto.
  - unfold Render.render, Render.render_particles. split.
    + rewrite length_map, length_seqZ. reflexivity.
    + etransitivity; [apply RenderFacts.count_map_all; reflexivity|].
      rewrite length_seqZ. reflexivity.
  - vm_compute. auto.
Qed.

(** C8, as the code has it.  In Circle mode, with every bin of the 512-bin
    spectrum at 255 and a viewport of 800 by 600, the bass offset is at its
    maximum of 15 and the core circle is drawn with radius
    [(radiusInner + 15) * 0.9], where [radiusInner = min(800, 600) / 4.5]:
    that is [radiusInner * 0.9 + 13.5], or 133.5. *)
Theorem circle_core_radius_at_full_scale :
  forall (Math_PI : Q) (Math_sin Math_cos Math_sqrt : Q -> Q) (time : Q),
    let n := Smoothing.bufferLength in
    let smoothData := replicate n (Some 255) in
    let radiusInner := Render.circle_radiusInner 800 600 in
    let scene := Render.render Math_PI Math_sin Math_cos Math_sqrt
                               n 800 600 time smoothData CIRCLE in
    radiusInner == Qmin 800 600 / 4.5
    /\ JS.eq (Render.circle_currentRadius 800 600 smoothData)
             (Some (radiusInner + 15))
    /\ JS.eq (radius_of "core" scene) (Some ((radiusInner + 15) * 0.9))
    /\ JS.eq (radius_of "core" scene) (Some (radiusInner * 0.9 + 13.5))
    /\ JS.eq (radius_of "core" scene) (Some 133.5).
Proof.
  intros PI sin cos sqrt t n sd radiusInner scene.
  split; [reflexivity|].
  split; [vm_compute; reflexivity|].
  assert (Hcore : radius_of "core" scene
                  = (Render.circle_currentRadius 800 600 sd * 0.9)%J)
    by reflexivity.
  rewrite Hcore. repeat split; vm_compute; reflexivity.
Qed.

(** C8, as stated, fails: at full scale on an 800 by 600 viewport the core
    radius is not [radiusInner * 0.9 + 15]. *)
Lemma circle_core_radius_is_not_plus_15 :
  let zero := fun _ : Q => 0 in
  let radiusInner := Render.circle_radiusInner 800 600 in
  let scene := Render.render 0 zero zero zero Smoothing.bufferLength 800 600 0
                 (replicate Smoothing.bufferLength (Some 255)) CIRCLE in
  ~ JS.eq (radius_of "core" scene) (Some (radiusInner * 0.9 + 15)).
Proof. vm_compute. discriminate. Qed.

(* ================================================================== *)
(** * More of the visualizer: what a frame draws *)
(* ================================================================== *)

Module SceneFacts.
Import Frames.

Lemma num_ok_add a b : num_ok a = true -> num_ok b = true -> num_ok (a + b)%J = true.
Proof. destruct a, b; simpl; auto. Qed.
Lemma num_ok_sub a b : num_ok a = true -> num_ok b = true -> num_ok (a - b)%J = true.
Proof. destruct a, b; simpl; auto. Qed.
Lemma num_ok_mul a b : num_ok a = true -> num_ok b = true -> num_ok (a * b)%J = true.
Proof. destruct a, b; simpl; auto. Qed.
Lemma num_ok_max a b : num_ok a = true -> num_ok b = true -> num_ok (JS.max a b) = true.
Proof. destruct a, b; simpl; auto. Qed.
Lemma num_ok_div a (q : Q) :
  num_ok a = true -> Qeq_bool q 0 = false -> num_ok (a / JS.fin q)%J = true.
Proof. destruct a; simpl; intros; [|discriminate]. now rewrite H0. Qed.
Lemma num_ok_or0 a : num_ok (JS.or0 a) = true.
Proof. now destruct a. Qed.

Lemma num_ok_get (sd : list JS.num) (i : Z) :
  Forall JS.finite sd -> (0 <= i < Z.of_nat (length sd))%Z ->
  num_ok (JS.get sd i) = true.
Proof.
  intros Hf Hi. destruct (RenderFacts.get_inside sd i Hi) as (v & Hv & ->).
  pose proof (Forall_lookup_1 _ _ _ _ Hf Hv) as Hfin. now destruct v.
Qed.

Lemma forallb_map_range {A} (P : A -> bool) (f : Z -> A) (k : Z) :
  (forall i, (0 <= i < k)%Z -> P (f i) = true) ->
  forallb P (List.map f (seqZ 0 k)) = true.
Proof.
  intros H. apply forallb_forall. intros x Hx. apply in_map_iff in Hx.
  destruct Hx as (i & <- & Hi). apply H.
  apply list_elem_of_In, elem_of_seqZ in Hi. lia.
Qed.

Lemma forallb_flat_map_range {A} (P : A -> bool) (f : Z -> list A) (k : Z) :
  (forall i, (0 <= i < k)%Z -> forallb P (f i) = true) ->
  forallb P (flat_map f (seqZ 0 k)) = true.
Proof.
  intros H. apply forallb_forall. intros x Hx. apply in_flat_map in Hx.
  destruct Hx as (i & Hi & Hx). apply list_elem_of_In, elem_of_seqZ in Hi.
  specialize (H i ltac:(lia)). rewrite forallb_forall in H. now apply H.
Qed.

Lemma forallb_imap {A B} (P : B -> bool) (f : nat -> A -> B) (l : list A) :
  (forall i x, l !! i = Some x -> P (f i x) = true) ->
  forallb P (imap f l) = true.
Proof.
  intros H. apply forallb_forall. intros y Hy.
  apply list_elem_of_In, list_elem_of_lookup in Hy. destruct Hy as [i Hy].
  rewrite list_lookup_imap in Hy.
  destruct (l !! i) as [x|] eqn:E; [|discriminate]. injection Hy as <-. eauto.
Qed.


Lemma num_ok_fold_add (sd : list JS.num) (g : Z -> JS.num) (l : list Z) (a : JS.num) :
  num_ok a = true -> (forall j, In j l -> num_ok (g j) = true) ->
  num_ok (fold_left (fun sum j => (sum + g j)%J) l a) = true.
Proof.
  revert a. induction l as [|j l IH]; intros a Ha Hl; simpl; [exact Ha|].
  apply IH.
  - apply num_ok_add; [exact Ha | apply Hl; now left].
  - intros k Hk. apply Hl. now right.
Qed.

Lemma num_ok_sumFrom (sd : list JS.num) (base n : Z) :
  Forall JS.finite sd ->
  (forall j, (0 <= j < n)%Z -> (0 <= base + j < Z.of_nat (length sd))%Z) ->
  num_ok (Render.sumFrom sd base n) = true.
Proof.
  intros Hf Hr. unfold Render.sumFrom.
  apply (num_ok_fold_add sd (fun j => JS.get sd (base + j))); [reflexivity|].
  intros j Hj. apply list_elem_of_In, elem_of_seqZ in Hj.
  apply num_ok_get; [exact Hf | apply Hr; lia].
Qed.

Ltac ok_step :=
  lazymatch goal with
  | |- true = true => reflexivity
  | |- num_ok (Some _) = true => reflexivity
  | |- num_ok (JS.fin _) = true => reflexivity
  | |- (_ && _)%bool = true => apply andb_true_intro; split
  | |- num_ok (JS.add _ _) = true => apply num_ok_add
  | |- num_ok (JS.sub _ _) = true => apply num_ok_sub
  | |- num_ok (JS.mul _ _) = true => apply num_ok_mul
  | |- num_ok (JS.max _ _) = true => apply num_ok_max
  | |- num_ok (JS.or0 _) = true => apply num_ok_or0
  | |- num_ok (JS.div _ _) = true =>
      apply num_ok_div; [| vm_compute; reflexivity ]
  | |- paint_ok _ = true => reflexivity
  | |- opt_ok _ None = true => reflexivity
  | |- opt_ok _ (Some _) = true => cbn [opt_ok]
  end.
Ltac ok := repeat ok_step; try assumption.

Section Finite.
Variable Math_PI : Q.
Variables Math_sin Math_cos Math_sqrt : Q -> Q.
Variables width height : Z.
Variable time : Q.
Variable sd : list JS.num.
Hypothesis Hlen : length sd = Smoothing.bufferLength.
Hypothesis Hfin : Forall JS.finite sd.

Local Abbreviation n := Smoothing.bufferLength.

Lemma get_ok (i : Z) : JS.inside 512 i = true -> num_ok (JS.get sd i) = true.
Proof.
  intros Hi. apply RenderFacts.inside_spec in Hi.
  apply num_ok_get; [exact Hfin | rewrite Hlen; exact Hi].
Qed.

Lemma forallb_map_In {A B} (P : B -> bool) (f : A -> B) (l : list A) :
  (forall x, In x l -> P (f x) = true) -> forallb P (List.map f l) = true.
Proof.
  intros H. apply forallb_forall. intros y Hy. apply in_map_iff in Hy.
  destruct Hy as (x & <- & Hx). auto.
Qed.

Lemma In_imap_pair {A} (l : list A) (i : nat) (x : A) :
  In (i, x) (imap pair l) -> In x l.
Proof.
  intros H. apply list_elem_of_In, list_elem_of_lookup in H.
  destruct H as [k H]. rewrite list_lookup_imap in H.
  destruct (l !! k) as [y|] eqn:E; [|discriminate]. injection H as _ <-.
  apply list_elem_of_In, list_elem_of_lookup. eauto.
Qed.

Lemma scaleLinear_ok r0 r1 v :
  num_ok v = true -> num_ok (D3.scaleLinear255 r0 r1 v) = true.
Proof. intros Hv. unfold D3.scaleLinear255. cbv zeta. ok. Qed.

Lemma bars_val_ok d :
  In d (Render.bars_visualData n sd) -> num_ok (fst d) = true.
Proof.
  unfold Render.bars_visualData. intros Hd. apply in_map_iff in Hd.
  destruct Hd as (i & <- & Hi). apply list_elem_of_In, elem_of_seqZ in Hi.
  simpl fst. ok.
  apply num_ok_sumFrom; [exact Hfin|]. intros j Hj. rewrite Hlen.
  apply RenderFacts.inside_spec.
  apply (RenderFacts.forall_range2
           (fun i j => JS.inside 512 (i * Render.bars_step n + j))
           Render.bars_barCount (Render.bars_step n)); auto.
Qed.

Lemma bars_ok : scene_ok (Render.render_bars n width height sd) = true.
Proof.
  unfold scene_ok, Render.render_bars. cbv zeta.
  apply forallb_map_In. intros [i [val idx]] Hx.
  apply In_imap_pair, bars_val_ok in Hx. simpl in Hx.
  cbn [primitive_ok]. ok; apply scaleLinear_ok; exact Hx.
Qed.

Lemma spectrum_val_ok d :
  In d (Render.spectrum_visualData n sd) -> num_ok (fst d) = true.
Proof.
  unfold Render.spectrum_visualData. intros Hd. apply in_map_iff in Hd.
  destruct Hd as (i & <- & Hi). apply list_elem_of_In, elem_of_seqZ in Hi.
  simpl fst. ok.
  apply num_ok_sumFrom; [exact Hfin|]. intros j Hj. rewrite Hlen.
  apply RenderFacts.inside_spec.
  apply (RenderFacts.forall_range2
           (fun i j => JS.inside 512 (i * Render.spectrum_step n + j))
           Render.spectrum_barCount (Render.spectrum_step n)); auto.
Qed.

Lemma spectrum_ok : scene_ok (Render.render_spectrum n width height sd) = true.
Proof.
  unfold scene_ok, Render.render_spectrum. cbv zeta.
  cbn [forallb primitive_ok andb].
  apply forallb_map_In. intros [i [val idx]] Hx.
  apply In_imap_pair, spectrum_val_ok in Hx. simpl in Hx.
  cbn [primitive_ok]. ok; apply scaleLinear_ok; exact Hx.
Qed.

Lemma bass_ok : num_ok (Render.circle_bassAvg sd) = true.
Proof.
  unfold Render.circle_bassAvg. ok.
  apply num_ok_sumFrom; [exact Hfin|]. intros j Hj. rewrite Hlen.
  change (Z.of_nat Smoothing.bufferLength) with 512%Z. lia.
Qed.

Lemma currentRadius_ok :
  num_ok (Render.circle_currentRadius width height sd) = true.
Proof. unfold Render.circle_currentRadius. ok. apply bass_ok. Qed.

Lemma circle_ok :
  scene_ok (Render.render_circle Math_PI Math_sin Math_cos n width height sd)
  = true.
Proof.
  pose proof currentRadius_ok as Hr.
  unfold scene_ok, Render.render_circle.
  cbn [forallb]. apply andb_true_intro. split.
  - unfold Render.circle_core. cbn [primitive_ok]. ok.
  - apply forallb_imap. intros i [val idx] Hx.
    assert (Hv : num_ok val = true).
    { apply list_elem_of_lookup_2, list_elem_of_In in Hx.
      unfold Render.circle_visualData in Hx. apply in_map_iff in Hx.
      destruct Hx as (k & E & Hk). injection E as <- _.
      apply list_elem_of_In, elem_of_seqZ in Hk. apply get_ok.
      apply (RenderFacts.forall_range
               (fun i => JS.inside 512 (Render.circle_spectrumIndex n i))
               Render.circle_points); auto. }
    unfold Render.circle_bar. cbv zeta. cbn [primitive_ok fst snd]. ok.
Qed.


Lemma spiral_ok :
  scene_ok (Render.render_spiral Math_sin Math_cos Math_sqrt n width height
                                 time sd) = true.
Proof.
  unfold scene_ok, Render.render_spiral. apply forallb_flat_map_range.
  intros i Hi.
  assert (Hv : num_ok (JS.get_rem sd i (Render.spiral_freqRange n)) = true).
  { unfold JS.get_rem.
    change (Render.spiral_freqRange n =? 0)%Z with false. cbv iota.
    apply get_ok.
    apply (RenderFacts.forall_range
             (fun i => JS.inside 512 (Z.rem i (Render.spiral_freqRange n)))
             Render.spiral_points); auto. }
  unfold Render.spiral_pair. cbv zeta. cbn [forallb primitive_ok]. ok.
Qed.

Lemma particles_ok :
  scene_ok (Render.render_particles Math_sin n width height time sd) = true.
Proof.
  unfold scene_ok, Render.render_particles. apply forallb_map_range.
  intros i Hi.
  assert (Hv : num_ok (JS.get sd (Render.particles_freqIndex n i)) = true).
  { apply get_ok.
    apply (RenderFacts.forall_range
             (fun i => JS.inside 512 (Render.particles_freqIndex n i))
             Render.particles_particleCount); auto. }
  unfold Render.particles_particle. cbv zeta. cbn [primitive_ok]. ok.
Qed.

Lemma ringEnergy_ok i : num_ok (Render.rings_ringEnergy n sd i) = true.
Proof.
  unfold Render.rings_ringEnergy. ok.
  apply (num_ok_fold_add sd
           (fun j => JS.or0 (JS.get sd (Render.rings_freqStart n i + j))));
    [reflexivity|].
  intros j _. apply num_ok_or0.
Qed.

Lemma rings_ok :
  scene_ok (Render.render_rings Math_sin n width height time sd) = true.
Proof.
  unfold scene_ok, Render.render_rings. apply forallb_map_range.
  intros i Hi. pose proof (ringEnergy_ok i) as He.
  unfold Render.rings_ring. cbv zeta. cbn [primitive_ok]. ok.
Qed.

Lemma dna_ok :
  scene_ok (Render.render_dna Math_PI Math_cos n width height time sd) = true.
Proof.
  unfold scene_ok, Render.render_dna.
  assert (Hd : forall d,
             In d (Render.dna_helixData Math_PI Math_cos n width height time sd) ->
             (Render.is_connector d = false ->
              primitive_ok (Render.dna_strand d) = true)
             /\ (Render.is_connector d = true ->
                 primitive_ok (Render.dna_connector d) = true)).
  { intros d Hd. unfold Render.dna_helixData in Hd. apply in_flat_map in Hd.
    destruct Hd as (i & Hi & Hd). apply list_elem_of_In, elem_of_seqZ in Hi.
    assert (Hv : num_ok (JS.get sd (Render.dna_freqIndex n i)) = true).
    { apply get_ok.
      apply (RenderFacts.forall_range
               (fun i => JS.inside 512 (Render.dna_freqIndex n i))
               Render.dna_points); auto. }
    unfold Render.dna_push in Hd. cbv zeta in Hd.
    apply in_app_or in Hd. destruct Hd as [Hd | Hd].
    - destruct Hd as [<- | [<- | []]];
        (split; [intros _ | discriminate]);
        unfold Render.dna_strand; cbn [primitive_ok Render.h_x Render.h_y
          Render.h_r Render.h_color Render.h_energy]; ok.
    - destruct (Z.rem i 8 =? 0)%Z; [|destruct Hd].
      destruct Hd as [<- | []]. split; [discriminate | intros _].
      unfold Render.dna_connector; cbn [primitive_ok Render.h_x Render.h_y
          Render.h_x2 Render.h_y2 Render.h_color Render.h_energy]; ok. }
  rewrite forallb_app. apply andb_true_intro. split.
  - apply forallb_map_In. intros d Hin. apply filter_In in Hin.
    destruct Hin as [Hin Hc]. apply (Hd d Hin).
    now destruct (Render.is_connector d).
  - apply forallb_map_In. intros d Hin. apply filter_In in Hin.
    destruct Hin as [Hin Hc]. now apply (Hd d Hin).
Qed.


Lemma petalData_length petal :
  (0 <= petal < Render.wave_numPetals)%Z ->
  length (Render.wave_petalData n sd petal) = 80%nat.
Proof.
  intros Hp. unfold Render.wave_petalData.
  assert (Hr : JS.inside 433 (Render.wave_freqStart n petal) = true).
  { apply (RenderFacts.forall_range
             (fun p => JS.inside 433 (Render.wave_freqStart n p))
             Render.wave_numPetals); auto. }
  apply RenderFacts.inside_spec in Hr.
  rewrite length_take, length_drop, Hlen.
  change Render.wave_petalSize with 80%nat.
  change Smoothing.bufferLength with 512%nat in *. lia.
Qed.

Lemma petalData_finite petal x :
  In x (Render.wave_petalData n sd petal) -> num_ok x = true.
Proof.
  intros Hx. unfold Render.wave_petalData in Hx.
  apply list_elem_of_In in Hx.
  apply (fun H => elem_of_sublist _ _ _ H (sublist_take _ _)) in Hx.
  apply (fun H => elem_of_sublist _ _ _ H (sublist_drop _ _)) in Hx.
  pose proof (proj1 (Forall_forall _ _) Hfin x Hx) as Hf. now destruct x.
Qed.

Lemma num_ok_fold_plain (l : list JS.num) (a : JS.num) :
  num_ok a = true -> (forall x, In x l -> num_ok x = true) ->
  num_ok (fold_left JS.add l a) = true.
Proof.
  revert a. induction l as [|x l IH]; intros a Ha Hl; simpl; [exact Ha|].
  apply IH.
  - apply num_ok_add; [exact Ha | apply Hl; now left].
  - intros y Hy. apply Hl. now right.
Qed.

Lemma petalEnergy_ok petal :
  (0 <= petal < Render.wave_numPetals)%Z ->
  num_ok (Render.wave_petalEnergy n sd petal) = true.
Proof.
  intros Hp. unfold Render.wave_petalEnergy. cbv zeta.
  rewrite (petalData_length petal Hp). ok.
  apply num_ok_fold_plain; [reflexivity | apply petalData_finite].
Qed.

Lemma wave_ok :
  scene_ok (Render.render_wave Math_PI Math_sin Math_cos n width height
                               time sd) = true.
Proof.
  unfold scene_ok, Render.render_wave. apply forallb_map_range.
  intros petal Hp. pose proof (petalEnergy_ok petal Hp) as He.
  unfold Render.wave_petal. cbv zeta.
  assert (Hpts : forallb (fun xy => num_ok (fst xy) && num_ok (snd xy))
                   (Render.wave_points Math_PI Math_sin Math_cos n width
                                       height time sd petal) = true).
  { unfold Render.wave_points. cbv zeta. apply forallb_imap.
    intros i val Hv. apply list_elem_of_lookup_2, list_elem_of_In in Hv.
    assert (Hval : num_ok val = true).
    { apply in_app_or in Hv. destruct Hv as [Hv | Hv].
      - now apply petalData_finite in Hv.
      - apply in_rev in Hv. now apply petalData_finite in Hv. }
    cbn [fst snd]. ok. }
  cbn [primitive_ok forallb]. unfold path_ok.
  cbn [path_d path_fill path_stroke path_opacity]. rewrite Hpts. ok.
Qed.

(** Every mode, on a full buffer of finite bins. *)
Lemma render_ok mode :
  scene_ok (Render.render Math_PI Math_sin Math_cos Math_sqrt n width height
                          time sd mode) = true.
Proof.
  destruct mode; unfold Render.render.
  - apply bars_ok.
  - apply wave_ok.
  - apply circle_ok.
  - apply spiral_ok.
  - apply particles_ok.
  - apply spectrum_ok.
  - apply rings_ok.
  - apply dna_ok.
Qed.

End Finite.
End SceneFacts.

(** ** What a frame reads *)

Module ReadFacts.

Lemma fold_left_ext_in {A B} (f g : A -> B -> A) (l : list B) (a : A) :
  (forall x y, In y l -> f x y = g x y) -> fold_left f l a = fold_left g l a.
Proof.
  revert a. induction l as [|y l IH]; intros a H; simpl; [reflexivity|].
  rewrite (H a y) by now left. apply IH. intros x z Hz. apply H. now right.
Qed.

Lemma flat_map_ext_in {A B} (f g : A -> list B) (l : list A) :
  (forall x, In x l -> f x = g x) -> flat_map f l = flat_map g l.
Proof.
  induction l as [|x l IH]; intros H; simpl; [reflexivity|].
  rewrite (H x) by now left. f_equal. apply IH. intros z Hz. apply H. now right.
Qed.

Lemma In_seqZ (k i : Z) : In i (seqZ 0 k) -> (0 <= i < k)%Z.
Proof. intros H. apply list_elem_of_In, elem_of_seqZ in H. lia. Qed.

Section Beyond.
Variable Math_PI : Q.
Variables Math_sin Math_cos Math_sqrt : Q -> Q.
Variables width height : Z.
Variable time : Q.
Variables sd beyond : list JS.num.
Hypothesis Hlen : length sd = Smoothing.bufferLength.

Local Abbreviation n := Smoothing.bufferLength.

(** A read inside the buffer does not see what lies past its end. *)
Lemma get_app (i : Z) :
  JS.inside 512 i = true -> JS.get (sd ++ beyond) i = JS.get sd i.
Proof.
  intros Hi. apply RenderFacts.inside_spec in Hi. unfold JS.get.
  destruct (Z.ltb_spec i 0); [reflexivity|].
  rewrite lookup_app_l; [reflexivity|].
  rewrite Hlen. change Smoothing.bufferLength with 512%nat. lia.
Qed.

Lemma sumFrom_app (base k : Z) :
  (forall j, (0 <= j < k)%Z -> JS.inside 512 (base + j) = true) ->
  Render.sumFrom (sd ++ beyond) base k = Render.sumFrom sd base k.
Proof.
  intros H. unfold Render.sumFrom. apply fold_left_ext_in.
  intros x j Hj. apply In_seqZ in Hj. now rewrite get_app by auto.
Qed.

Lemma bars_app :
  Render.render_bars n width height (sd ++ beyond)
  = Render.render_bars n width height sd.
Proof.
  unfold Render.render_bars.
  assert (E : Render.bars_visualData n (sd ++ beyond)
              = Render.bars_visualData n sd).
  { unfold Render.bars_visualData. apply map_ext_in. intros i Hi.
    apply In_seqZ in Hi. rewrite sumFrom_app; [reflexivity|].
    intros j Hj.
    apply (RenderFacts.forall_range2
             (fun i j => JS.inside 512 (i * Render.bars_step n + j))
             Render.bars_barCount (Render.bars_step n)); auto. }
  now rewrite E.
Qed.

Lemma spectrum_app :
  Render.render_spectrum n width height (sd ++ beyond)
  = Render.render_spectrum n width height sd.
Proof.
  unfold Render.render_spectrum.
  assert (E : Render.spectrum_visualData n (sd ++ beyond)
              = Render.spectrum_visualData n sd).
  { unfold Render.spectrum_visualData. apply map_ext_in. intros i Hi.
    apply In_seqZ in Hi. rewrite sumFrom_app; [reflexivity|].
    intros j Hj.
    apply (RenderFacts.forall_range2
             (fun i j => JS.inside 512 (i * Render.spectrum_step n + j))
             Render.spectrum_barCount (Render.spectrum_step n)); auto. }
  now rewrite E.
Qed.

Lemma circle_app :
  Render.render_circle Math_PI Math_sin Math_cos n width height (sd ++ beyond)
  = Render.render_circle Math_PI Math_sin Math_cos n width height sd.
Proof.
  assert (Er : Render.circle_currentRadius width height (sd ++ beyond)
               = Render.circle_currentRadius width height sd).
  { unfold Render.circle_currentRadius, Render.circle_bassAvg.
    rewrite sumFrom_app; [reflexivity|].
    intros j Hj. unfold JS.inside. lia. }
  assert (Ev : Render.circle_visualData n (sd ++ beyond)
               = Render.circle_visualData n sd).
  { unfold Render.circle_visualData. apply map_ext_in. intros i Hi.
    apply In_seqZ in Hi. rewrite get_app; [reflexivity|].
    apply (RenderFacts.forall_range
             (fun i => JS.inside 512 (Render.circle_spectrumIndex n i))
             Render.circle_points); auto. }
  unfold Render.render_circle, Render.circle_core, Render.circle_bar.
  now rewrite Er, Ev.
Qed.

Lemma spiral_app :
  Render.render_spiral Math_sin Math_cos Math_sqrt n width height time
                       (sd ++ beyond)
  = Render.render_spiral Math_sin Math_cos Math_sqrt n width height time sd.
Proof.
  unfold Render.render_spiral. apply flat_map_ext_in. intros i Hi.
  apply In_seqZ in Hi.
  assert (E : JS.get_rem (sd ++ beyond) i (Render.spiral_freqRange n)
              = JS.get_rem sd i (Render.spiral_freqRange n)).
  { unfold JS.get_rem.
    change (Render.spiral_freqRange n =? 0)%Z with false. cbv iota.
    apply get_app.
    apply (RenderFacts.forall_range
             (fun i => JS.inside 512 (Z.rem i (Render.spiral_freqRange n)))
             Render.spiral_points); auto. }
  unfold Render.spiral_pair. cbv zeta. now rewrite E.
Qed.

Lemma particles_app :
  Render.render_particles Math_sin n width height time (sd ++ beyond)
  = Render.render_particles Math_sin n width height time sd.
Proof.
  unfold Render.render_particles. apply map_ext_in. intros i Hi.
  apply In_seqZ in Hi.
  unfold Render.particles_particle. cbv zeta. rewrite get_app; [reflexivity|].
  apply (RenderFacts.forall_range
           (fun i => JS.inside 512 (Render.particles_freqIndex n i))
           Render.particles_particleCount); auto.
Qed.

Lemma rings_inside i j :
  (0 <= i < Render.rings_ringCount)%Z -> (0 <= j < 20)%Z ->
  JS.inside 512 (Render.rings_freqStart n i + j) = true.
Proof.
  intros Hi Hj.
  apply (RenderFacts.forall_range2
           (fun i j => JS.inside 512 (Render.rings_freqStart n i + j))
           Render.rings_ringCount 20); auto.
Qed.

Lemma rings_app :
  Render.render_rings Math_sin n width height time (sd ++ beyond)
  = Render.render_rings Math_sin n width height time sd.
Proof.
  unfold Render.render_rings. apply map_ext_in. intros i Hi.
  apply In_seqZ in Hi.
  assert (E : Render.rings_ringEnergy n (sd ++ beyond) i
              = Render.rings_ringEnergy n sd i).
  { unfold Render.rings_ringEnergy. f_equal. f_equal.
    apply fold_left_ext_in. intros x j Hj. apply In_seqZ in Hj.
    now rewrite get_app by (apply rings_inside; assumption). }
  unfold Render.rings_ring. cbv zeta. now rewrite E.
Qed.

Lemma dna_app :
  Render.render_dna Math_PI Math_cos n width height time (sd ++ beyond)
  = Render.render_dna Math_PI Math_cos n width height time sd.
Proof.
  unfold Render.render_dna.
  assert (E : Render.dna_helixData Math_PI Math_cos n width height time
                                   (sd ++ beyond)
              = Render.dna_helixData Math_PI Math_cos n width height time sd).
  { unfold Render.dna_helixData. apply flat_map_ext_in. intros i Hi.
    apply In_seqZ in Hi. unfold Render.dna_push. cbv zeta.
    rewrite get_app; [reflexivity|].
    apply (RenderFacts.forall_range
             (fun i => JS.inside 512 (Render.dna_freqIndex n i))
             Render.dna_points); auto. }
  now rewrite E.
Qed.

Lemma petalData_app petal :
  (0 <= petal < Render.wave_numPetals)%Z ->
  Render.wave_petalData n (sd ++ beyond) petal
  = Render.wave_petalData n sd petal.
Proof.
  intros Hp. unfold Render.wave_petalData.
  assert (Hr : JS.inside 433 (Render.wave_freqStart n petal) = true).
  { apply (RenderFacts.forall_range
             (fun p => JS.inside 433 (Render.wave_freqStart n p))
             Render.wave_numPetals); auto. }
  apply RenderFacts.inside_spec in Hr.
  assert (Hl : length sd = 512%nat) by exact Hlen.
  rewrite drop_app_le by lia.
  rewrite take_app_le; [reflexivity|].
  rewrite length_drop. change Render.wave_petalSize with 80%nat. lia.
Qed.

Lemma wave_app :
  Render.render_wave Math_PI Math_sin Math_cos n width height time
                     (sd ++ beyond)
  = Render.render_wave Math_PI Math_sin Math_cos n width height time sd.
Proof.
  unfold Render.render_wave. apply map_ext_in. intros petal Hp.
  apply In_seqZ in Hp.
  unfold Render.wave_petal, Render.wave_points, Render.wave_petalEnergy.
  cbv zeta. now rewrite petalData_app.
Qed.

(** Every mode: bins placed past the end of the buffer change nothing. *)
Lemma render_app mode :
  Render.render Math_PI Math_sin Math_cos Math_sqrt n width height time
                (sd ++ beyond) mode
  = Render.render Math_PI Math_sin Math_cos Math_sqrt n width height time
                  sd mode.
Proof.
  destruct mode; unfold Render.render.
  - apply bars_app.
  - apply wave_app.
  - apply circle_app.
  - apply spiral_app.
  - apply particles_app.
  - apply spectrum_app.
  - apply rings_app.
  - apply dna_app.
Qed.

(** On finite bins the guard of the Rings mode never has to substitute. *)
Lemma ringEnergy_unguarded i :
  Forall JS.finite sd ->
  (0 <= i < Render.rings_ringCount)%Z ->
  Render.rings_ringEnergy n sd i
  = (Render.sumFrom sd (Render.rings_freqStart n i) 20 / 20 / 255)%J.
Proof.
  intros Hfin Hi. unfold Render.rings_ringEnergy, Render.sumFrom.
  f_equal. f_equal. apply fold_left_ext_in. intros x j Hj.
  apply In_seqZ in Hj. f_equal.
  pose proof (SceneFacts.get_ok sd Hlen Hfin _ (rings_inside i j Hi Hj)) as Hok.
  now destruct (JS.get sd _).
Qed.

End Beyond.
End ReadFacts.

(** C10.  With a buffer of 512 bins, no mode reads past the end of
    [smoothData], and no read gives [undefined].  A read outside the
    buffer gives [undefined], which makes every number computed from it
    [NaN], and a read past the end would see bins placed there.  So, the
    512 bins being finite numbers: the scene [render] draws in any mode
    holds no [NaN], and it is the same scene when further bins, whatever
    they hold, are appended to the buffer; the same goes for the two
    energy sums that Particles and Wave compute without drawing them.
    The guard of Rings never has to substitute: each ring's energy is the
    plain sum of its window.  The slices Wave takes are never cut short,
    and the modulus Spiral wraps its index with is 256, half the bin
    range. *)
Theorem bin_reads_stay_in_buffer :
  forall (Math_PI : Q) (Math_sin Math_cos Math_sqrt : Q -> Q)
         (width height : Z) (time : Q) (smoothData beyond : list JS.num),
    length smoothData = Smoothing.bufferLength ->
    Forall JS.finite smoothData ->
    let n := Smoothing.bufferLength in
    let render :=
      Render.render Math_PI Math_sin Math_cos Math_sqrt n width height time in
    (forall mode,
       Frames.scene_ok (render smoothData mode) = true
       /\ render (smoothData ++ beyond) mode = render smoothData mode)
    /\ (JS.finite (Render.particles_totalEnergy smoothData)
        /\ Render.particles_totalEnergy (smoothData ++ beyond)
           = Render.particles_totalEnergy smoothData)
    /\ (JS.finite (Render.wave_totalEnergy smoothData)
        /\ Render.wave_totalEnergy (smoothData ++ beyond)
           = Render.wave_totalEnergy smoothData)
    /\ (forall i, (0 <= i < Render.rings_ringCount)%Z ->
          Render.rings_ringEnergy n smoothData i
          = (Render.sumFrom smoothData (Render.rings_freqStart n i) 20
             / 20 / 255)%J)
    /\ (forall petal, (0 <= petal < Render.wave_numPetals)%Z ->
          length (Render.wave_petalData n smoothData petal)
          = Render.wave_petalSize)
    /\ Render.spiral_freqRange n = 256%Z.
Proof.
  intros PI sin cos sqrt w h t sd beyond Hlen Hfin n render.
  assert (Hsum : forall k, (k <= 512)%Z ->
            Frames.num_ok (Render.sumFrom sd 0 k) = true).
  { intros k Hk. apply SceneFacts.num_ok_sumFrom; [exact Hfin|].
    intros j Hj. rewrite Hlen.
    change (Z.of_nat Smoothing.bufferLength) with 512%Z. lia. }
  assert (Hfinite : forall a, Frames.num_ok a = true -> JS.finite a).
  { intros [a|] Ha; [exact I | discriminate]. }
  split; [|split; [|split; [|split; [|split]]]].
  - intros mode. split.
    + apply SceneFacts.render_ok; assumption.
    + apply ReadFacts.render_app, Hlen.
  - split.
    + apply Hfinite. unfold Render.particles_totalEnergy.
      repeat (apply SceneFacts.num_ok_div; [|reflexivity]).
      apply Hsum. lia.
    + unfold Render.particles_totalEnergy.
      rewrite ReadFacts.sumFrom_app; [reflexivity | exact Hlen |].
      intros j Hj. unfold JS.inside. lia.
  - split.
    + apply Hfinite. unfold Render.wave_totalEnergy.
      repeat (apply SceneFacts.num_ok_div; [|reflexivity]).
      apply Hsum. lia.
    + unfold Render.wave_totalEnergy.
      rewrite ReadFacts.sumFrom_app; [reflexivity | exact Hlen |].
      intros j Hj. unfold JS.inside. lia.
  - intros i Hi. now apply ReadFacts.ringEnergy_unguarded.
  - intros petal Hp. now apply SceneFacts.petalData_length.
  - reflexivity.
Qed.

Lemma bin_reads_stay_in_buffer_witness :
  let zero := fun _ : Q => 0 in
  let smoothData := replicate Smoothing.bufferLength (Some 255) in
  let render := Render.render 0 zero zero zero Smoothing.bufferLength
                              800 600 0 in
  Frames.scene_ok (render smoothData RINGS) = true
  /\ render (smoothData ++ [Some 1; None]) RINGS = render smoothData RINGS
  /\ Frames.scene_ok (render smoothData BARS) = true
  /\ render (smoothData ++ [Some 1; None]) BARS = render smoothData BARS.
Proof.
  intros zero smoothData render.
  assert (Hlen : length smoothData = Smoothing.bufferLength)
    by reflexivity.
  assert (Hfin : Forall JS.finite smoothData).
  { apply Forall_replicate. exact I. }
  destruct (bin_reads_stay_in_buffer 0 zero zero zero 800 600 0
              smoothData [Some 1; None] Hlen Hfin) as [H _].
  destruct (H RINGS) as [H1 H2]. destruct (H BARS) as [H3 H4].
  split; [exact H1|]. split; [exact H2|]. split; [exact H3 | exact H4].
Defined.

Module FrameFacts.
Import Scheduler.

#[local] Opaque Smoothing.smooth Render.render Smoothing.initSmoothing.

Section WithPlatform.

Variable Math_PI : Q.
Variables Math_sin Math_cos Math_sqrt : Q -> Q.
Variables width height : Z.

Local Abbreviation renderFrame :=
  (renderFrame Math_PI Math_sin Math_cos Math_sqrt width height).
Local Abbreviation displayRefresh :=
  (displayRefresh Math_PI Math_sin Math_cos Math_sqrt width height).
Local Abbreviation setProps :=
  (setProps Math_PI Math_sin Math_cos Math_sqrt width height).
Local Abbreviation run :=
  (run Math_PI Math_sin Math_cos Math_sqrt width height).
Local Abbreviation reachable :=
  (reachable Math_PI Math_sin Math_cos Math_sqrt width height).
Local Abbreviation drawn :=
  (Frames.drawn Math_PI Math_sin Math_cos Math_sqrt width height).

Lemma draws_guard p :
  Frames.draws p = true ->
  negb (isPlaying p) && noIdleAnimation (mode p) = false.
Proof. unfold Frames.draws. now destruct (negb (isPlaying p) && _). Qed.

(** A drawn frame, in full. *)
Lemma renderFrame_drawn p inp v nx :
  Frames.draws p = true ->
  renderFrame p inp (v, mkHost [] nx)
  = (mkVisualizer (Some nx)
       (fst (Smoothing.smooth (isPlaying p)
               (Smoothing.smoothingFactor (mode p)) Smoothing.bufferLength
               (dataArray inp) (prevDataRef v)))
       (drawn p inp (prevDataRef v)) (hasCleanup v) (S (ticks v)),
     mkHost [(nx, p)] (S nx)).
Proof.
  intros Hd. unfold Scheduler.renderFrame. rewrite (draws_guard p Hd).
  unfold Frames.drawn, Frames.smoothDataOf.
  destruct (Smoothing.smooth _ _ _ _ _) as [prev sd]. reflexivity.
Qed.

(** The surface after [renderFrame]: untouched, or the drawn scene. *)
Lemma renderFrame_svg p inp v h :
  svg (fst (renderFrame p inp (v, h))) = svg v
  \/ svg (fst (renderFrame p inp (v, h))) = drawn p inp (prevDataRef v).
Proof.
  unfold Scheduler.renderFrame.
  destruct (negb (isPlaying p) && noIdleAnimation (mode p)).
  - left. destruct (negb (isPlaying p)); reflexivity.
  - right. unfold Frames.drawn, Frames.smoothDataOf.
    destruct (Smoothing.smooth _ _ _ _ _) as [prev sd]. reflexivity.
Qed.

(** A frame drawn from a full buffer within [[0, 255]] has no [NaN]. *)
Lemma drawn_ok p inp prev :
  wellFormed inp -> length prev = Smoothing.bufferLength ->
  Forall (JS.within 0 255) prev ->
  Frames.scene_ok (drawn p inp prev) = true.
Proof.
  intros Hin Hl Hw. unfold Frames.drawn, Frames.smoothDataOf.
  destruct (SmoothingFacts.smooth_spec (isPlaying p)
              (Smoothing.smoothingFactor (mode p)) Smoothing.bufferLength
              (dataArray inp) prev Hl) as (_ & L2 & E & _).
  apply SceneFacts.render_ok; [exact L2|].
  rewrite E.
  assert (Hs : Forall (JS.within 0 255)
                 (fst (Smoothing.smooth (isPlaying p)
                         (Smoothing.smoothingFactor (mode p))
                         Smoothing.bufferLength (dataArray inp) prev))).
  { apply SmoothingFacts.smooth_within; [|exact Hin|exact Hl|exact Hw].
    destruct (SmoothingFacts.smoothingFactor_unit (mode p)). lra. }
  eapply Forall_impl; [exact Hs|]. intros [x|]; simpl; auto.
Qed.

Lemma reachable_scene_ok st :
  reachable st -> Frames.scene_ok (svg (fst st)) = true.
Proof.
  induction 1 as [|p inp st Hin Hst IH|inp st Hin Hst IH].
  - reflexivity.
  - pose proof (SchedulerFacts.queued_once_reachable _ _ _ _ _ _ _ Hst) as Hq.
    destruct (SchedulerFacts.cleanup_clears st Hq) as (nx & Hn & Hcl).
    destruct (SchedulerFacts.reachable_smoothed_in_range _ _ _ _ _ _ _ Hst)
      as [Hw _].
    unfold Scheduler.setProps. rewrite Hcl. unfold Scheduler.effect.
    destruct (negb (analyser p)); [exact IH|].
    match goal with
    | |- context [Scheduler.renderFrame _ _ _ _ _ _ p inp (?v, ?h)] =>
        destruct (renderFrame_svg p inp v h) as [-> | ->]
    end; [reflexivity|].
    apply drawn_ok; [exact Hin| |].
    + apply SmoothingFacts.initSmoothing_length.
    + now apply SmoothingFacts.initSmoothing_within.
  - pose proof (SchedulerFacts.queued_once_reachable _ _ _ _ _ _ _ Hst) as Hq.
    destruct (SchedulerFacts.reachable_smoothed_in_range _ _ _ _ _ _ _ Hst)
      as [Hw Hl].
    destruct st as [v [pnd nx]].
    destruct Hq as [Hn [Hp | (id & p & Hp & _)]]; simpl in * |-; subst pnd.
    + rewrite SchedulerFacts.displayRefresh_none. exact IH.
    + rewrite SchedulerFacts.displayRefresh_one.
      destruct Hl as [Hl | [_ Hl]]; [|discriminate].
      destruct (renderFrame_svg p inp v (mkHost [] nx)) as [-> | ->];
        [exact IH|].
      now apply drawn_ok.
Qed.

Lemma queued_draws_renderFrame p inp v nx :
  Frames.queued_draws (renderFrame p inp (v, mkHost [] nx)).
Proof.
  destruct (negb (isPlaying p) && noIdleAnimation (mode p)) eqn:Hg.
  - rewrite SchedulerFacts.renderFrame_stops by exact Hg.
    intros c [].
  - destruct (SchedulerFacts.renderFrame_draws Math_PI Math_sin Math_cos
                Math_sqrt width height p inp v nx Hg) as (prev & scene & ->).
    intros c [<- | []]. unfold Frames.draws. cbn [snd].
    now rewrite Hg.
Qed.

Lemma queued_draws_reachable st : reachable st -> Frames.queued_draws st.
Proof.
  induction 1 as [|p inp st _ Hst IH|inp st _ Hst IH].
  - intros c [].
  - pose proof (SchedulerFacts.queued_once_reachable _ _ _ _ _ _ _ Hst) as Hq.
    destruct (SchedulerFacts.cleanup_clears st Hq) as (nx & Hn & Hcl).
    unfold Scheduler.setProps. rewrite Hcl. unfold Scheduler.effect.
    destruct (negb (analyser p)); [intros c []|].
    apply queued_draws_renderFrame.
  - pose proof (SchedulerFacts.queued_once_reachable _ _ _ _ _ _ _ Hst) as Hq.
    destruct st as [v [pnd nx]].
    destruct Hq as [Hn [Hp | (id & p & Hp & _)]]; simpl in * |-; subst pnd.
    + rewrite SchedulerFacts.displayRefresh_none. intros c [].
    + rewrite SchedulerFacts.displayRefresh_one.
      apply queued_draws_renderFrame.
Qed.

(** The buffer a drawn frame leaves is the data it drew. *)
Lemma smooth_fst_snd p inp prev :
  length prev = Smoothing.bufferLength ->
  fst (Smoothing.smooth (isPlaying p) (Smoothing.smoothingFactor (mode p))
         Smoothing.bufferLength (dataArray inp) prev)
  = Frames.smoothDataOf p inp prev.
Proof.
  intros Hl. unfold Frames.smoothDataOf.
  destruct (SmoothingFacts.smooth_spec (isPlaying p)
              (Smoothing.smoothingFactor (mode p)) Smoothing.bufferLength
              (dataArray inp) prev Hl) as (_ & _ & E & _).
  now rewrite E.
Qed.

End WithPlatform.
End FrameFacts.

(** ** A bin under a steady input *)

Module SteadyFacts.
Import Smoothing.

Lemma smoothFrames_cons isPlaying alpha n d frames prev :
  smoothFrames isPlaying alpha n (d :: frames) prev
  = smoothFrames isPlaying alpha n frames (fst (smooth isPlaying alpha n d prev)).
Proof. reflexivity. Qed.

(** While the analyser keeps reporting [b] in bin [i], the distance of the
    smoothed bin to [b] is multiplied by [1 - alpha] per frame. *)
Lemma smoothFrames_steady alpha n (d : list byte) (k : nat) :
  forall prev i (x : Q) (b : byte),
    length prev = n -> prev !! i = Some (Some x) -> d !! i = Some b ->
    exists y,
      smoothFrames true alpha n (replicate k d) prev !! i = Some (Some y)
      /\ y - inject_Z (Z.of_N (Byte.to_N b))
         == (x - inject_Z (Z.of_N (Byte.to_N b))) * (1 - alpha) ^ Z.of_nat k.
Proof.
  induction k as [|k IH]; intros prev i x b Hn Hi Hb.
  - exists x. split; [exact Hi|]. simpl. ring.
  - change (replicate (S k) d) with (d :: replicate k d).
    rewrite smoothFrames_cons.
    destruct (SmoothingFacts.smooth_spec true alpha n d prev Hn)
      as (L1 & _ & _ & Hl).
    pose (t := inject_Z (Z.of_N (Byte.to_N b))).
    destruct (IH (fst (smooth true alpha n d prev)) i
                 (x + (t - x) * alpha) b L1) as (y & Hy & Ey).
    { rewrite Hl. unfold JS.num in *. rewrite Hi. simpl. f_equal.
      unfold ema. rewrite SmoothingFacts.byte_get_of_nat, Hb. reflexivity. }
    { exact Hb. }
    exists y. split; [exact Hy|].
    subst t. rewrite Ey, Decay.pow_S. ring.
Qed.

End SteadyFacts.

(** ** Where the bars are *)

Module BarFacts.

(** The bands of [d3.scaleBand] tile the range: band [i] of [n] starts at
    or after the left end and ends at or before the right end. *)
Lemma scaleBand_inside (n : Z) (W p : Q) (i : Z) :
  (1 <= n)%Z -> 0 <= W -> 0 <= p <= 1 -> (0 <= i < n)%Z ->
  0 <= D3.scaleBand n W p i
  /\ 0 <= D3.bandwidth n W p
  /\ D3.scaleBand n W p i + D3.bandwidth n W p <= W.
Proof.
  intros Hn HW Hp Hi.
  assert (Hn1 : 1 <= inject_Z n).
  { change 1 with (inject_Z 1). rewrite <- Zle_Qle. lia. }
  assert (Hi0 : 0 <= inject_Z i).
  { change 0 with (inject_Z 0). rewrite <- Zle_Qle. lia. }
  assert (Hi1 : inject_Z i + 1 <= inject_Z n).
  { change 1 with (inject_Z 1). rewrite <- inject_Z_plus, <- Zle_Qle. lia. }
  assert (Hm : Qmax 1 (inject_Z n - p + p * 2) == inject_Z n + p).
  { rewrite Q.max_r by lra. ring. }
  set (s := D3.bandStep n W p).
  assert (Hs : W == s * (inject_Z n + p)).
  { subst s. unfold D3.bandStep. rewrite Hm. field. lra. }
  assert (Hs0 : 0 <= s).
  { subst s. unfold D3.bandStep. rewrite Hm.
    apply Qle_shift_div_l; lra. }
  unfold D3.scaleBand, D3.bandwidth, D3.bandStart. fold s.
  clearbody s.
  assert (E : 0 + (W - 0 - s * (inject_Z n - p)) * 0.5 == s * p).
  { rewrite Hs. ring. }
  rewrite E.
  split; [nra|]. split; [nra|]. rewrite Hs. nra.
Qed.

(** The linear scale of [[0, 255]] onto [[r0, r1]] stays between the ends. *)
Lemma scaleLinear255_value r0 r1 (q : Q) :
  D3.scaleLinear255 r0 r1 (Some q) = Some (r0 * (1 - q / 255) + r1 * (q / 255)).
Proof. reflexivity. Qed.

Section Bars.
Variables width height : Z.
Variable sd : list JS.num.
Hypothesis Hlen : length sd = Smoothing.bufferLength.
Hypothesis Hrange : Forall (JS.within 0 255) sd.
Hypothesis Hw : (0 <= width)%Z.
Hypothesis Hh : (0 <= height)%Z.

Local Abbreviation n := Smoothing.bufferLength.

Lemma get_within (i : Z) :
  (0 <= i < 512)%Z -> exists x, JS.get sd i = Some x /\ 0 <= x <= 255.
Proof.
  intros Hi. unfold JS.get.
  destruct (Z.ltb_spec i 0); [lia|].
  destruct (lookup_lt_is_Some_2 sd (Z.to_nat i)) as [v Hv].
  { unfold JS.num in *. rewrite Hlen. change Smoothing.bufferLength with 512%nat. lia. }
  rewrite Hv. pose proof (Forall_lookup_1 _ _ _ _ Hrange Hv) as Hx.
  destruct v as [x|]; [|contradiction]. eauto.
Qed.

Lemma sumFrom_within (base : Z) (m : nat) :
  (0 <= base)%Z -> (base + Z.of_nat m <= 512)%Z ->
  exists s, Render.sumFrom sd base (Z.of_nat m) = Some s
            /\ 0 <= s <= 255 * inject_Z (Z.of_nat m).
Proof.
  intros Hb. unfold Render.sumFrom. induction m as [|m IH]; intros Hm.
  - exists 0. split; [reflexivity|].
    change (inject_Z (Z.of_nat 0)) with 0. lra.
  - rewrite seqZ_S, fold_left_app. cbn [fold_left].
    destruct IH as (s & -> & Hs); [lia|].
    destruct (get_within (base + (0 + Z.of_nat m))) as (x & -> & Hx); [lia|].
    exists (s + x). split; [reflexivity|].
    rewrite Nat2Z.inj_succ. unfold Z.succ. rewrite inject_Z_plus.
    change (inject_Z 1) with 1. lra.
Qed.

(** The average of [step] bins from [i * step]. *)
Lemma average_within (i step : Z) :
  (0 <= i)%Z -> (1 <= step)%Z -> (i * step + step <= 512)%Z ->
  exists v, (Render.sumFrom sd (i * step) step / inject_Z step)%J = Some v
            /\ 0 <= v <= 255.
Proof.
  intros Hi Hs Hle.
  destruct (sumFrom_within (i * step) (Z.to_nat step)) as (s & E & Hb);
    [lia | lia |].
  rewrite Z2Nat.id in E, Hb by lia. rewrite E.
  assert (H1 : 1 <= inject_Z step).
  { change 1 with (inject_Z 1). rewrite <- Zle_Qle. lia. }
  unfold JS.div, JS.fin.
  destruct (Qeq_bool (inject_Z step) 0) eqn:Ez.
  { apply Qeq_bool_iff in Ez. lra. }
  exists (s / inject_Z step). split; [reflexivity|].
  split.
  - apply Qle_shift_div_l; lra.
  - apply Qle_shift_div_r; lra.
Qed.

Lemma max_value (a b : Q) :
  JS.max (Some a) (Some b) = Some (if Qle_bool a b then b else a).
Proof. reflexivity. Qed.

(** One bar, from a value within [[0, 255]]: [r1] is where the scale puts
    255, between the top and the bottom edge. *)
Lemma bar_inside cls (k : Z) (p r1 minH : Q) (i : nat) (v : Q) fill rx op :
  (1 <= k)%Z -> (Z.of_nat i < k)%Z -> 0 <= p <= 1 ->
  0 <= r1 <= inject_Z height -> 0 <= v <= 255 ->
  Frames.bar_in_viewport (inject_Z width) (inject_Z height) r1 minH
    (Rect cls (JS.or0 (D3.scaleBand k (inject_Z width) p (Z.of_nat i)))
          (D3.scaleLinear255 (inject_Z height) r1 (Some v))
          (D3.bandwidth k (inject_Z width) p)
          (JS.max minH
             (JS.sub (inject_Z height)
                     (D3.scaleLinear255 (inject_Z height) r1 (Some v))))
          fill rx op).
Proof.
  intros Hk Hi Hp Hr Hv.
  assert (HW : 0 <= inject_Z width).
  { change 0 with (inject_Z 0). rewrite <- Zle_Qle. exact Hw. }
  destruct (scaleBand_inside k (inject_Z width) p (Z.of_nat i) Hk HW Hp)
    as (X0 & B0 & XB); [lia|].
  rewrite scaleLinear255_value.
  unfold JS.fin. cbn [JS.or0 JS.sub JS.lift2]. rewrite max_value.
  cbn [Frames.bar_in_viewport].
  set (H := inject_Z height) in *.
  set (y := H * (1 - v / 255) + r1 * (v / 255)).
  assert (Hy : r1 <= y <= H).
  { subst y. assert (0 <= v / 255 <= 1).
    { split; [apply Qle_shift_div_l | apply Qle_shift_div_r]; lra. }
    nra. }
  split; [exact X0|]. split; [exact B0|]. split; [exact XB|].
  split; [exact Hy|].
  destruct (Qle_bool minH (H - y)) eqn:E.
  - apply Qle_bool_iff in E.
    split; [exact E|]. split; [lra|]. right. ring.
  - assert (E' : ~ minH <= H - y).
    { intros C. apply Qle_bool_iff in C. congruence. }
    apply Qnot_le_lt in E'.
    split; [lra|]. split; [lra|]. left. reflexivity.
Qed.

Lemma bars_inside :
  Forall (Frames.bar_in_viewport (inject_Z width) (inject_Z height)
            (inject_Z height * 0.1) 4)
         (Render.render_bars n width height sd).
Proof.
  unfold Render.render_bars. cbv zeta.
  apply List.Forall_forall. intros prim Hin. apply in_map_iff in Hin.
  destruct Hin as ([i [val idx]] & <- & Hin).
  apply list_elem_of_In, list_elem_of_lookup in Hin.
  destruct Hin as [k Hk]. rewrite list_lookup_imap in Hk.
  destruct (Render.bars_visualData n sd !! k) as [d|] eqn:Ed; [|discriminate].
  destruct d as [val0 idx0]. injection Hk as <- <- <-.
  pose proof (lookup_lt_Some _ _ _ Ed) as Hlt.
  assert (Hlen64 : length (Render.bars_visualData n sd) = 64%nat).
  { unfold Render.bars_visualData. rewrite length_map, length_seqZ.
    reflexivity. }
  unfold Render.bars_visualData in Ed.
  rewrite list_lookup_fmap in Ed.
  destruct (seqZ 0 Render.bars_barCount !! k) as [j|] eqn:Ej; [|discriminate].
  injection Ed as <- <-.
  apply lookup_seqZ in Ej. destruct Ej as [-> Hj].
  destruct (average_within (0 + Z.of_nat k) (Render.bars_step n))
    as (v & Ev & Hv).
  { lia. }
  { vm_compute. discriminate. }
  { change (Render.bars_step n) with 5%Z.
    change Render.bars_barCount with 64%Z in Hj. lia. }
  rewrite Ev, Hlen64.
  assert (HH : 0 <= inject_Z height).
  { change 0 with (inject_Z 0). rewrite <- Zle_Qle. exact Hh. }
  rewrite Hlen64 in Hlt.
  apply bar_inside; first [lia | lra].
Qed.

Lemma spectrum_inside :
  Forall (Frames.bar_in_viewport (inject_Z width) (inject_Z height) 0 2)
         (Render.render_spectrum n width height sd).
Proof.
  unfold Render.render_spectrum. cbv zeta.
  apply Forall_cons. split; [exact I|].
  apply List.Forall_forall. intros prim Hin. apply in_map_iff in Hin.
  destruct Hin as ([i [val idx]] & <- & Hin).
  apply list_elem_of_In, list_elem_of_lookup in Hin.
  destruct Hin as [k Hk]. rewrite list_lookup_imap in Hk.
  destruct (Render.spectrum_visualData n sd !! k) as [d|] eqn:Ed;
    [|discriminate].
  destruct d as [val0 idx0]. injection Hk as <- <- <-.
  pose proof (lookup_lt_Some _ _ _ Ed) as Hlt.
  assert (Hlen96 : length (Render.spectrum_visualData n sd) = 96%nat).
  { unfold Render.spectrum_visualData. rewrite length_map, length_seqZ.
    reflexivity. }
  unfold Render.spectrum_visualData in Ed.
  rewrite list_lookup_fmap in Ed.
  destruct (seqZ 0 Render.spectrum_barCount !! k) as [j|] eqn:Ej;
    [|discriminate].
  injection Ed as <- <-.
  apply lookup_seqZ in Ej. destruct Ej as [-> Hj].
  destruct (average_within (0 + Z.of_nat k) (Render.spectrum_step n))
    as (v & Ev & Hv).
  { lia. }
  { vm_compute. discriminate. }
  { change (Render.spectrum_step n) with 4%Z.
    change Render.spectrum_barCount with 96%Z in Hj. lia. }
  rewrite Ev, Hlen96.
  assert (HH : 0 <= inject_Z height).
  { change 0 with (inject_Z 0). rewrite <- Zle_Qle. exact Hh. }
  rewrite Hlen96 in Hlt.
  apply bar_inside; first [lia | lra].
Qed.

End Bars.
End BarFacts.
(** X1.  In every state the component can reach, at most one animation
    frame callback is queued, and it is the one whose handle
    [animationRef] holds, queued by an effect that returned its cleanup
    and by a frame that was drawn. *)
Theorem at_most_one_frame_is_queued :
  forall (Math_PI : Q) (Math_sin Math_cos Math_sqrt : Q -> Q)
         (width height : Z) (st : Scheduler.Visualizer * Scheduler.Host),
    Scheduler.reachable Math_PI Math_sin Math_cos Math_sqrt width height st ->
    (length (Scheduler.pending (snd st)) <= 1)%nat
    /\ forall id p,
         In (id, p) (Scheduler.pending (snd st)) ->
         Scheduler.animationRef (fst st) = Some id
         /\ Scheduler.hasCleanup (fst st) = true
         /\ Frames.draws p = true.
Proof.
  intros PI sin cos sqrt w h st Hst.
  pose proof (SchedulerFacts.queued_once_reachable _ _ _ _ _ _ _ Hst) as Hq.
  pose proof (FrameFacts.queued_draws_reachable _ _ _ _ _ _ _ Hst) as Hd.
  destruct Hq as [_ [Hp | (id0 & p0 & Hp & Hr & Hc & _)]].
  - rewrite Hp. split; [simpl; lia|]. intros id p [].
  - split; [rewrite Hp; simpl; lia|].
    intros id p Hin. specialize (Hd (id, p) Hin).
    rewrite Hp in Hin. destruct Hin as [E | []].
    injection E as <- <-. auto.
Qed.

Lemma at_most_one_frame_is_queued_witness :
  let zero := fun _ : Q => 0 in
  let inp := Scheduler.mkFrameInput (replicate 512 x00) 0 in
  let st :=
    Scheduler.displayRefresh 0 zero zero zero 800 600 inp
      (Scheduler.setProps 0 zero zero zero 800 600
         (Scheduler.mkProps true true WAVE) inp
         (Scheduler.setProps 0 zero zero zero 800 600
            (Scheduler.mkProps true true BARS) inp Scheduler.mount)) in
  (length (Scheduler.pending (snd st)) <= 1)%nat.
Proof.
  intros zero inp st.
  refine (proj1 (at_most_one_frame_is_queued 0 zero zero zero 800 600 st _)).
  apply Scheduler.reach_refresh; [reflexivity|].
  apply Scheduler.reach_props; [reflexivity|].
  apply Scheduler.reach_props; [reflexivity|].
  apply Scheduler.reach_mount.
Defined.

(** X2.  After a change of props with an analyser present and props for
    which frames are drawn (playing, or one of the Wave, Circle and Spiral
    modes), the surface holds exactly the scene of the new mode, drawn
    from the smoothing buffer the effect starts with; the buffer holds the
    data that was drawn; and exactly one callback is queued, for the new
    props.  Nothing of the previous mode's scene is left. *)
Theorem new_props_draw_the_new_mode :
  forall (Math_PI : Q) (Math_sin Math_cos Math_sqrt : Q -> Q)
         (width height : Z) (st : Scheduler.Visualizer * Scheduler.Host)
         (p : Scheduler.Props) (inp : Scheduler.FrameInput),
    Scheduler.reachable Math_PI Math_sin Math_cos Math_sqrt width height st ->
    Scheduler.analyser p = true ->
    Frames.draws p = true ->
    let st1 := Scheduler.setProps Math_PI Math_sin Math_cos Math_sqrt
                                  width height p inp st in
    let prev0 := Smoothing.initSmoothing (Scheduler.prevDataRef (fst st))
                                         Smoothing.bufferLength in
    Scheduler.svg (fst st1)
    = Frames.drawn Math_PI Math_sin Math_cos Math_sqrt width height p inp prev0
    /\ Scheduler.prevDataRef (fst st1) = Frames.smoothDataOf p inp prev0
    /\ Scheduler.ticks (fst st1) = S (Scheduler.ticks (fst st))
    /\ exists id,
         Scheduler.pending (snd st1) = [(id, p)]
         /\ Scheduler.animationRef (fst st1) = Some id.
Proof.
  intros PI sin cos sqrt w h st p inp Hst Ha Hd st1 prev0.
  pose proof (SchedulerFacts.queued_once_reachable _ _ _ _ _ _ _ Hst) as Hq.
  destruct (SchedulerFacts.cleanup_clears st Hq) as (nx & Hn & Hcl).
  assert (E : st1 = Scheduler.renderFrame PI sin cos sqrt w h p inp
                (Scheduler.mkVisualizer (Scheduler.animationRef (fst st))
                   prev0 [] true (Scheduler.ticks (fst st)),
                 Scheduler.mkHost [] nx)).
  { subst st1. unfold Scheduler.setProps. rewrite Hcl.
    unfold Scheduler.effect. cbn [fst]. rewrite Ha. reflexivity. }
  rewrite FrameFacts.renderFrame_drawn in E by exact Hd.
  rewrite E. cbn [fst snd Scheduler.svg Scheduler.prevDataRef Scheduler.ticks
                  Scheduler.pending Scheduler.animationRef].
  split; [reflexivity|]. split.
  - apply FrameFacts.smooth_fst_snd. apply SmoothingFacts.initSmoothing_length.
  - split; [reflexivity|]. exists nx. split; reflexivity.
Qed.

Lemma new_props_draw_the_new_mode_witness :
  let zero := fun _ : Q => 0 in
  let inp := Scheduler.mkFrameInput (replicate 512 x00) 0 in
  let p := Scheduler.mkProps true false SPIRAL in
  let st1 := Scheduler.setProps 0 zero zero zero 800 600 p inp
               Scheduler.mount in
  Scheduler.svg (fst st1)
  = Frames.drawn 0 zero zero zero 800 600 p inp
      (Smoothing.initSmoothing [] Smoothing.bufferLength).
Proof.
  intros zero inp p st1.
  exact (proj1 (new_props_draw_the_new_mode 0 zero zero zero 800 600
                  Scheduler.mount p inp (Scheduler.reach_mount _ _ _ _ _ _)
                  eq_refl eq_refl)).
Defined.

(** X3.  A display refresh that finds a callback queued redraws the whole
    surface with the props that callback was queued for, from the buffer
    the previous frame left, stores the data it drew, counts one more
    frame and queues the next callback under the next handle. *)
Theorem refresh_redraws_from_the_buffer :
  forall (Math_PI : Q) (Math_sin Math_cos Math_sqrt : Q -> Q)
         (width height : Z) (st : Scheduler.Visualizer * Scheduler.Host)
         (id : nat) (p : Scheduler.Props) (inp : Scheduler.FrameInput),
    Scheduler.reachable Math_PI Math_sin Math_cos Math_sqrt width height st ->
    In (id, p) (Scheduler.pending (snd st)) ->
    let st1 := Scheduler.displayRefresh Math_PI Math_sin Math_cos Math_sqrt
                                        width height inp st in
    let prev := Scheduler.prevDataRef (fst st) in
    Scheduler.svg (fst st1)
    = Frames.drawn Math_PI Math_sin Math_cos Math_sqrt width height p inp prev
    /\ Scheduler.prevDataRef (fst st1) = Frames.smoothDataOf p inp prev
    /\ Scheduler.ticks (fst st1) = S (Scheduler.ticks (fst st))
    /\ Scheduler.pending (snd st1) = [(Scheduler.nextHandle (snd st), p)]
    /\ Scheduler.animationRef (fst st1) = Some (Scheduler.nextHandle (snd st)).
Proof.
  intros PI sin cos sqrt w h st id p inp Hst Hin st1 prev.
  pose proof (SchedulerFacts.queued_once_reachable _ _ _ _ _ _ _ Hst) as Hq.
  pose proof (FrameFacts.queued_draws_reachable _ _ _ _ _ _ _ Hst _ Hin) as Hd.
  destruct (SchedulerFacts.reachable_smoothed_in_range _ _ _ _ _ _ _ Hst)
    as [_ Hl].
  destruct st as [v [pnd nx]]. cbn [fst snd Scheduler.pending] in *.
  destruct Hq as [_ [Hp | (id0 & p0 & Hp & _)]];
    cbn [fst snd Scheduler.pending] in Hp; subst pnd; [destruct Hin|].
  destruct Hin as [E | []]. injection E as -> ->.
  destruct Hl as [Hl | [_ Hl]]; [|discriminate].
  subst st1.
  rewrite SchedulerFacts.displayRefresh_one.
  rewrite FrameFacts.renderFrame_drawn by exact Hd.
  cbn [fst snd Scheduler.svg Scheduler.prevDataRef Scheduler.ticks
       Scheduler.pending Scheduler.animationRef Scheduler.nextHandle].
  split; [reflexivity|]. split; [|auto].
  now apply FrameFacts.smooth_fst_snd.
Qed.

Lemma refresh_redraws_from_the_buffer_witness :
  let zero := fun _ : Q => 0 in
  let inp := Scheduler.mkFrameInput (replicate 512 x00) 0 in
  let p := Scheduler.mkProps true true BARS in
  let st := Scheduler.setProps 0 zero zero zero 800 600 p inp
              Scheduler.mount in
  Scheduler.pending
    (snd (Scheduler.displayRefresh 0 zero zero zero 800 600 inp st))
  = [(Scheduler.nextHandle (snd st), p)].
Proof.
  intros zero inp p st.
  refine (proj1 (proj2 (proj2 (proj2
    (refresh_redraws_from_the_buffer 0 zero zero zero 800 600 st 1%nat p inp
       _ _))))).
  - apply Scheduler.reach_props; [reflexivity|]. apply Scheduler.reach_mount.
  - vm_compute. left. reflexivity.
Defined.

(** X4.  Whatever the component has been through, the surface never holds
    a number that is not finite: every coordinate, size, radius, opacity,
    stroke width, path point and colour parameter of every element is a
    finite number (exact arithmetic; the platform's sine, cosine and
    square root are total on the arguments they get). *)
Theorem surface_numbers_are_finite :
  forall (Math_PI : Q) (Math_sin Math_cos Math_sqrt : Q -> Q)
         (width height : Z) (st : Scheduler.Visualizer * Scheduler.Host),
    Scheduler.reachable Math_PI Math_sin Math_cos Math_sqrt width height st ->
    Frames.scene_ok (Scheduler.svg (fst st)) = true.
Proof.
  intros PI sin cos sqrt w h st Hst.
  now apply (FrameFacts.reachable_scene_ok PI sin cos sqrt w h).
Qed.

Lemma surface_numbers_are_finite_witness :
  let zero := fun _ : Q => 0 in
  let inp := Scheduler.mkFrameInput (replicate 512 xff) 0 in
  Frames.scene_ok
    (Scheduler.svg
       (fst (Scheduler.setProps 0 zero zero zero 800 600
               (Scheduler.mkProps true true DNA) inp Scheduler.mount)))
  = true.
Proof.
  intros zero inp.
  apply (surface_numbers_are_finite 0 zero zero zero 800 600).
  apply Scheduler.reach_props; [reflexivity|]. apply Scheduler.reach_mount.
Defined.

(** X5.  Without an analyser the effect returns at once: after such a
    change of props nothing is queued, the surface, the smoothing buffer
    and the frame count are what they were, and display refreshes change
    nothing. *)
Theorem no_analyser_no_frames :
  forall (Math_PI : Q) (Math_sin Math_cos Math_sqrt : Q -> Q)
         (width height : Z) (st : Scheduler.Visualizer * Scheduler.Host)
         (p : Scheduler.Props) (inp : Scheduler.FrameInput)
         (inps : list Scheduler.FrameInput),
    Scheduler.reachable Math_PI Math_sin Math_cos Math_sqrt width height st ->
    Scheduler.analyser p = false ->
    let st1 := Scheduler.setProps Math_PI Math_sin Math_cos Math_sqrt
                                  width height p inp st in
    Scheduler.pending (snd st1) = []
    /\ Scheduler.svg (fst st1) = Scheduler.svg (fst st)
    /\ Scheduler.prevDataRef (fst st1) = Scheduler.prevDataRef (fst st)
    /\ Scheduler.ticks (fst st1) = Scheduler.ticks (fst st)
    /\ Scheduler.run Math_PI Math_sin Math_cos Math_sqrt width height inps st1
       = st1.
Proof.
  intros PI sin cos sqrt w h st p inp inps Hst Ha st1.
  pose proof (SchedulerFacts.queued_once_reachable _ _ _ _ _ _ _ Hst) as Hq.
  destruct (SchedulerFacts.cleanup_clears st Hq) as (nx & Hn & Hcl).
  subst st1. unfold Scheduler.setProps. rewrite Hcl.
  unfold Scheduler.effect. rewrite Ha. cbn [negb fst snd Scheduler.pending
    Scheduler.svg Scheduler.prevDataRef Scheduler.ticks].
  repeat split. apply SchedulerFacts.run_idle.
Qed.

Lemma no_analyser_no_frames_witness :
  let zero := fun _ : Q => 0 in
  let inp := Scheduler.mkFrameInput (replicate 512 x00) 0 in
  Scheduler.pending
    (snd (Scheduler.setProps 0 zero zero zero 800 600
            (Scheduler.mkProps false true BARS) inp Scheduler.mount))
  = [].
Proof.
  intros zero inp.
  exact (proj1 (no_analyser_no_frames 0 zero zero zero 800 600
                  Scheduler.mount (Scheduler.mkProps false true BARS) inp []
                  (Scheduler.reach_mount _ _ _ _ _ _) eq_refl)).
Defined.

(** X6.  While the player is playing and the analyser keeps reporting the
    same value [b] in a bin, the smoothed bin moves toward [b] without
    overshooting: after [k] frames its distance to [b] is the initial
    distance times [(1 - alpha)^k], [alpha] being the smoothing factor of
    the mode, so it is never farther from [b] than it started. *)
Theorem steady_input_is_approached :
  forall (mode : VisualizerMode) (d : list byte) (prevData : list JS.num)
         (k i : nat) (x : Q) (b : byte),
    length prevData = Smoothing.bufferLength ->
    prevData !! i = Some (Some x) ->
    d !! i = Some b ->
    let alpha := Smoothing.smoothingFactor mode in
    let target := inject_Z (Z.of_N (Byte.to_N b)) in
    exists y,
      Smoothing.smoothFrames true alpha Smoothing.bufferLength
                             (replicate k d) prevData !! i = Some (Some y)
      /\ y - target == (x - target) * (1 - alpha) ^ Z.of_nat k
      /\ Qabs (y - target) <= Qabs (x - target).
Proof.
  intros mode d prev k i x b Hl Hi Hb alpha target.
  destruct (SteadyFacts.smoothFrames_steady alpha Smoothing.bufferLength d k
              prev i x b Hl Hi Hb) as (y & Hy & Ey).
  exists y. split; [exact Hy|]. split; [exact Ey|].
  fold target in Ey. rewrite Ey, Qabs_Qmult.
  assert (Hr : 0 <= 1 - alpha <= 1).
  { subst alpha. destruct (SmoothingFacts.smoothingFactor_unit mode). lra. }
  pose proof (Decay.pow_unit _ k Hr) as [H0 H1].
  rewrite (Qabs_pos _ H0).
  pose proof (Qabs_nonneg (x - target)). nra.
Qed.

Lemma steady_input_is_approached_witness :
  exists y,
    Smoothing.smoothFrames true (Smoothing.smoothingFactor BARS)
      Smoothing.bufferLength (replicate 3 (replicate 512 xff))
      (replicate 512 (Some 0)) !! 7%nat = Some (Some y)
    /\ Qabs (y - 255) <= Qabs (0 - 255).
Proof.
  destruct (steady_input_is_approached BARS (replicate 512 xff)
              (replicate 512 (Some 0)) 3 7 0 xff eq_refl eq_refl eq_refl)
    as (y & Hy & _ & Ha).
  exists y. split; [exact Hy | exact Ha].
Defined.

(** X7.  In the Bars and the Spectrum mode, for a viewport of non-negative
    width and height and a 512-bin buffer within [[0, 255]], every bar
    lies between the left and the right edge of the viewport; its top is
    inside the viewport, in Bars never higher than a tenth of the height
    from the top; it is at least 4 pixels tall in Bars and 2 in Spectrum;
    and it ends at the bottom edge, unless that minimum height makes it
    reach below. *)
Theorem bars_stay_between_the_edges :
  forall (Math_PI : Q) (Math_sin Math_cos Math_sqrt : Q -> Q)
         (width height : Z) (time : Q) (smoothData : list JS.num),
    (0 <= width)%Z -> (0 <= height)%Z ->
    length smoothData = Smoothing.bufferLength ->
    Forall (JS.within 0 255) smoothData ->
    Forall (Frames.bar_in_viewport (inject_Z width) (inject_Z height)
              (inject_Z height * 0.1) 4)
           (Render.render Math_PI Math_sin Math_cos Math_sqrt
              Smoothing.bufferLength width height time smoothData BARS)
    /\ Forall (Frames.bar_in_viewport (inject_Z width) (inject_Z height) 0 2)
              (Render.render Math_PI Math_sin Math_cos Math_sqrt
                 Smoothing.bufferLength width height time smoothData
                 SPECTRUM).
Proof.
  intros PI sin cos sqrt w h time sd Hw Hh Hlen Hr. split.
  - now apply BarFacts.bars_inside.
  - now apply BarFacts.spectrum_inside.
Qed.

Lemma bars_stay_between_the_edges_witness :
  let zero := fun _ : Q => 0 in
  Forall (Frames.bar_in_viewport (inject_Z 800) (inject_Z 600)
            (inject_Z 600 * 0.1) 4)
         (Render.render 0 zero zero zero Smoothing.bufferLength 800 600 0
            (replicate 512 (Some 128)) BARS).
Proof.
  intros zero.
  apply (proj1 (bars_stay_between_the_edges 0 zero zero zero 800 600 0
                  (replicate 512 (Some 128)) ltac:(lia) ltac:(lia) eq_refl
                  ltac:(apply Forall_replicate; cbn; lra))).
Defined.

(* ================================================================== *)
(** * More of the audio state: sessions, presets, the equalizer *)
(* ================================================================== *)

(** ** The audio state over the events of a session *)

Module SessionFacts.
Import WebAudio App Session.

Lemma session_run_snoc events e s : run (events ++ [e]) s = handle (run events s) e.
Proof. unfold run. now rewrite fold_left_app. Qed.

Lemma nodes_length s :
  List.map bq_frequency (eqNodesRef s) = EQ_FREQUENCIES ->
  length (eqNodesRef s) = 10%nat.
Proof.
  intros E. apply (f_equal (@length Q)) in E.
  now rewrite length_map in E.
Qed.

Lemma insert_same_field {A B} (f : A -> B) (l : list A) (i : nat) (x y : A) :
  l !! i = Some x -> f y = f x -> List.map f (<[i := y]> l) = List.map f l.
Proof.
  intros Hx Hf. change (f <$> <[i:=y]> l = f <$> l).
  rewrite list_fmap_insert, Hf.
  apply list_insert_id. now rewrite list_lookup_fmap, Hx.
Qed.

Lemma handleEQChange_frequencies index value s :
  List.map bq_frequency (eqNodesRef (fst (handleEQChange index value s)))
  = List.map bq_frequency (eqNodesRef s)
  /\ List.map bq_Q (eqNodesRef (fst (handleEQChange index value s)))
     = List.map bq_Q (eqNodesRef s)
  /\ List.map frequency (eqBands (fst (handleEQChange index value s)))
     = List.map frequency (eqBands s).
Proof.
  unfold handleEQChange, eqBandsUpdater.
  assert (Hn : forall l : list BiquadFilterNode,
             forall node, at_index l index = Some node ->
                          l !! Z.to_nat index = Some node).
  { intros l node. unfold at_index. destruct (index <? 0)%Z; [discriminate|auto]. }
  assert (Hb : forall l : list EQBand,
             forall b, at_index l index = Some b ->
                       l !! Z.to_nat index = Some b).
  { intros l b. unfold at_index. destruct (index <? 0)%Z; [discriminate|auto]. }
  destruct (at_index (eqBands s) index) as [b|] eqn:Eb;
    destruct (at_index (eqNodesRef s) index) as [node|] eqn:En;
    cbn [fst eqNodesRef eqBands];
    repeat split;
    try reflexivity;
    try (eapply insert_same_field; [eapply Hn; eassumption | reflexivity]);
    try (eapply insert_same_field; [eapply Hb; eassumption | reflexivity]).
Qed.

Lemma wired_handle s e : wired s -> wired (handle s e).
Proof.
  unfold wired. intros Hw.
  destruct e as [st0| |index value| |presetBands]; cbn [handle].
  - (* initAudioContext *)
    unfold initAudioContext.
    destruct (audioContextRef s) as [a|] eqn:Ea.
    + destruct (ctxState a); cbn [audioContextRef]; [now rewrite Ea|].
      cbn [invertGain analyser_fftSize graph eqNodesRef karaokeMode]. exact Hw.
    + destruct Hw as [_ Hk]. rewrite Hk. cbv zeta.
      cbn [audioContextRef invertGain analyser_fftSize graph eqNodesRef
           karaokeMode].
      split; [reflexivity|]. split; [reflexivity|].
      split; reflexivity.
  - (* toggleKaraokeMode *)
    unfold toggleKaraokeMode.
    destruct (audioContextRef s) as [a|] eqn:Ea; [|now rewrite Ea].
    destruct Hw as (Hi & Hfr & HQ & Hg).
    cbv zeta.
    cbn [audioContextRef invertGain analyser_fftSize graph eqNodesRef
         karaokeMode].
    split; [exact Hi|]. split; [exact Hfr|].
    split; [exact HQ|].
    rewrite (nodes_length s Hfr), Hg.
    destruct (karaokeMode s); reflexivity.
  - (* handleEQChange *)
    destruct (handleEQChange_frequencies index value s) as (Ef & EQ & _).
    assert (Ectx : audioContextRef (fst (handleEQChange index value s))
                   = audioContextRef s).
    { unfold handleEQChange. destruct (eqBandsUpdater _ _ _); reflexivity. }
    assert (Ekm : karaokeMode (fst (handleEQChange index value s))
                  = karaokeMode s).
    { unfold handleEQChange. destruct (eqBandsUpdater _ _ _); reflexivity. }
    rewrite Ectx, Ekm.
    destruct (audioContextRef s) as [a|].
    + destruct Hw as (Hi & Hfr & HQ & Hg).
      rewrite Ef, EQ. repeat split; auto.
    + destruct Hw as [Hn Hk]. split; [|exact Hk].
      apply (f_equal (@length _)) in Ef. rewrite !length_map, Hn in Ef.
      now apply nil_length_inv.
  - (* resetEQ *)
    unfold resetEQ. cbn [audioContextRef eqNodesRef karaokeMode].
    destruct (audioContextRef s) as [a|].
    + destruct Hw as (Hi & Hfr & HQ & Hg).
      rewrite !map_map. cbn [bq_frequency bq_Q].
      repeat split; auto.
    + destruct Hw as [-> Hk]. auto.
  - exact Hw.
Qed.

Lemma wired_run events saved : wired (run events (initialState saved)).
Proof.
  induction events as [|e events IH] using rev_ind.
  - split; reflexivity.
  - rewrite session_run_snoc. now apply wired_handle.
Qed.


Lemma heard_flat_mono biquad
    (b0 b1 b2 b3 b4 b5 b6 b7 b8 b9 : BiquadFilterNode) ig (m : Signal) :
  WebAudio.heard biquad [b0; b1; b2; b3; b4; b5; b6; b7; b8; b9] ig [m]
                 (connectFlat 10 []) (length (connectFlat 10 []) + 1)
  = [eqChain biquad [b0; b1; b2; b3; b4; b5; b6; b7; b8; b9] m].
Proof.
  lazy -[Qplus Qmult Qeq Qopp Qdiv Qinv Qminus]. reflexivity.
Qed.



(** ** [resetEQ] and [handleEQChange] *)

Lemma at_index_lookup {A} (l : list A) (index : Z) (x : A) :
  at_index l index = Some x -> l !! Z.to_nat index = Some x.
Proof. unfold at_index. destruct (index <? 0)%Z; [discriminate|auto]. Qed.

Lemma resetEQ_handleEQChange index value s :
  resetEQ (fst (handleEQChange index value s)) = resetEQ s.
Proof.
  unfold resetEQ, handleEQChange, eqBandsUpdater.
  destruct (at_index (eqBands s) index) as [b|] eqn:Eb;
    destruct (at_index (eqNodesRef s) index) as [node|] eqn:En;
    cbn [fst audioContextRef eqNodesRef eqBands karaokeMode];
    f_equal;
    try reflexivity;
    try (eapply (insert_same_field
                   (fun n => mkBiquad (bq_frequency n) (bq_Q n) 0));
         [eapply at_index_lookup; eassumption | reflexivity]);
    try (eapply (insert_same_field (fun b => mkEQBand (frequency b) 0));
         [eapply at_index_lookup; eassumption | reflexivity]).
Qed.

Lemma resetEQ_idem s : resetEQ (resetEQ s) = resetEQ s.
Proof.
  unfold resetEQ. cbn [audioContextRef eqNodesRef eqBands karaokeMode].
  now rewrite !map_map.
Qed.

(** One list updated at two different places, each new value made from
    the old one at its place. *)
Lemma update_commute {A} (l : list A) (i j : Z) (f g : A -> A) :
  i <> j ->
  let upd (h : A -> A) (k : Z) (l : list A) :=
    match at_index l k with
    | Some x => <[Z.to_nat k := h x]> l
    | None => l
    end in
  upd f i (upd g j l) = upd g j (upd f i l).
Proof.
  intros Hne upd. subst upd. cbv beta.
  destruct (at_index l j) as [y|] eqn:Ej;
    destruct (at_index l i) as [x|] eqn:Ei.
  - assert (Hi : (0 <= i)%Z /\ (0 <= j)%Z).
    { unfold at_index in Ei, Ej.
      destruct (Z.ltb_spec i 0); [discriminate|].
      destruct (Z.ltb_spec j 0); [discriminate|]. lia. }
    rewrite AppFacts.at_index_insert_ne by lia. rewrite Ei.
    rewrite AppFacts.at_index_insert_ne by lia. rewrite Ej.
    apply list_insert_insert_ne. lia.
  - assert (Hj : (0 <= j)%Z).
    { unfold at_index in Ej. destruct (Z.ltb_spec j 0); [discriminate|lia]. }
    rewrite AppFacts.at_index_insert_ne by lia. rewrite Ei, Ej. reflexivity.
  - assert (Hi : (0 <= i)%Z).
    { unfold at_index in Ei. destruct (Z.ltb_spec i 0); [discriminate|lia]. }
    rewrite AppFacts.at_index_insert_ne by lia. rewrite Ej.
    reflexivity.
  - rewrite ?Ej, ?Ei. reflexivity.
Qed.

Lemma update_twice {A} (l : list A) (i : Z) (f g : A -> A) :
  (forall x, f (g x) = f x) ->
  let upd (h : A -> A) (k : Z) (l : list A) :=
    match at_index l k with
    | Some x => <[Z.to_nat k := h x]> l
    | None => l
    end in
  upd f i (upd g i l) = upd f i l.
Proof.
  intros Hfg upd. subst upd. cbv beta.
  destruct (at_index l i) as [x|] eqn:Ei; [|now rewrite Ei].
  assert (Hi : (0 <= i < Z.of_nat (length l))%Z).
  { unfold at_index in Ei. destruct (Z.ltb_spec i 0); [discriminate|].
    apply lookup_lt_Some in Ei. lia. }
  rewrite AppFacts.at_index_insert by exact Hi.
  rewrite list_insert_insert_eq. now rewrite Hfg.
Qed.

(** [handleEQChange] as two such updates. *)
Lemma handleEQChange_fst index value s :
  fst (handleEQChange index value s)
  = mkState (audioContextRef s)
      (match at_index (eqNodesRef s) index with
       | Some x => <[Z.to_nat index :=
                       mkBiquad (bq_frequency x) (bq_Q x) value]> (eqNodesRef s)
       | None => eqNodesRef s
       end)
      (match at_index (eqBands s) index with
       | Some x => <[Z.to_nat index := mkEQBand (frequency x) value]> (eqBands s)
       | None => eqBands s
       end)
      (karaokeMode s).
Proof.
  unfold handleEQChange, eqBandsUpdater.
  destruct (at_index (eqBands s) index); reflexivity.
Qed.

Lemma handleEQChange_commute i j v w s :
  i <> j ->
  fst (handleEQChange i v (fst (handleEQChange j w s)))
  = fst (handleEQChange j w (fst (handleEQChange i v s))).
Proof.
  intros Hne. rewrite !handleEQChange_fst.
  cbn [audioContextRef eqNodesRef eqBands karaokeMode].
  f_equal.
  - apply (update_commute (eqNodesRef s) i j
             (fun x => mkBiquad (bq_frequency x) (bq_Q x) v)
             (fun x => mkBiquad (bq_frequency x) (bq_Q x) w) Hne).
  - apply (update_commute (eqBands s) i j
             (fun x => mkEQBand (frequency x) v)
             (fun x => mkEQBand (frequency x) w) Hne).
Qed.

Lemma handleEQChange_last_wins i v w s :
  fst (handleEQChange i v (fst (handleEQChange i w s)))
  = fst (handleEQChange i v s).
Proof.
  rewrite !handleEQChange_fst.
  cbn [audioContextRef eqNodesRef eqBands karaokeMode].
  f_equal.
  - apply (update_twice (eqNodesRef s) i
             (fun x => mkBiquad (bq_frequency x) (bq_Q x) v)
             (fun x => mkBiquad (bq_frequency x) (bq_Q x) w)).
    reflexivity.
  - apply (update_twice (eqBands s) i
             (fun x => mkEQBand (frequency x) v)
             (fun x => mkEQBand (frequency x) w)).
    reflexivity.
Qed.

(** ** Bands and filters in step *)



End SessionFacts.

(** X8.  Whatever the saved settings and whatever sequence of
    [initAudioContext], [toggleKaraokeMode], [handleEQChange], [resetEQ]
    and preset loads has happened: before the audio context exists there
    are no filters and karaoke mode is off; once it exists, the inverting
    gain is [-1], there are ten filters, which were given the frequencies
    of [EQ_FREQUENCIES] and a Q of 1.4, and the connections are exactly
    those of the karaoke topology when the karaoke flag is on and those of
    the flat topology when it is off.  The graph is never rebuilt by a
    later [initAudioContext]. *)
Theorem session_keeps_the_graph_wired :
  forall (saved : option (list EQBand)) (events : list Session.Event),
    Session.wired (Session.run events (App.initialState saved)).
Proof. intros saved events. apply SessionFacts.wired_run. Qed.



(** X10.  [resetEQ] sets the gain of every stored band and of every live
    filter to 0 and keeps their number and their frequencies; doing it
    twice is doing it once; and it wipes out any earlier [handleEQChange],
    whatever index and value that was called with. *)
Theorem resetEQ_flattens_everything :
  forall (s : App.State) (index : Z) (value : Q),
    List.map gain (App.eqBands (App.resetEQ s))
    = List.map (fun _ => 0) (App.eqBands s)
    /\ List.map WebAudio.bq_gain (App.eqNodesRef (App.resetEQ s))
       = List.map (fun _ => 0) (App.eqNodesRef s)
    /\ List.map frequency (App.eqBands (App.resetEQ s))
       = List.map frequency (App.eqBands s)
    /\ List.map WebAudio.bq_frequency (App.eqNodesRef (App.resetEQ s))
       = List.map WebAudio.bq_frequency (App.eqNodesRef s)
    /\ App.resetEQ (App.resetEQ s) = App.resetEQ s
    /\ App.resetEQ (fst (App.handleEQChange index value s)) = App.resetEQ s.
Proof.
  intros s index value. unfold App.resetEQ at 1 2 3 4.
  cbn [App.eqBands App.eqNodesRef]. rewrite !map_map.
  repeat split.
  - apply SessionFacts.resetEQ_idem.
  - apply SessionFacts.resetEQ_handleEQChange.
Qed.

(** X11.  Two [handleEQChange] calls on different bands can be made in
    either order, and of two calls on the same band the later one alone
    counts; this holds for every index, in range or not, and for both the
    stored bands and the live filters. *)
Theorem handleEQChange_calls_are_independent :
  forall (s : App.State) (i j : Z) (v w : Q),
    (i <> j ->
       fst (App.handleEQChange i v (fst (App.handleEQChange j w s)))
       = fst (App.handleEQChange j w (fst (App.handleEQChange i v s))))
    /\ fst (App.handleEQChange i v (fst (App.handleEQChange i w s)))
       = fst (App.handleEQChange i v s).
Proof.
  intros s i j v w. split.
  - apply SessionFacts.handleEQChange_commute.
  - apply SessionFacts.handleEQChange_last_wins.
Qed.

Lemma handleEQChange_calls_are_independent_witness :
  let s := App.initAudioContext App.running (App.initialState None) in
  fst (App.handleEQChange 2 3 (fst (App.handleEQChange 7 (-4) s)))
  = fst (App.handleEQChange 7 (-4) (fst (App.handleEQChange 2 3 s))).
Proof.
  intros s.
  apply (proj1 (handleEQChange_calls_are_independent s 2 7 3 (-4))).
  lia.
Defined.



(** X13.  Settings that are stored or loaded are shown but not applied.
    The filters [initAudioContext] creates all have gain 0 whatever the
    saved settings are; and loading a built-in preset replaces the stored
    bands by the preset's and leaves every live filter, and so what is
    heard, as it was.  After loading a preset with a gain other than 0
    onto a freshly initialized player the stored bands and the filters are
    therefore out of step. *)
Theorem stored_settings_do_not_reach_the_filters :
  forall (biquad : WebAudio.BiquadFilterNode -> WebAudio.Signal -> WebAudio.Signal)
         (src : list WebAudio.Signal) (st0 : App.ContextState)
         (saved : option (list EQBand)) (s : App.State)
         (name : string) (presetBands : list EQBand),
    In (name, presetBands) Session.getBuiltInPresets ->
    (forall i, (0 <= i <= 9)%Z ->
       App.filterGain (App.initAudioContext st0 (App.initialState saved)) i
       = Some 0)
    /\ App.eqBands (Session.onLoadPreset presetBands s) = presetBands
    /\ App.eqNodesRef (Session.onLoadPreset presetBands s) = App.eqNodesRef s
    /\ App.heard biquad src (Session.onLoadPreset presetBands s)
       = App.heard biquad src s
    /\ (name <> "Flat"%string ->
        ~ Session.in_sync
            (Session.onLoadPreset presetBands
               (App.initAudioContext st0 (App.initialState saved)))).
Proof.
  intros biquad src st0 saved s name presetBands Hin.
  split.
  { intros i Hi.
    assert (Hc : (i = 0 \/ i = 1 \/ i = 2 \/ i = 3 \/ i = 4 \/ i = 5
                  \/ i = 6 \/ i = 7 \/ i = 8 \/ i = 9)%Z) by lia.
    decompose [or] Hc; subst; reflexivity. }
  split; [reflexivity|]. split; [reflexivity|]. split; [reflexivity|].
  intros Hname [_ Hg].
  cbn in Hin. decompose [or] Hin; clear Hin;
    try match goal with H : (_, _) = (_, _) |- _ => injection H as <- <- end;
    try contradiction; try (now apply Hname);
    vm_compute in Hg; discriminate.
Qed.

Lemma stored_settings_do_not_reach_the_filters_witness :
  let bass := [mkEQBand 60 8; mkEQBand 170 6; mkEQBand 310 3;
               mkEQBand 600 0; mkEQBand 1000 0; mkEQBand 3000 0;
               mkEQBand 6000 0; mkEQBand 12000 0; mkEQBand 14000 0;
               mkEQBand 16000 0] in
  let s := App.initAudioContext App.running (App.initialState None) in
  App.bandGain (Session.onLoadPreset bass s) 0 = Some 8
  /\ App.filterGain (Session.onLoadPreset bass s) 0 = Some 0
  /\ ~ Session.in_sync (Session.onLoadPreset bass s).
Proof.
  intros bass s.
  destruct (stored_settings_do_not_reach_the_filters
              (fun _ x => x) [] App.running None s "Bass Boost" bass)
    as (H0 & Hb & Hn & _ & Hs).
  - simpl. right. left. reflexivity.
  - split; [reflexivity|]. split; [apply (H0 0%Z); lia|].
    apply Hs. discriminate.
Defined.

(** X14.  Every built-in preset is a setting the panel can show: it has
    one band for each of [EQ_FREQUENCIES], in that order, and each of its
    gains is a position of the range input (between -12 and 12, a whole
    number of half steps); the preset called Flat is the default setting
    of a new player, and the names are distinct. *)
Theorem built_in_presets_fit_the_panel :
  Forall (fun p =>
            List.map frequency (snd p) = App.EQ_FREQUENCIES
            /\ forallb (fun b => Session.on_slider (gain b)) (snd p) = true)
         Session.getBuiltInPresets
  /\ List.map fst Session.getBuiltInPresets
     = ["Flat"; "Bass Boost"; "Treble Boost"; "Vocal Boost"; "Classical";
        "Rock"]%string
  /\ Session.getBuiltInPresets !! 0%nat
     = Some ("Flat"%string, App.eqBands (App.initialState None)).
Proof.
  split; [|split; reflexivity].
  repeat constructor.
Qed.

(* ================================================================== *)
(** * The library, the playlists, the markers and the controls *)
(* ================================================================== *)

(** ** The library and the track navigation *)

Module LibraryFacts.
Import Library.

(** Lists of distinct literals. *)
Ltac distinct :=
  repeat (apply NoDup_cons_2;
          [rewrite ?not_elem_of_cons; repeat split;
           try discriminate; apply not_elem_of_nil|]);
  apply NoDup_nil_2.

Lemma at_index_In {A} (a : list A) (i : Z) (x : A) :
  App.at_index a i = Some x -> In x a.
Proof.
  unfold App.at_index. destruct (i <? 0)%Z; [discriminate|].
  intros H. apply list_elem_of_In. eapply list_elem_of_lookup_2; eauto.
Qed.

Lemma at_index_nat {A} (a : list A) (k : nat) :
  App.at_index a (Z.of_nat k) = a !! k.
Proof.
  unfold App.at_index. destruct (Z.ltb_spec (Z.of_nat k) 0); [lia|].
  now rewrite Nat2Z.id.
Qed.

Lemma hasId_true id t : hasId id t = true <-> track_id t = id.
Proof. unfold hasId. apply String.eqb_eq. Qed.

Lemma hasId_false id t : hasId id t = false <-> track_id t <> id.
Proof. unfold hasId. apply String.eqb_neq. Qed.

(** [findIndex]: -1 when nothing satisfies [f], otherwise the first index
    that does. *)
Lemma findIndexFrom_spec {A} (f : A -> bool) (a : list A) (i : Z) :
  (findIndexFrom f a i = (-1)%Z /\ (0 <= i -> forall x, In x a -> f x = false)%Z)
  \/ exists k x,
       findIndexFrom f a i = (i + Z.of_nat k)%Z
       /\ a !! k = Some x /\ f x = true
       /\ forall j y, (j < k)%nat -> a !! j = Some y -> f y = false.
Proof.
  revert i. induction a as [|x a IH]; intros i; cbn [findIndexFrom].
  - left. split; [reflexivity|]. intros _ x [].
  - destruct (f x) eqn:Ex.
    + right. exists 0%nat, x. rewrite Z.add_0_r.
      repeat split; auto. intros j y Hj. lia.
    + destruct (IH (i + 1)%Z) as [[E Hall] | (k & y & E & Hk & Hy & Hlt)].
      * left. split; [exact E|]. intros Hi z [<- | Hz]; [exact Ex|].
        apply Hall; [lia | exact Hz].
      * right. exists (S k), y. rewrite E.
        split; [lia|]. split; [exact Hk|]. split; [exact Hy|].
        intros [|j] z Hj Hz; cbn in Hz.
        -- now injection Hz as <-.
        -- apply (Hlt j); [lia | exact Hz].
Qed.

Lemma findIndex_range {A} (f : A -> bool) (a : list A) :
  (-1 <= findIndex f a < Z.of_nat (length a))%Z.
Proof.
  unfold findIndex.
  destruct (findIndexFrom_spec f a 0) as [[-> _] | (k & x & -> & Hk & _)].
  - lia.
  - apply lookup_lt_Some in Hk. lia.
Qed.

(** With distinct ids, the index of a track is where it is. *)
Lemma findIndex_at (tracks : list Track) (i : nat) (c : Track) :
  NoDup (List.map track_id tracks) -> tracks !! i = Some c ->
  findIndex (hasId (track_id c)) tracks = Z.of_nat i.
Proof.
  intros Hnd Hi. unfold findIndex.
  destruct (findIndexFrom_spec (hasId (track_id c)) tracks 0)
    as [[_ Hall] | (k & x & -> & Hk & Hx & _)].
  - exfalso. specialize (Hall ltac:(lia) c).
    rewrite (proj2 (hasId_true _ _) eq_refl) in Hall.
    assert (In c tracks).
    { apply list_elem_of_In. eapply list_elem_of_lookup_2; eauto. }
    specialize (Hall H). discriminate.
  - apply hasId_true in Hx.
    assert (k = i); [|lia].
    eapply (NoDup_lookup (List.map track_id tracks)); [exact Hnd| |].
    + change (List.map track_id tracks) with (track_id <$> tracks).
      rewrite list_lookup_fmap, Hk. reflexivity.
    + change (List.map track_id tracks) with (track_id <$> tracks).
      rewrite list_lookup_fmap, Hi. cbn. now rewrite Hx.
Qed.

(** Two tracks of a library with distinct ids that share an id are one. *)
Lemma same_id_same_track (tracks : list Track) (i j : nat) (a b : Track) :
  NoDup (List.map track_id tracks) ->
  tracks !! i = Some a -> tracks !! j = Some b ->
  track_id a = track_id b -> i = j /\ a = b.
Proof.
  intros Hnd Hi Hj E.
  assert (i = j).
  { eapply (NoDup_lookup (List.map track_id tracks)); [exact Hnd| |];
      change (List.map track_id tracks) with (track_id <$> tracks);
      rewrite list_lookup_fmap.
    - rewrite Hi. reflexivity.
    - rewrite Hj. cbn. now rewrite E. }
  subst j. split; [reflexivity|]. congruence.
Qed.

(** ** [getNextTrack] *)

Lemma getNextTrack_In tracks cur sh rm r t :
  getNextTrack tracks cur sh rm r = Some t -> In t tracks.
Proof.
  unfold getNextTrack.
  destruct (Nat.eqb (length tracks) 0); [discriminate|].
  destruct cur as [c|]; [|apply at_index_In].
  destruct sh.
  - intros H. apply at_index_In in H. apply filter_In in H. tauto.
  - destruct (_ <? _)%Z; [apply at_index_In|].
    destruct rm; try discriminate. apply at_index_In.
Qed.

Lemma getNextTrack_shuffle tracks c rm r t :
  getNextTrack tracks (Some c) true rm r = Some t ->
  track_id t <> track_id c.
Proof.
  unfold getNextTrack.
  destruct (Nat.eqb (length tracks) 0); [discriminate|].
  intros H. apply at_index_In in H. apply filter_In in H.
  destruct H as [_ H]. apply negb_true_iff in H. now apply hasId_false in H.
Qed.

(** Shuffle finds a track whenever there is another one. *)
Lemma getNextTrack_shuffle_some tracks c rm r t' :
  In t' tracks -> track_id t' <> track_id c -> 0 <= r -> r < 1 ->
  exists t, getNextTrack tracks (Some c) true rm r = Some t.
Proof.
  intros Hin Hne Hr0 Hr1. unfold getNextTrack.
  destruct (Nat.eqb_spec (length tracks) 0) as [E|_].
  { destruct tracks; [destruct Hin | discriminate]. }
  set (remaining := List.filter _ tracks).
  assert (Hrem : In t' remaining).
  { apply filter_In. split; [exact Hin|].
    apply negb_true_iff. now apply hasId_false. }
  assert (Hlen : (0 < length remaining)%nat).
  { destruct remaining; [destruct Hrem | cbn; lia]. }
  set (n := inject_Z (Z.of_nat (length remaining))).
  assert (Hn : 1 <= n).
  { subst n. change 1 with (inject_Z 1). rewrite <- Zle_Qle. lia. }
  assert (Hidx : (0 <= JS.floor (r * n) < Z.of_nat (length remaining))%Z).
  { unfold JS.floor. split.
    - change 0%Z with (Qfloor 0). apply Qfloor_resp_le. nra.
    - rewrite Zlt_Qlt. eapply Qle_lt_trans; [apply Qfloor_le|].
      fold n. nra. }
  destruct (AppFacts.at_index_lt remaining _ Hidx) as (t & Ht & _).
  exists t. exact Ht.
Qed.

(** With shuffle on and no other track, there is no next track. *)
Lemma getNextTrack_shuffle_alone tracks c rm r :
  (forall t, In t tracks -> track_id t = track_id c) ->
  getNextTrack tracks (Some c) true rm r = None.
Proof.
  intros Hall. unfold getNextTrack.
  destruct (Nat.eqb (length tracks) 0); [reflexivity|].
  assert (E : List.filter (fun t => negb (hasId (track_id c) t)) tracks = []).
  { induction tracks as [|x l IH]; [reflexivity|]. cbn.
    rewrite (proj2 (hasId_true _ _) (Hall x (or_introl eq_refl))). cbn.
    apply IH. intros t Ht. apply Hall. now right. }
  rewrite E. cbn. unfold App.at_index.
  destruct (_ <? 0)%Z; reflexivity.
Qed.

(** In order, with distinct ids: the track after the current one. *)
Lemma getNextTrack_seq tracks (i : nat) c rm r :
  NoDup (List.map track_id tracks) -> tracks !! i = Some c ->
  getNextTrack tracks (Some c) false rm r
  = if (S i <? length tracks)%nat then tracks !! S i
    else match rm with all => tracks !! 0%nat | _ => None end.
Proof.
  intros Hnd Hi. unfold getNextTrack.
  pose proof (lookup_lt_Some _ _ _ Hi) as Hlt.
  destruct (Nat.eqb_spec (length tracks) 0); [lia|].
  rewrite (findIndex_at tracks i c Hnd Hi).
  destruct (Nat.ltb_spec (S i) (length tracks));
    destruct (Z.ltb_spec (Z.of_nat i + 1) (Z.of_nat (length tracks))); try lia.
  - replace (Z.of_nat i + 1)%Z with (Z.of_nat (S i)) by lia.
    apply at_index_nat.
  - destruct rm; reflexivity.
Qed.

(** In order, with distinct ids: the track before the current one. *)
Lemma getPrevTrack_seq tracks (i : nat) c rm ct :
  NoDup (List.map track_id tracks) -> tracks !! i = Some c -> ct <= 3 ->
  getPrevTrack tracks (Some c) rm ct
  = (match i with
     | S j => tracks !! j
     | O => match rm with
            | all => tracks !! (length tracks - 1)%nat
            | _ => tracks !! 0%nat
            end
     end, false).
Proof.
  intros Hnd Hi Hct. unfold getPrevTrack.
  pose proof (lookup_lt_Some _ _ _ Hi) as Hlt.
  destruct (Nat.eqb_spec (length tracks) 0); [lia|].
  rewrite (proj2 (Qle_bool_iff ct 3) Hct). cbn [negb].
  rewrite (findIndex_at tracks i c Hnd Hi).
  destruct i as [|j].
  - cbn [Z.of_nat]. destruct (Z.leb_spec 0 (0 - 1)); [lia|].
    destruct rm; f_equal; try apply (at_index_nat tracks 0).
    replace (Z.of_nat (length tracks) - 1)%Z
      with (Z.of_nat (length tracks - 1)) by lia.
    apply at_index_nat.
  - destruct (Z.leb_spec 0 (Z.of_nat (S j) - 1)); [|lia].
    f_equal. replace (Z.of_nat (S j) - 1)%Z with (Z.of_nat j) by lia.
    apply at_index_nat.
Qed.

Lemma playTrack_fresh t c : track_id t <> track_id c -> playTrack t (Some c) = Some t.
Proof.
  intros Hne. unfold playTrack.
  rewrite (proj2 (hasId_false (track_id t) c)); [reflexivity|]. congruence.
Qed.

(** With distinct ids, playing a track of the library where the current
    one is of the library too leaves that track current. *)
Lemma playTrack_library tracks (i j : nat) c t :
  NoDup (List.map track_id tracks) ->
  tracks !! i = Some c -> tracks !! j = Some t ->
  playTrack t (Some c) = Some t.
Proof.
  intros Hnd Hi Hj. unfold playTrack.
  destruct (hasId (track_id t) c) eqn:E; [|reflexivity].
  apply hasId_true in E.
  destruct (same_id_same_track tracks i j c t Hnd Hi Hj E) as [_ ->].
  reflexivity.
Qed.

(** [playNext] in order with repeat all: one step round the list. *)
Lemma playNext_all tracks (i : nat) c r :
  NoDup (List.map track_id tracks) -> tracks !! i = Some c ->
  playNext tracks false all r (Some c)
  = tracks !! (S i mod length tracks)%nat.
Proof.
  intros Hnd Hi. unfold playNext.
  pose proof (lookup_lt_Some _ _ _ Hi) as Hlt.
  rewrite (getNextTrack_seq tracks i c all r Hnd Hi).
  destruct (Nat.ltb_spec (S i) (length tracks)).
  - rewrite Nat.mod_small by lia.
    destruct (lookup_lt_is_Some_2 tracks (S i)) as [t Ht]; [lia|].
    rewrite Ht. apply (playTrack_library tracks i (S i)); auto.
  - replace (S i) with (length tracks) by lia.
    rewrite Nat.Div0.mod_same.
    destruct (lookup_lt_is_Some_2 tracks 0) as [t Ht]; [lia|].
    rewrite Ht. apply (playTrack_library tracks i 0); auto.
Qed.

Lemma playNext_iter tracks (i : nat) c r (k : nat) :
  NoDup (List.map track_id tracks) -> tracks !! i = Some c ->
  Nat.iter k (playNext tracks false all r) (Some c)
  = tracks !! ((i + k) mod length tracks)%nat.
Proof.
  intros Hnd Hi. pose proof (lookup_lt_Some _ _ _ Hi) as Hlt.
  induction k as [|k IH].
  - rewrite Nat.add_0_r, Nat.mod_small by lia. now cbn.
  - rewrite Nat.iter_succ, IH.
    assert (Hm : ((i + k) mod length tracks < length tracks)%nat).
    { apply Nat.mod_upper_bound. lia. }
    destruct (lookup_lt_is_Some_2 tracks _ Hm) as [t Ht].
    rewrite Ht, (playNext_all tracks _ t r Hnd Ht).
    f_equal.
    replace (S ((i + k) mod length tracks))
      with (((i + k) mod length tracks) + 1)%nat by lia.
    rewrite Nat.Div0.add_mod_idemp_l. f_equal. lia.
Qed.

(** [playNext] in order without repeat all: one step, stopping at the
    last track. *)
Lemma playNext_stop tracks (i : nat) c rm r :
  rm <> all ->
  NoDup (List.map track_id tracks) -> tracks !! i = Some c ->
  playNext tracks false rm r (Some c)
  = tracks !! Nat.min (S i) (length tracks - 1).
Proof.
  intros Hrm Hnd Hi. unfold playNext.
  pose proof (lookup_lt_Some _ _ _ Hi) as Hlt.
  rewrite (getNextTrack_seq tracks i c rm r Hnd Hi).
  destruct (Nat.ltb_spec (S i) (length tracks)).
  - rewrite Nat.min_l by lia.
    destruct (lookup_lt_is_Some_2 tracks (S i)) as [t Ht]; [lia|].
    rewrite Ht. apply (playTrack_library tracks i (S i)); auto.
  - rewrite Nat.min_r by lia. replace (length tracks - 1)%nat with i by lia.
    destruct rm; try contradiction; now rewrite Hi.
Qed.

(** [playPrev] with repeat all, within the first three seconds. *)
Lemma playPrev_all tracks (i : nat) c ct :
  NoDup (List.map track_id tracks) -> tracks !! i = Some c -> ct <= 3 ->
  playPrev tracks all ct (Some c)
  = tracks !! ((i + (length tracks - 1)) mod length tracks)%nat.
Proof.
  intros Hnd Hi Hct. unfold playPrev.
  pose proof (lookup_lt_Some _ _ _ Hi) as Hlt.
  rewrite (getPrevTrack_seq tracks i c all ct Hnd Hi Hct). cbn [fst].
  assert (Hstep : forall j t, tracks !! j = Some t ->
            (if hasId (track_id c) t then Some c else playTrack t (Some c))
            = Some t).
  { intros j t Hj. destruct (hasId (track_id c) t) eqn:E.
    - apply hasId_true in E.
      destruct (same_id_same_track tracks j i t c Hnd Hj Hi E) as [_ ->].
      reflexivity.
    - apply (playTrack_library tracks i j); auto. }
  destruct i as [|j].
  - rewrite Nat.add_0_l, Nat.mod_small by lia.
    destruct (lookup_lt_is_Some_2 tracks (length tracks - 1)) as [t Ht];
      [lia|].
    rewrite Ht. eapply Hstep; eauto.
  - replace (S j + (length tracks - 1))%nat with (j + 1 * length tracks)%nat
      by lia.
    rewrite Nat.Div0.mod_add, Nat.mod_small by lia.
    destruct (lookup_lt_is_Some_2 tracks j) as [t Ht]; [lia|].
    rewrite Ht. eapply Hstep; eauto.
Qed.

(** ** [getPrevTrack] never comes back empty-handed *)

Lemma getPrevTrack_some tracks cur rm ct :
  tracks <> [] ->
  exists t, fst (getPrevTrack tracks cur rm ct) = Some t
            /\ (In t tracks \/ cur = Some t).
Proof.
  intros Hne. unfold getPrevTrack.
  assert (Hlen : (0 < length tracks)%nat).
  { destruct tracks; [contradiction | cbn; lia]. }
  destruct (Nat.eqb_spec (length tracks) 0); [lia|].
  assert (Hat : forall k, (0 <= k < Z.of_nat (length tracks))%Z ->
            exists t, App.at_index tracks k = Some t /\ In t tracks).
  { intros k Hk. destruct (AppFacts.at_index_lt tracks k Hk) as (t & Ht & _).
    exists t. split; [exact Ht|]. eapply at_index_In; eauto. }
  destruct cur as [c|].
  - destruct (negb (Qle_bool ct 3)).
    + exists c. cbn. auto.
    + pose proof (findIndex_range (hasId (track_id c)) tracks) as Hr.
      destruct (Z.leb_spec 0 (findIndex (hasId (track_id c)) tracks - 1)).
      * destruct (Hat (findIndex (hasId (track_id c)) tracks - 1)%Z)
          as (t & Ht & Hin); [lia|].
        exists t. cbn. auto.
      * destruct rm.
        -- destruct (Hat 0%Z) as (t & Ht & Hin); [lia|]. exists t. cbn. auto.
        -- destruct (Hat (Z.of_nat (length tracks) - 1)%Z) as (t & Ht & Hin);
             [lia|]. exists t. cbn. auto.
        -- destruct (Hat 0%Z) as (t & Ht & Hin); [lia|]. exists t. cbn. auto.
  - destruct (Hat (Z.of_nat (length tracks) - 1)%Z) as (t & Ht & Hin); [lia|].
    exists t. cbn. auto.
Qed.

(** ** [removeTrack] *)

Lemma find_none_filter id (tracks : list Track) :
  List.find (hasId id) tracks = None ->
  List.filter (fun t => negb (hasId id t)) tracks = tracks.
Proof.
  induction tracks as [|x l IH]; [reflexivity|]. cbn.
  destruct (hasId id x); [discriminate|]. cbn. intros H. now rewrite IH.
Qed.

Lemma filter_all {A} (f : A -> bool) (l : list A) :
  (forall x, In x l -> f x = true) -> List.filter f l = l.
Proof.
  induction l as [|x l IH]; intros H; [reflexivity|]. cbn.
  rewrite (H x (or_introl eq_refl)). f_equal. apply IH.
  intros y Hy. apply H. now right.
Qed.

Lemma removeTrack_tracks id tracks cur :
  fst (removeTrack id tracks cur)
  = List.filter (fun t => negb (hasId id t)) tracks.
Proof.
  unfold removeTrack.
  destruct (List.find (hasId id) tracks) eqn:Ef.
  - destruct cur as [c|]; [|reflexivity].
    destruct (hasId id c); [|reflexivity].
    destruct (match App.at_index _ _ with Some _ => _ | None => _ end);
      reflexivity.
  - cbn. symmetry. now apply find_none_filter.
Qed.

Lemma playTrack_cases t cur :
  playTrack t cur = Some t \/ (playTrack t cur = cur /\ exists c, cur = Some c /\ track_id c = track_id t).
Proof.
  unfold playTrack. destruct cur as [c|]; [|auto].
  destruct (hasId (track_id t) c) eqn:E; [|auto].
  right. split; [reflexivity|]. exists c. split; [reflexivity|].
  now apply hasId_true in E.
Qed.

(** After [removeTrack], the current track is a remaining track, or there
    is none: given that it was a track of the library before. *)
Lemma removeTrack_current id tracks cur :
  (forall c, cur = Some c -> In c tracks) ->
  let '(ts, cur') := removeTrack id tracks cur in
  forall c', cur' = Some c' -> In c' ts /\ track_id c' <> id.
Proof.
  intros Hcur. unfold removeTrack.
  destruct (List.find (hasId id) tracks) as [x|] eqn:Ef.
  - destruct cur as [c|]; [|intros c' H; discriminate].
    destruct (hasId id c) eqn:Ec.
    + set (after := List.filter (fun t => negb (hasId id t)) tracks).
      assert (Hafter : forall k t, App.at_index after k = Some t ->
                In t after /\ track_id t <> id).
      { intros k t Ht. apply at_index_In in Ht. split; [exact Ht|].
        apply filter_In in Ht. destruct Ht as [_ Ht].
        apply negb_true_iff in Ht. now apply hasId_false in Ht. }
      apply hasId_true in Ec.
      destruct (App.at_index after (findIndex (hasId id) tracks)) as [t|] eqn:E1.
      * destruct (Hafter _ _ E1) as [Hin Hid].
        rewrite playTrack_fresh by congruence.
        intros c' H. injection H as <-. auto.
      * destruct (App.at_index after 0) as [t|] eqn:E2;
          [|intros c' H; discriminate].
        destruct (Hafter _ _ E2) as [Hin Hid].
        rewrite playTrack_fresh by congruence.
        intros c' H. injection H as <-. auto.
    + intros c' H. injection H as <-.
      apply hasId_false in Ec. split; [|exact Ec].
      apply filter_In. split; [now apply Hcur|].
      apply negb_true_iff. now apply hasId_false.
  - intros c' ->. specialize (Hcur c' eq_refl).
    assert (Hne : hasId id c' = false).
    { apply (find_none _ _ Ef). exact Hcur. }
    apply hasId_false in Hne. auto.
Qed.

(** With distinct ids, removing the current track makes the track that
    followed it current; the first one if it was the last; none if it was
    the only one. *)
Lemma filter_remove_at id (tracks : list Track) (i : nat) c :
  NoDup (List.map track_id tracks) -> tracks !! i = Some c -> track_id c = id ->
  List.filter (fun t => negb (hasId id t)) tracks
  = take i tracks ++ drop (S i) tracks.
Proof.
  revert i. induction tracks as [|x l IH]; intros i Hnd Hi Hid; [discriminate|].
  cbn [List.map] in Hnd. apply NoDup_cons in Hnd. destruct Hnd as [Hx Hnd].
  destruct i as [|i]; cbn in Hi.
  - injection Hi as ->. cbn [List.filter].
    rewrite (proj2 (hasId_true id c) Hid). cbn [negb].
    change (take 0 (c :: l) ++ drop 1 (c :: l)) with l.
    apply filter_all. intros y Hy.
    apply negb_true_iff, hasId_false. intros E. apply Hx.
    rewrite Hid, <- E. apply list_elem_of_In, in_map. exact Hy.
  - cbn [List.filter].
    assert (Hxc : hasId id x = false).
    { apply hasId_false. intros E. apply Hx. rewrite E, <- Hid.
      apply list_elem_of_In, in_map.
      apply list_elem_of_In. eapply list_elem_of_lookup_2; eauto. }
    rewrite Hxc. cbn [negb take drop app]. f_equal. now apply IH.
Qed.

Lemma at_index_drop0 {A} (l : list A) (n : nat) :
  App.at_index (drop n l) 0 = l !! n.
Proof.
  change 0%Z with (Z.of_nat 0). rewrite at_index_nat, lookup_drop.
  f_equal. lia.
Qed.

Lemma removeTrack_current_next tracks (i : nat) c :
  NoDup (List.map track_id tracks) -> tracks !! i = Some c ->
  snd (removeTrack (track_id c) tracks (Some c))
  = match tracks !! S i with
    | Some t => Some t
    | None => match i with O => None | S _ => tracks !! 0%nat end
    end.
Proof.
  intros Hnd Hi. unfold removeTrack.
  pose proof (lookup_lt_Some _ _ _ Hi) as Hlt.
  assert (Hin : In c tracks).
  { apply list_elem_of_In. eapply list_elem_of_lookup_2; eauto. }
  destruct (List.find (hasId (track_id c)) tracks) as [x|] eqn:Ef.
  2:{ exfalso. pose proof (find_none _ _ Ef c Hin) as H.
      apply hasId_false in H. congruence. }
  rewrite (proj2 (hasId_true (track_id c) c) eq_refl).
  rewrite (findIndex_at tracks i c Hnd Hi).
  rewrite (filter_remove_at (track_id c) tracks i c Hnd Hi eq_refl).
  rewrite !at_index_nat.
  assert (Hti : length (take i tracks) = i) by (rewrite length_take; lia).
  rewrite lookup_app_r by lia. rewrite Hti. rewrite Nat.sub_diag.
  rewrite lookup_drop. replace (S i + 0)%nat with (S i) by lia.
  assert (Hfresh : forall j t, tracks !! j = Some t -> j <> i ->
            playTrack t (Some c) = Some t).
  { intros j t Hj Hne. apply playTrack_fresh. intros E.
    destruct (same_id_same_track tracks j i t c Hnd Hj Hi E). contradiction. }
  destruct (tracks !! S i) as [t|] eqn:Es.
  - cbn. eapply Hfresh; eauto.
  - destruct i as [|i'].
    + change (take 0 tracks ++ drop 1 tracks) with (drop 1 tracks).
      rewrite at_index_drop0, Es. reflexivity.
    + change 0%Z with (Z.of_nat 0). rewrite at_index_nat.
      rewrite lookup_app_l by lia. rewrite lookup_take.
      destruct (decide (0 < S i')%nat); [|lia].
      destruct (lookup_lt_is_Some_2 tracks 0) as [t Ht]; [lia|].
      rewrite Ht. cbn. eapply Hfresh; eauto.
Qed.

(** ** The current track stays in the library *)

Lemma library_run_snoc events e s : run (events ++ [e]) s = handle (run events s) e.
Proof. unfold run. now rewrite fold_left_app. Qed.

Lemma playTrack_in t cur (l : list Track) :
  In t l -> (forall c, cur = Some c -> In c l) ->
  forall c', playTrack t cur = Some c' -> In c' l.
Proof.
  intros Ht Hc c' H.
  destruct (playTrack_cases t cur) as [E | [E _]]; rewrite E in H.
  - now injection H as <-.
  - now apply Hc.
Qed.

Lemma commit_tracks s ts cur b : tracks (commit s ts cur b) = ts.
Proof. unfold commit. now destruct (_ || _). Qed.

Lemma commit_currentTrack s ts cur b : currentTrack (commit s ts cur b) = cur.
Proof. unfold commit. now destruct (_ || _). Qed.

Lemma current_in_library_commit s ts cur b :
  (forall c, cur = Some c -> In c ts) ->
  current_in_library (commit s ts cur b).
Proof.
  intros H. unfold current_in_library.
  rewrite commit_tracks, commit_currentTrack.
  destruct cur as [c|]; auto.
Qed.

Lemma togglePlayPause_in (l : list Track) cur :
  (forall c, cur = Some c -> In c l) ->
  forall c', togglePlayPause l cur = Some c' -> In c' l.
Proof.
  intros Hc. unfold togglePlayPause.
  destruct cur as [c|] eqn:Ec; [exact Hc|].
  destruct (App.at_index l 0) as [t|] eqn:Et; [|discriminate].
  apply playTrack_in; [eapply at_index_In; eauto | exact Hc].
Qed.

(** An event handled by a function of the latest render keeps the current
    track in the library. *)
Lemma current_in_library_handle s e :
  usesLatestRender e = true ->
  current_in_library s -> current_in_library (handle s e).
Proof.
  intros He Hs.
  assert (Hc : forall c, currentTrack s = Some c -> In c (tracks s)).
  { intros c E. unfold current_in_library in Hs. now rewrite E in Hs. }
  destruct e as [new|index|sh rm r|rm ct| |id| |]; cbn [handle];
    try discriminate He.
  - apply current_in_library_commit. intros c E.
    apply in_or_app. left. now apply Hc.
  - destruct (tracks s !! index) as [t|] eqn:Et; [|exact Hs].
    apply current_in_library_commit. apply playTrack_in; [|exact Hc].
    apply list_elem_of_In. eapply list_elem_of_lookup_2; eauto.
  - apply current_in_library_commit. unfold playNext.
    destruct (getNextTrack _ _ _ _ _) as [t|] eqn:En; [|exact Hc].
    apply playTrack_in; [|exact Hc]. eapply getNextTrack_In; eauto.
  - apply current_in_library_commit. unfold playPrev.
    destruct (fst (getPrevTrack _ _ _ _)) as [t|] eqn:Ep; [|exact Hc].
    assert (Ht : In t (tracks s)).
    { unfold getPrevTrack in Ep.
      destruct (Nat.eqb _ 0); [discriminate|].
      destruct (currentTrack s) as [c|].
      - destruct (negb _); [cbn in Ep; injection Ep as <-; now apply Hc|].
        destruct (0 <=? _)%Z; [eapply at_index_In; eauto|].
        destruct rm; eapply at_index_In; eauto.
      - eapply at_index_In; eauto. }
    destruct (currentTrack s) as [c|] eqn:Ec.
    + destruct (hasId (track_id c) t); [exact Hc|].
      apply playTrack_in; [exact Ht | exact Hc].
    + apply playTrack_in; [exact Ht | exact Hc].
  - apply current_in_library_commit. now apply togglePlayPause_in.
  - pose proof (removeTrack_current id (tracks s) (currentTrack s) Hc) as H.
    destruct (removeTrack id (tracks s) (currentTrack s)) as [ts cur'].
    apply current_in_library_commit. intros c' E. now apply H.
  - apply current_in_library_commit. exact Hc.
Qed.

Lemma current_in_library_run events :
  Forall (fun e => usesLatestRender e = true) events ->
  current_in_library (run events initialState).
Proof.
  induction events as [|e events IH] using rev_ind; intros Hall.
  - exact I.
  - apply Forall_app in Hall. destruct Hall as [Hall He].
    rewrite library_run_snoc. apply current_in_library_handle.
    + now inversion He.
    + now apply IH.
Qed.

(** The space key, when the listener has been registered since the last
    change of [tracks] (or no listed track has been removed since). *)
Lemma current_in_library_KeySpace s :
  current_in_library s ->
  (forall t, In t (keydown_tracks s) -> In t (tracks s)) ->
  current_in_library (handle s KeySpace).
Proof.
  intros Hs Hsub. cbn [handle]. cbv zeta.
  destruct (sameTrack _ _) eqn:E; [exact Hs|].
  apply current_in_library_commit. intros c Hc.
  apply Hsub. revert Hc. unfold togglePlayPause.
  destruct (keydown_currentTrack s) as [k|] eqn:Ek.
  - intros Hc. rewrite Hc in E. cbn in E. injection Hc as <-.
    unfold sameTrack in E. now rewrite String.eqb_refl in E.
  - destruct (App.at_index (keydown_tracks s) 0) as [t|] eqn:Et;
      [|discriminate].
    cbn. intros Hc. injection Hc as <-. eapply at_index_In; eauto.
Qed.

(** The space key with a listener registered before a track was removed:
    the removed track becomes the current one. *)
Lemma stale_KeySpace (a b : Track) :
  track_id a <> track_id b ->
  let s := run [AddTracks [a; b]; SetPlayerState; RemoveTrack (track_id a);
                KeySpace] initialState in
  tracks s = [b] /\ currentTrack s = Some a /\ ~ current_in_library s.
Proof.
  intros Hne.
  assert (Eaa : String.eqb (track_id a) (track_id a) = true)
    by apply String.eqb_refl.
  assert (Eba : String.eqb (track_id b) (track_id a) = false)
    by (apply String.eqb_neq; congruence).
  assert (E : run [AddTracks [a; b]; SetPlayerState; RemoveTrack (track_id a);
                   KeySpace] initialState
              = mkState [b] (Some a) [b] (Some a)).
  { unfold run, initialState. cbn [fold_left].
    change (handle (mkState [] None [] None) (AddTracks [a; b]))
      with (mkState [a; b] None [] None).
    change (handle (mkState [a; b] None [] None) SetPlayerState)
      with (mkState [a; b] None [a; b] None).
    assert (E3 : handle (mkState [a; b] None [a; b] None)
                        (RemoveTrack (track_id a))
                 = mkState [b] None [a; b] None).
    { cbn [handle tracks currentTrack]. unfold removeTrack.
      cbn [List.find List.filter]. unfold hasId. rewrite Eaa, Eba.
      cbn [negb]. reflexivity. }
    rewrite E3. reflexivity. }
  cbv zeta. rewrite E. cbn.
  split; [reflexivity|]. split; [reflexivity|].
  unfold current_in_library. cbn. intros [H | []].
  apply Hne. now rewrite H.
Qed.

End LibraryFacts.

(** ** Playlists *)

Module PlaylistFacts.
Import Library.

Lemma includes_In id ids : includes id ids = true <-> In id ids.
Proof.
  unfold includes. rewrite existsb_exists. split.
  - intros (x & Hx & E). apply String.eqb_eq in E. now subst.
  - intros H. exists id. split; [exact H | apply String.eqb_refl].
Qed.

Lemma includes_app id ids : includes id (ids ++ [id]) = true.
Proof. apply includes_In, in_or_app. right. now left. Qed.

Lemma addTrackToPlaylist_idem trackId playlistId playlists :
  addTrackToPlaylist trackId playlistId
    (addTrackToPlaylist trackId playlistId playlists)
  = addTrackToPlaylist trackId playlistId playlists.
Proof.
  unfold addTrackToPlaylist. rewrite map_map. apply map_ext. intros p.
  destruct (String.eqb (pl_id p) playlistId) eqn:E; cbn [andb].
  - destruct (includes trackId (trackIds p)) eqn:I; cbn [negb].
    + now rewrite E, I.
    + cbn [pl_id trackIds]. now rewrite E, includes_app.
  - now rewrite E.
Qed.

Lemma addTrackToPlaylist_NoDup trackId playlistId playlists :
  Forall (fun p => NoDup (trackIds p)) playlists ->
  Forall (fun p => NoDup (trackIds p))
         (addTrackToPlaylist trackId playlistId playlists).
Proof.
  intros H. unfold addTrackToPlaylist.
  apply List.Forall_forall. intros q Hq. apply in_map_iff in Hq.
  destruct Hq as (p & <- & Hp).
  rewrite List.Forall_forall in H. specialize (H p Hp).
  destruct (String.eqb (pl_id p) playlistId); cbn [andb]; [|exact H].
  destruct (includes trackId (trackIds p)) eqn:I; cbn [negb]; [exact H|].
  cbn [trackIds]. apply NoDup_app. split; [exact H|]. split.
  - intros x Hx Hx'. apply list_elem_of_In in Hx, Hx'.
    destruct Hx' as [<- | []].
    apply includes_In in Hx. congruence.
  - apply NoDup_singleton.
Qed.

Lemma filter_app_fresh (id : string) (ids : list string) :
  ~ In id ids ->
  List.filter (fun x => negb (String.eqb x id)) (ids ++ [id]) = ids.
Proof.
  intros Hn. rewrite List.filter_app. cbn. rewrite String.eqb_refl. cbn.
  rewrite app_nil_r. apply LibraryFacts.filter_all.
  intros x Hx. apply negb_true_iff, String.eqb_neq. congruence.
Qed.

(** Removing a track that was just added, and was not there before, gives
    the playlists back. *)
Lemma remove_after_add trackId playlistId playlists :
  (forall p, In p playlists -> pl_id p = playlistId ->
             ~ In trackId (trackIds p)) ->
  removeTrackFromPlaylist trackId playlistId
    (addTrackToPlaylist trackId playlistId playlists)
  = playlists.
Proof.
  intros H. unfold removeTrackFromPlaylist, addTrackToPlaylist.
  rewrite map_map. rewrite <- (map_id playlists) at 2.
  apply map_ext_in. intros p Hp.
  destruct (String.eqb (pl_id p) playlistId) eqn:E; cbn [andb].
  - apply String.eqb_eq in E. specialize (H p Hp E).
    assert (I : includes trackId (trackIds p) = false).
    { destruct (includes trackId (trackIds p)) eqn:I; [|reflexivity].
      apply includes_In in I. contradiction. }
    rewrite I. cbn [negb pl_id trackIds pl_name createdAt pl_coverArtUrl].
    rewrite (proj2 (String.eqb_eq _ _) E).
    rewrite filter_app_fresh by exact H. now destruct p.
  - now rewrite E.
Qed.

(** After [removeTrackFromPlaylist], no playlist of that id holds the
    track; after [addTrackToPlaylist], every one does. *)
Lemma removeTrackFromPlaylist_gone trackId playlistId playlists p :
  In p (removeTrackFromPlaylist trackId playlistId playlists) ->
  pl_id p = playlistId -> ~ In trackId (trackIds p).
Proof.
  unfold removeTrackFromPlaylist. intros Hp E. apply in_map_iff in Hp.
  destruct Hp as (q & <- & Hq).
  destruct (String.eqb (pl_id q) playlistId) eqn:Eq.
  - cbn [trackIds]. rewrite filter_In. intros [_ C].
    now rewrite String.eqb_refl in C.
  - apply String.eqb_neq in Eq. contradiction.
Qed.

Lemma addTrackToPlaylist_there trackId playlistId playlists p :
  In p (addTrackToPlaylist trackId playlistId playlists) ->
  pl_id p = playlistId -> In trackId (trackIds p).
Proof.
  unfold addTrackToPlaylist. intros Hp E. apply in_map_iff in Hp.
  destruct Hp as (q & <- & Hq).
  destruct (String.eqb (pl_id q) playlistId) eqn:Eq; cbn [andb] in *.
  - destruct (includes trackId (trackIds q)) eqn:I; cbn [negb] in *.
    + now apply includes_In.
    + cbn [trackIds]. apply in_or_app. right. now left.
  - apply String.eqb_neq in Eq. contradiction.
Qed.

(** The view of a selected playlist that exists. *)
Lemma getFilteredTracks_view tracks playlists sel t :
  sel <> ""%string ->
  (exists p, In p playlists /\ pl_id p = sel) ->
  exists p, In p playlists /\ pl_id p = sel
    /\ (In t (getFilteredTracks tracks playlists (Some sel))
        <-> In t tracks /\ In (track_id t) (trackIds p)).
Proof.
  intros Hne (p0 & Hp0 & E0). unfold getFilteredTracks.
  rewrite (proj2 (String.eqb_neq sel "") Hne).
  destruct (List.find (fun p => String.eqb (pl_id p) sel) playlists)
    as [p|] eqn:Ef.
  - apply find_some in Ef. destruct Ef as [Hp E]. apply String.eqb_eq in E.
    exists p. split; [exact Hp|]. split; [exact E|].
    rewrite filter_In, includes_In. reflexivity.
  - exfalso. pose proof (find_none _ _ Ef p0 Hp0) as C. cbn in C.
    apply String.eqb_neq in C. contradiction.
Qed.

Lemma getFilteredTracks_sub tracks playlists selected t :
  In t (getFilteredTracks tracks playlists selected) -> In t tracks.
Proof.
  unfold getFilteredTracks. destruct selected as [sel|]; [|auto].
  destruct (String.eqb sel ""); [auto|].
  destruct (List.find _ playlists); [|auto].
  rewrite filter_In. tauto.
Qed.

(** ** The selection *)

Lemma runShelf_snoc events e s :
  runShelf (events ++ [e]) s = handleShelf (runShelf events s) e.
Proof. unfold runShelf. now rewrite fold_left_app. Qed.

Lemma ids_map (f : Playlist -> Playlist) playlists :
  (forall p, pl_id (f p) = pl_id p) ->
  forall sel, (exists p, In p playlists /\ pl_id p = sel) ->
              exists p, In p (List.map f playlists) /\ pl_id p = sel.
Proof.
  intros Hf sel (p & Hp & E). exists (f p). split; [now apply in_map|].
  now rewrite Hf.
Qed.

Lemma selection_exists_handle s e :
  selection_exists s -> selection_exists (handleShelf s e).
Proof.
  unfold selection_exists. intros Hs.
  destruct e as [newId now name|pid| |index|tid pid|tid pid]; cbn [handleShelf].
  - cbn. destruct (selectedPlaylist s) as [sel|]; [|exact I].
    destruct Hs as (p & Hp & E). exists p. split; [|exact E].
    unfold createPlaylist. apply in_or_app. now left.
  - unfold deletePlaylist.
    destruct (List.find _ (playlists s)) as [found|]; [|exact Hs].
    cbn. destruct (selectedPlaylist s) as [sel|]; [|exact I].
    destruct (String.eqb sel pid) eqn:E; [exact I|].
    destruct Hs as (p & Hp & Ep). exists p. split; [|exact Ep].
    apply filter_In. split; [exact Hp|].
    apply negb_true_iff. rewrite Ep. exact E.
  - exact I.
  - destruct (playlists s !! index) as [p|] eqn:Ep; [|exact Hs].
    cbn. exists p. split; [|reflexivity].
    apply list_elem_of_In. eapply list_elem_of_lookup_2; eauto.
  - cbn. destruct (selectedPlaylist s) as [sel|]; [|exact I].
    unfold addTrackToPlaylist. apply ids_map; [|exact Hs].
    intros p. destruct (_ && _); reflexivity.
  - cbn. destruct (selectedPlaylist s) as [sel|]; [|exact I].
    unfold removeTrackFromPlaylist. apply ids_map; [|exact Hs].
    intros p. destruct (String.eqb _ _); reflexivity.
Qed.

Lemma selection_exists_run saved events :
  selection_exists (runShelf events (mkShelf saved None)).
Proof.
  induction events as [|e events IH] using rev_ind.
  - exact I.
  - rewrite runShelf_snoc. now apply selection_exists_handle.
Qed.

End PlaylistFacts.

(** ** Chapter markers *)

Module MarkerFacts.
Import Markers.

Lemma insertMarker_perm m l : Permutation (insertMarker m l) (m :: l).
Proof.
  induction l as [|x l IH]; cbn; [reflexivity|].
  destruct (Qle_bool (timestamp m) (timestamp x)); [reflexivity|].
  rewrite IH. apply perm_swap.
Qed.

Lemma sortByTimestamp_perm l : Permutation (sortByTimestamp l) l.
Proof.
  induction l as [|x l IH]; cbn; [reflexivity|].
  rewrite insertMarker_perm. now constructor.
Qed.

Lemma insertMarker_sorted m l :
  StronglySorted byTime l -> StronglySorted byTime (insertMarker m l).
Proof.
  induction 1 as [|x l Hl IH Hx]; cbn.
  - repeat constructor.
  - destruct (Qle_bool (timestamp m) (timestamp x)) eqn:E.
    + apply Qle_bool_iff in E. constructor; [now constructor|].
      constructor; [exact E|].
      eapply Forall_impl; [exact Hx|]. unfold byTime. intros y Hy.
      cbv beta in Hy |- *. lra.
    + assert (E' : timestamp x <= timestamp m).
      { destruct (Qlt_le_dec (timestamp x) (timestamp m)) as [H|H]; [lra|].
        apply Qle_bool_iff in H. congruence. }
      constructor; [exact IH|].
      apply List.Forall_forall. intros y Hy.
      apply (Permutation_in _ (insertMarker_perm m l)) in Hy.
      destruct Hy as [<- | Hy]; [exact E'|].
      rewrite List.Forall_forall in Hx. now apply Hx.
Qed.

Lemma sortByTimestamp_sorted l : StronglySorted byTime (sortByTimestamp l).
Proof.
  induction l as [|x l IH]; cbn; [constructor|].
  now apply insertMarker_sorted.
Qed.

(** In a sorted list, [find] gives a least element among those that
    satisfy the test. *)
Lemma find_sorted_least (f : ChapterMarker -> bool) l x :
  StronglySorted byTime l -> List.find f l = Some x ->
  In x l /\ f x = true
  /\ forall y, In y l -> f y = true -> timestamp x <= timestamp y.
Proof.
  induction 1 as [|a l Hl IH Ha]; cbn; [discriminate|].
  destruct (f a) eqn:Ea.
  - intros H. injection H as <-. split; [now left|]. split; [exact Ea|].
    intros y [<- | Hy] _; [lra|].
    rewrite List.Forall_forall in Ha. now apply Ha.
  - intros H. destruct (IH H) as (Hin & Hf & Hleast).
    split; [now right|]. split; [exact Hf|].
    intros y [<- | Hy] Hfy; [congruence|]. now apply Hleast.
Qed.

Lemma sorted_app (R : ChapterMarker -> ChapterMarker -> Prop) l1 l2 :
  StronglySorted R l1 -> StronglySorted R l2 ->
  (forall x y, In x l1 -> In y l2 -> R x y) ->
  StronglySorted R (l1 ++ l2).
Proof.
  induction 1 as [|a l Hl IH Ha]; intros H2 H12; cbn; [exact H2|].
  constructor.
  - apply IH; [exact H2|]. intros x y Hx Hy. apply H12; [now right | exact Hy].
  - apply List.Forall_forall. intros y Hy. apply in_app_or in Hy.
    destruct Hy as [Hy | Hy].
    + rewrite List.Forall_forall in Ha. now apply Ha.
    + apply H12; [now left | exact Hy].
Qed.

Lemma sorted_rev l :
  StronglySorted byTime l ->
  StronglySorted (fun a b => byTime b a) (List.rev l).
Proof.
  induction 1 as [|a l Hl IH Ha]; cbn; [constructor|].
  apply sorted_app; [exact IH | repeat constructor |].
  intros x y Hx [<- | []]. apply in_rev in Hx.
  rewrite List.Forall_forall in Ha. now apply Ha.
Qed.

Lemma find_sorted_greatest (f : ChapterMarker -> bool) l x :
  StronglySorted byTime l -> List.find f (List.rev l) = Some x ->
  In x l /\ f x = true
  /\ forall y, In y l -> f y = true -> timestamp y <= timestamp x.
Proof.
  intros Hs. apply sorted_rev in Hs. revert Hs.
  assert (Hin : forall y, In y (List.rev l) <-> In y l).
  { intros y. symmetry. apply in_rev. }
  revert Hin. generalize (List.rev l) as r. intros r Hin Hs Hf.
  assert (G : In x r /\ f x = true
              /\ forall y, In y r -> f y = true -> timestamp y <= timestamp x).
  { clear Hin. induction Hs as [|a r Hr IH Ha]; cbn in Hf; [discriminate|].
    destruct (f a) eqn:Ea.
    - injection Hf as <-. split; [now left|]. split; [exact Ea|].
      intros y [<- | Hy] _; [lra|].
      rewrite List.Forall_forall in Ha. now apply Ha.
    - destruct (IH Hf) as (Hi & Hfx & Hg).
      split; [now right|]. split; [exact Hfx|].
      intros y [<- | Hy] Hfy; [congruence|]. now apply Hg. }
  destruct G as (Hi & Hfx & Hg).
  split; [now apply Hin|]. split; [exact Hfx|].
  intros y Hy. apply Hg. now apply Hin.
Qed.

Lemma current_In markers c m :
  In m (getCurrentTrackMarkers markers (Some c))
  <-> In m markers /\ m_trackId m = Library.track_id c.
Proof.
  unfold getCurrentTrackMarkers. split.
  - intros H. apply (Permutation_in _ (sortByTimestamp_perm _)) in H.
    apply filter_In in H. destruct H as [H E].
    split; [exact H|]. now apply String.eqb_eq in E.
  - intros [H E].
    apply (Permutation_in _ (Permutation_sym (sortByTimestamp_perm _))).
    apply filter_In. split; [exact H|]. now apply String.eqb_eq.
Qed.

Lemma gt_test (t ct : Q) : negb (Qle_bool t ct) = true <-> ct < t.
Proof.
  rewrite negb_true_iff. split.
  - intros E. destruct (Qlt_le_dec ct t) as [H|H]; [exact H|].
    apply Qle_bool_iff in H. congruence.
  - intros H. destruct (Qle_bool t ct) eqn:E; [|reflexivity].
    apply Qle_bool_iff in E. lra.
Qed.

Lemma jumpToNextMarker_spec markers c ct :
  match jumpToNextMarker markers (Some c) ct with
  | Some t =>
      ct < t
      /\ (exists m, In m markers /\ m_trackId m = Library.track_id c
                    /\ timestamp m = t)
      /\ forall m, In m markers -> m_trackId m = Library.track_id c ->
                   ct < timestamp m -> t <= timestamp m
  | None =>
      forall m, In m markers -> m_trackId m = Library.track_id c ->
                timestamp m <= ct
  end.
Proof.
  unfold jumpToNextMarker.
  set (cm := getCurrentTrackMarkers markers (Some c)).
  assert (Hs : StronglySorted byTime cm) by apply sortByTimestamp_sorted.
  assert (Hin : forall m, In m cm <-> In m markers
                                      /\ m_trackId m = Library.track_id c)
    by apply current_In.
  destruct (Nat.eqb_spec (length cm) 0) as [E|_].
  { intros m Hm Hid. exfalso.
    assert (Hc : In m cm) by (apply Hin; auto).
    destruct cm; [destruct Hc | discriminate]. }
  destruct (List.find _ cm) as [x|] eqn:Ef.
  - destruct (find_sorted_least _ cm x Hs Ef) as (Hx & Hfx & Hleast).
    apply gt_test in Hfx. split; [exact Hfx|]. split.
    + exists x. apply Hin in Hx. tauto.
    + intros m Hm Hid Hgt. apply Hleast; [apply Hin; auto|].
      now apply gt_test.
  - intros m Hm Hid.
    assert (Hc : In m cm) by (apply Hin; auto).
    pose proof (find_none _ _ Ef m Hc) as Hn. cbv beta in Hn.
    apply negb_false_iff in Hn. now apply Qle_bool_iff in Hn.
Qed.

Lemma jumpToPrevMarker_spec markers c ct :
  match jumpToPrevMarker markers (Some c) ct with
  | Some t =>
      t < ct - 1
      /\ (exists m, In m markers /\ m_trackId m = Library.track_id c
                    /\ timestamp m = t)
      /\ forall m, In m markers -> m_trackId m = Library.track_id c ->
                   timestamp m < ct - 1 -> timestamp m <= t
  | None =>
      forall m, In m markers -> m_trackId m = Library.track_id c ->
                ct - 1 <= timestamp m
  end.
Proof.
  unfold jumpToPrevMarker.
  set (cm := getCurrentTrackMarkers markers (Some c)).
  assert (Hs : StronglySorted byTime cm) by apply sortByTimestamp_sorted.
  assert (Hin : forall m, In m cm <-> In m markers
                                      /\ m_trackId m = Library.track_id c)
    by apply current_In.
  destruct (Nat.eqb_spec (length cm) 0) as [E|_].
  { intros m Hm Hid. exfalso.
    assert (Hc : In m cm) by (apply Hin; auto).
    destruct cm; [destruct Hc | discriminate]. }
  destruct (List.find _ (List.rev cm)) as [x|] eqn:Ef.
  - destruct (find_sorted_greatest _ cm x Hs Ef) as (Hx & Hfx & Hg).
    apply gt_test in Hfx. split; [exact Hfx|]. split.
    + exists x. apply Hin in Hx. tauto.
    + intros m Hm Hid Hlt. apply Hg; [apply Hin; auto|].
      now apply gt_test.
  - intros m Hm Hid.
    assert (Hc : In m (List.rev cm)) by (apply in_rev; rewrite rev_involutive; apply Hin; auto).
    pose proof (find_none _ _ Ef m Hc) as Hn. cbv beta in Hn.
    apply negb_false_iff in Hn. now apply Qle_bool_iff in Hn.
Qed.

End MarkerFacts.

(** ** Volume, mute and repeat *)

Module ControlsFacts.
Import Controls.

Lemma controls_run_snoc events e s : run (events ++ [e]) s = handle (run events s) e.
Proof. unfold run. now rewrite fold_left_app. Qed.

Lemma coherent_handle s e :
  volumeOnSlider e -> coherent s -> coherent (handle s e).
Proof.
  intros He (Hv & Ha & Hm). unfold coherent.
  destruct e as [[| | | |]| | | |vol]; cbn; repeat split; auto; try tauto.
  - apply Q.min_glb; lra.
  - apply Q.le_min_l.
  - apply Q.le_max_l.
  - apply Q.max_lub; lra.
  - now destruct He.
  - now destruct He.
Qed.

Lemma coherent_run events :
  Forall volumeOnSlider events -> coherent (run events initialState).
Proof.
  induction events as [|e events IH] using rev_ind; intros H.
  - repeat split; cbn; lra.
  - apply Forall_app in H. destruct H as [H1 H2].
    apply Forall_inv in H2.
    rewrite controls_run_snoc. apply coherent_handle; auto.
Qed.

End ControlsFacts.

(** ** The sleep timer's display *)

Module SleepTimerFacts.
Import SleepTimer.

Lemma floor_div (a : Z) (b : positive) :
  JS.floor (inject_Z a / inject_Z (Zpos b)) = (a / Zpos b)%Z.
Proof.
  unfold JS.floor, Qfloor, Qdiv, Qinv, Qmult, inject_Z. cbn.
  now rewrite Z.mul_1_r.
Qed.

Lemma padStart0_seconds (n : Z) :
  (0 <= n < 60)%Z -> padStart0 2 (toString n) = twoDigits n.
Proof.
  intros Hn.
  assert (H : forallb (fun n => String.eqb (padStart0 2 (toString n))
                                           (twoDigits n))
                      (seqZ 0 60) = true) by (vm_compute; reflexivity).
  apply String.eqb_eq.
  exact (RenderFacts.forall_range _ 60 H n Hn).
Qed.

End SleepTimerFacts.

(** ** [extractVideoId] *)

Module VideoIdFacts.
Import VideoId.

Lemma takeIdChars_allId s : allId (takeIdChars s) = true.
Proof.
  induction s as [|c s IH]; cbn; [reflexivity|].
  destruct (idChar c) eqn:E; [|reflexivity]. cbn. now rewrite E.
Qed.

Lemma substring_allId (n : nat) s :
  allId s = true -> allId (String.substring 0 n s) = true.
Proof.
  revert s. induction n as [|n IH]; intros [|c s]; cbn; auto.
  intros H. apply andb_true_iff in H. destruct H as [Hc Hs].
  rewrite Hc. cbn. now apply IH.
Qed.

Lemma matchHere_allId lit s g : matchHere lit s = Some g -> allId g = true.
Proof.
  unfold matchHere. destruct (stripPrefix lit s) as [rest|]; [|discriminate].
  pose proof (takeIdChars_allId rest) as H.
  destruct (takeIdChars rest); [discriminate|].
  intros E. now injection E as <-.
Qed.

Lemma matchPattern_allId lit url g :
  matchPattern lit url = Some g -> allId g = true.
Proof.
  induction url as [|c url IH]; cbn [matchPattern].
  - destruct (matchHere lit "") eqn:E; [|discriminate].
    intros H. injection H as <-. eapply matchHere_allId; eauto.
  - destruct (matchHere lit (String c url)) eqn:E; [|exact IH].
    intros H. injection H as <-. eapply matchHere_allId; eauto.
Qed.

Lemma firstId_spec ps url id :
  firstId ps url = Some id -> String.length id = 11%nat /\ allId id = true.
Proof.
  induction ps as [|p ps IH]; cbn [firstId]; [discriminate|].
  destruct (matchPattern p url) as [g|] eqn:Em; [|exact IH].
  cbv zeta.
  destruct (Nat.eqb_spec (String.length (String.substring 0 11 g)) 11);
    [|exact IH].
  intros H. injection H as <-. split; [assumption|].
  apply substring_allId. eapply matchPattern_allId; eauto.
Qed.

Lemma takeIdChars_app id tail :
  allId id = true -> stops tail = true -> takeIdChars (String.append id tail) = id.
Proof.
  intros Hid Ht. induction id as [|c id IH].
  - change (String.append EmptyString tail) with tail.
    destruct tail as [|c t]; [reflexivity|]. cbn [stops] in Ht.
    cbn [takeIdChars]. apply negb_true_iff in Ht. now rewrite Ht.
  - change (String.append (String c id) tail)
      with (String c (String.append id tail)).
    cbn [allId] in Hid. apply andb_true_iff in Hid. destruct Hid as [Hc Hid].
    cbn [takeIdChars]. rewrite Hc. f_equal. now apply IH.
Qed.

Lemma substring_all s : String.substring 0 (String.length s) s = s.
Proof. induction s as [|c s IH]; cbn; [reflexivity|]. now rewrite IH. Qed.

Lemma matchPattern_skip (lit' : string) pre rest :
  noY pre = true ->
  matchPattern (String "y" lit') (String.append pre rest)
  = matchPattern (String "y" lit') rest.
Proof.
  intros Hp. induction pre as [|c pre IH]; [reflexivity|].
  cbn [noY] in Hp. apply andb_true_iff in Hp. destruct Hp as [Hc Hp].
  apply negb_true_iff in Hc.
  change (String.append (String c pre) rest)
    with (String c (String.append pre rest)).
  cbn [matchPattern]. unfold matchHere at 1.
  cbn [stripPrefix]. rewrite Ascii.eqb_sym, Hc. now apply IH.
Qed.

Lemma stripPrefix_app lit rest :
  stripPrefix lit (String.append lit rest) = Some rest.
Proof.
  induction lit as [|c lit IH]; [reflexivity|].
  change (String.append (String c lit) rest)
    with (String c (String.append lit rest)).
  cbn [stripPrefix]. now rewrite Ascii.eqb_refl.
Qed.

Lemma matchPattern_here lit url g :
  matchHere lit url = Some g -> matchPattern lit url = Some g.
Proof. intros H. destruct url; cbn [matchPattern]; now rewrite H. Qed.

Lemma extract_short_link pre id tail :
  noY pre = true -> String.length id = 11%nat -> allId id = true ->
  stops tail = true ->
  extractVideoId
    (String.append pre (String.append "youtu.be/" (String.append id tail)))
  = Some id.
Proof.
  intros Hp Hl Hid Ht. unfold extractVideoId, patterns. cbn [firstId].
  rewrite matchPattern_skip by exact Hp.
  assert (Em : matchPattern "youtu.be/"
                 (String.append "youtu.be/" (String.append id tail))
               = Some id).
  { apply matchPattern_here. unfold matchHere.
    rewrite stripPrefix_app, takeIdChars_app by assumption.
    destruct id; [discriminate|]. reflexivity. }
  rewrite Em. cbv zeta.
  assert (Es : String.substring 0 11 id = id).
  { rewrite <- Hl. apply substring_all. }
  rewrite Es, Hl. reflexivity.
Qed.

End VideoIdFacts.

(** X15.  Whatever [getNextTrack] returns is a track of the library.  With
    shuffle on it never has the id of the current track; it does return a
    track as soon as the library holds one with another id (the random
    number being in [[0, 1)]); and when every track of the library has the
    current track's id, a single-track library for one, it returns none,
    whatever the repeat mode. *)
Theorem next_track_is_in_the_library :
  forall (tracks : list Library.Track) (cur : Library.Track)
         (currentTrack : option Library.Track) (isShuffle : bool)
         (repeatMode : Library.RepeatMode) (random : Q),
    (forall t,
       Library.getNextTrack tracks currentTrack isShuffle repeatMode random
       = Some t -> In t tracks)
    /\ (forall t,
          Library.getNextTrack tracks (Some cur) true repeatMode random
          = Some t -> Library.track_id t <> Library.track_id cur)
    /\ (forall t',
          In t' tracks -> Library.track_id t' <> Library.track_id cur ->
          0 <= random -> random < 1 ->
          exists t,
            Library.getNextTrack tracks (Some cur) true repeatMode random
            = Some t)
    /\ ((forall t, In t tracks -> Library.track_id t = Library.track_id cur) ->
        Library.getNextTrack tracks (Some cur) true repeatMode random = None).
Proof.
  intros tracks cur currentTrack sh rm r.
  split; [intros t; apply LibraryFacts.getNextTrack_In|].
  split; [intros t; apply LibraryFacts.getNextTrack_shuffle|].
  split; [intros t'; apply LibraryFacts.getNextTrack_shuffle_some|].
  apply LibraryFacts.getNextTrack_shuffle_alone.
Qed.

Lemma next_track_is_in_the_library_witness :
  let a := Library.mkTrack "a" "A" None None None "blob:a" None Library.local in
  let b := Library.mkTrack "b" "B" None None None "blob:b" None Library.local in
  Library.getNextTrack [a] (Some a) true Library.all 0 = None
  /\ exists t, Library.getNextTrack [a; b] (Some a) true Library.off (1 # 2)
               = Some t.
Proof.
  intros a b.
  destruct (next_track_is_in_the_library [a] a (Some a) true Library.all 0)
    as (_ & _ & _ & H1).
  destruct (next_track_is_in_the_library [a; b] a (Some a) true Library.off
              (1 # 2)) as (_ & _ & H2 & _).
  split.
  - apply H1. intros t [<- | []]. reflexivity.
  - apply (H2 b).
    + right. left. reflexivity.
    + discriminate.
    + vm_compute. discriminate.
    + reflexivity.
Defined.

(** X16.  In a library whose tracks have distinct ids, with shuffle off,
    starting from the track at position [i]: with repeat all, [k] presses
    of next lead to the track at position [(i + k) mod n], so that [n]
    presses come back to the start after visiting every track; with
    repeat off or one, they lead to position [min (i + k) (n - 1)], the
    last track being where next stops. *)
Theorem next_walks_the_library_in_order :
  forall (tracks : list Library.Track) (i k : nat) (cur : Library.Track)
         (repeatMode : Library.RepeatMode) (random : Q),
    NoDup (List.map Library.track_id tracks) ->
    tracks !! i = Some cur ->
    Nat.iter k (Library.playNext tracks false repeatMode random) (Some cur)
    = match repeatMode with
      | Library.all => tracks !! ((i + k) mod length tracks)%nat
      | _ => tracks !! Nat.min (i + k) (length tracks - 1)
      end.
Proof.
  intros tracks i k cur rm r Hnd Hi.
  pose proof (lookup_lt_Some _ _ _ Hi) as Hlt.
  assert (Hstop : rm <> Library.all ->
            Nat.iter k (Library.playNext tracks false rm r) (Some cur)
            = tracks !! Nat.min (i + k) (length tracks - 1)).
  { intros Hrm. induction k as [|k IH].
    - rewrite Nat.add_0_r, Nat.min_l by lia. exact (eq_sym Hi).
    - rewrite Nat.iter_succ, IH.
      assert (Hm : (Nat.min (i + k) (length tracks - 1) < length tracks)%nat)
        by lia.
      destruct (lookup_lt_is_Some_2 tracks _ Hm) as [t Ht].
      rewrite Ht, (LibraryFacts.playNext_stop tracks _ t rm r Hrm Hnd Ht).
      f_equal. lia. }
  destruct rm.
  - apply Hstop. discriminate.
  - now apply LibraryFacts.playNext_iter.
  - apply Hstop. discriminate.
Qed.

Lemma next_walks_the_library_in_order_witness :
  let a := Library.mkTrack "a" "A" None None None "blob:a" None Library.local in
  let b := Library.mkTrack "b" "B" None None None "blob:b" None Library.local in
  let c := Library.mkTrack "c" "C" None None None "http://c" None
                           Library.stream in
  Nat.iter 3 (Library.playNext [a; b; c] false Library.all 0) (Some b)
  = Some b.
Proof.
  intros a b c.
  apply (next_walks_the_library_in_order [a; b; c] 1 3 b Library.all 0).
  - cbn; LibraryFacts.distinct.
  - reflexivity.
Defined.

(** X17.  In a library whose tracks have distinct ids, with shuffle off
    and repeat all, previous (pressed within the first three seconds of a
    track) undoes next and next undoes previous; pressed later than that,
    previous keeps the current track and seeks to its start. *)
Theorem previous_undoes_next :
  forall (tracks : list Library.Track) (i : nat) (cur : Library.Track)
         (random audio_currentTime : Q),
    NoDup (List.map Library.track_id tracks) ->
    tracks !! i = Some cur ->
    (audio_currentTime <= 3 ->
       Library.playPrev tracks Library.all audio_currentTime
         (Library.playNext tracks false Library.all random (Some cur))
       = Some cur
       /\ Library.playNext tracks false Library.all random
            (Library.playPrev tracks Library.all audio_currentTime (Some cur))
          = Some cur)
    /\ (3 < audio_currentTime ->
          Library.getPrevTrack tracks (Some cur) Library.all audio_currentTime
          = (Some cur, true)
          /\ Library.playPrev tracks Library.all audio_currentTime (Some cur)
             = Some cur).
Proof.
  intros tracks i cur r ct Hnd Hi.
  pose proof (lookup_lt_Some _ _ _ Hi) as Hlt.
  split.
  - intros Hct. split.
    + rewrite (LibraryFacts.playNext_all tracks i cur r Hnd Hi).
      assert (Hm : (S i mod length tracks < length tracks)%nat) by (apply Nat.mod_upper_bound; lia).
      destruct (lookup_lt_is_Some_2 tracks _ Hm) as [t Ht].
      rewrite Ht, (LibraryFacts.playPrev_all tracks _ t ct Hnd Ht Hct).
      rewrite <- Hi. f_equal.
      rewrite Nat.Div0.add_mod_idemp_l.
      replace (S i + (length tracks - 1))%nat with (i + 1 * length tracks)%nat by lia.
      rewrite Nat.Div0.mod_add. apply Nat.mod_small. lia.
    + rewrite (LibraryFacts.playPrev_all tracks i cur ct Hnd Hi Hct).
      assert (Hm : ((i + (length tracks - 1)) mod length tracks < length tracks)%nat)
        by (apply Nat.mod_upper_bound; lia).
      destruct (lookup_lt_is_Some_2 tracks _ Hm) as [t Ht].
      rewrite Ht, (LibraryFacts.playNext_all tracks _ t r Hnd Ht).
      rewrite <- Hi. f_equal.
      replace (S ((i + (length tracks - 1)) mod length tracks)) with (((i + (length tracks - 1)) mod length tracks) + 1)%nat
        by lia.
      rewrite Nat.Div0.add_mod_idemp_l.
      replace (i + (length tracks - 1) + 1)%nat with (i + 1 * length tracks)%nat by lia.
      rewrite Nat.Div0.mod_add. apply Nat.mod_small. lia.
  - intros Hct.
    assert (E : Library.getPrevTrack tracks (Some cur) Library.all ct
                = (Some cur, true)).
    { unfold Library.getPrevTrack.
      destruct (Nat.eqb_spec (length tracks) 0); [lia|].
      destruct (Qle_bool ct 3) eqn:Eb; [|reflexivity].
      apply Qle_bool_iff in Eb. lra. }
    split; [exact E|].
    unfold Library.playPrev. rewrite E. cbn [fst].
    now rewrite (proj2 (LibraryFacts.hasId_true _ _) eq_refl).
Qed.

Lemma previous_undoes_next_witness :
  let a := Library.mkTrack "a" "A" None None None "blob:a" None Library.local in
  let b := Library.mkTrack "b" "B" None None None "blob:b" None Library.local in
  Library.playPrev [a; b] Library.all 2
    (Library.playNext [a; b] false Library.all 0 (Some b)) = Some b
  /\ Library.playPrev [a; b] Library.all 10 (Some b) = Some b.
Proof.
  intros a b.
  assert (Hnd : NoDup (List.map Library.track_id [a; b]))
    by (cbn; LibraryFacts.distinct).
  destruct (previous_undoes_next [a; b] 1 b 0 2 Hnd eq_refl) as [H1 _].
  destruct (previous_undoes_next [a; b] 1 b 0 10 Hnd eq_refl) as [_ H2].
  split.
  - apply H1. vm_compute. discriminate.
  - apply H2. reflexivity.
Defined.

(** X18.  On a library that is not empty, [getPrevTrack] always returns a
    track: one of the library, or the current track itself. *)
Theorem previous_track_always_exists :
  forall (tracks : list Library.Track) (currentTrack : option Library.Track)
         (repeatMode : Library.RepeatMode) (audio_currentTime : Q),
    tracks <> [] ->
    exists t,
      fst (Library.getPrevTrack tracks currentTrack repeatMode
                                audio_currentTime) = Some t
      /\ (In t tracks \/ currentTrack = Some t).
Proof. intros. now apply LibraryFacts.getPrevTrack_some. Qed.

Lemma previous_track_always_exists_witness :
  let a := Library.mkTrack "a" "A" None None None "blob:a" None Library.local in
  exists t, fst (Library.getPrevTrack [a] None Library.off 0) = Some t
            /\ (In t [a] \/ None = Some t).
Proof.
  intros a.
  apply (previous_track_always_exists [a] None Library.off 0). discriminate.
Defined.

(** X19.  [removeTrack] leaves exactly the tracks with another id, in
    their order.  In a library whose tracks have distinct ids, removing the
    current track makes the track that followed it the current one, the
    first track if it was the last, and leaves no current track if it was
    the only one; removing another track leaves the current track alone. *)
Theorem removeTrack_moves_on :
  forall (tracks : list Library.Track) (i : nat) (cur : Library.Track)
         (id : string),
    NoDup (List.map Library.track_id tracks) ->
    tracks !! i = Some cur ->
    fst (Library.removeTrack id tracks (Some cur))
    = List.filter (fun t => negb (Library.hasId id t)) tracks
    /\ (id = Library.track_id cur ->
        snd (Library.removeTrack id tracks (Some cur))
        = match tracks !! S i with
          | Some t => Some t
          | None => match i with O => None | S _ => tracks !! 0%nat end
          end)
    /\ (id <> Library.track_id cur ->
        snd (Library.removeTrack id tracks (Some cur)) = Some cur).
Proof.
  intros tracks i cur id Hnd Hi.
  split; [apply LibraryFacts.removeTrack_tracks|]. split.
  - intros ->. now apply LibraryFacts.removeTrack_current_next.
  - intros Hne. unfold Library.removeTrack.
    destruct (List.find _ tracks); [|reflexivity].
    rewrite (proj2 (LibraryFacts.hasId_false id cur)) by congruence.
    reflexivity.
Qed.

Lemma removeTrack_moves_on_witness :
  let a := Library.mkTrack "a" "A" None None None "blob:a" None Library.local in
  let b := Library.mkTrack "b" "B" None None None "blob:b" None Library.local in
  let c := Library.mkTrack "c" "C" None None None "http://c" None
                           Library.stream in
  Library.removeTrack "b" [a; b; c] (Some b) = ([a; c], Some c)
  /\ Library.removeTrack "c" [a; b; c] (Some c) = ([a; b], Some a)
  /\ Library.removeTrack "a" [a] (Some a) = ([], None).
Proof.
  intros a b c.
  assert (Hnd : NoDup (List.map Library.track_id [a; b; c]))
    by (cbn; LibraryFacts.distinct).
  assert (Hnd1 : NoDup (List.map Library.track_id [a]))
    by (cbn; LibraryFacts.distinct).
  destruct (removeTrack_moves_on [a; b; c] 1 b "b" Hnd eq_refl)
    as (F1 & S1 & _).
  destruct (removeTrack_moves_on [a; b; c] 2 c "c" Hnd eq_refl)
    as (F2 & S2 & _).
  destruct (removeTrack_moves_on [a] 0 a "a" Hnd1 eq_refl) as (F3 & S3 & _).
  specialize (S1 eq_refl). specialize (S2 eq_refl). specialize (S3 eq_refl).
  repeat split; apply injective_projections; assumption.
Defined.

(** X20.  Starting from the empty library without a current track,
    through any sequence of adding tracks, clicking a track of the list,
    next (shuffled or not), previous, play / pause by the button and
    removing tracks, with any other updates of the player state in
    between, the current track is a track of the library whenever there is
    one: a removed track never stays current.  The space key keeps this
    when every track its listener holds is still in the library.  But the
    listener is registered again only when the player state or the
    current track changes, not when the library does: with two tracks and
    no current track, after an update of the player state, removing the
    first track and pressing space makes the removed track the current
    one. *)
Theorem current_track_stays_in_the_library :
  (forall (events : list Library.Event),
     Forall (fun e => Library.usesLatestRender e = true) events ->
     Library.current_in_library (Library.run events Library.initialState))
  /\ (forall (s : Library.State),
        Library.current_in_library s ->
        (forall t, In t (Library.keydown_tracks s) -> In t (Library.tracks s)) ->
        Library.current_in_library (Library.handle s Library.KeySpace))
  /\ (forall (a b : Library.Track),
        Library.track_id a <> Library.track_id b ->
        let s := Library.run [Library.AddTracks [a; b];
                              Library.SetPlayerState;
                              Library.RemoveTrack (Library.track_id a);
                              Library.KeySpace] Library.initialState in
        Library.tracks s = [b]
        /\ Library.currentTrack s = Some a
        /\ ~ Library.current_in_library s).
Proof.
  split; [|split].
  - apply LibraryFacts.current_in_library_run.
  - apply LibraryFacts.current_in_library_KeySpace.
  - apply LibraryFacts.stale_KeySpace.
Qed.

Lemma current_track_stays_in_the_library_witness :
  let a := Library.mkTrack "a" "A" None None None "blob:a" None Library.local in
  let b := Library.mkTrack "b" "B" None None None "blob:b" None Library.local in
  Library.current_in_library
    (Library.run [Library.AddTracks [a; b]; Library.SetPlayerState;
                  Library.PlayTrack 0; Library.RemoveTrack "a";
                  Library.TogglePlayPause]
                 Library.initialState)
  /\ Library.current_in_library
       (Library.handle (Library.mkState [a; b] None [a; b] None)
                       Library.KeySpace)
  /\ Library.currentTrack
       (Library.run [Library.AddTracks [a; b]; Library.SetPlayerState;
                     Library.RemoveTrack "a"; Library.KeySpace]
                    Library.initialState) = Some a.
Proof.
  intros a b.
  destruct current_track_stays_in_the_library as (H1 & H2 & H3).
  split; [|split].
  - apply H1. repeat constructor.
  - apply H2; [exact I | intros t Ht; exact Ht].
  - destruct (H3 a b) as (_ & H & _); [discriminate | exact H].
Defined.

(** X21.  [addTrackToPlaylist] never stores an id twice: playlists without
    repeated ids stay so, and adding the same track to the same playlist
    again changes nothing.  [removeTrackFromPlaylist] undoes an
    [addTrackToPlaylist] of a track the playlist did not hold.  In the
    view of a selected playlist, which shows tracks of the library only,
    the tracks with the added id appear and those with the removed id do
    not. *)
Theorem playlists_hold_each_track_once :
  forall (tracks : list Library.Track) (playlists : list Library.Playlist)
         (trackId playlistId : string) (t : Library.Track),
    let added := Library.addTrackToPlaylist trackId playlistId playlists in
    let removed :=
      Library.removeTrackFromPlaylist trackId playlistId playlists in
    (Forall (fun p => NoDup (Library.trackIds p)) playlists ->
       Forall (fun p => NoDup (Library.trackIds p)) added)
    /\ Library.addTrackToPlaylist trackId playlistId added = added
    /\ ((forall p, In p playlists -> Library.pl_id p = playlistId ->
                   ~ In trackId (Library.trackIds p)) ->
        Library.removeTrackFromPlaylist trackId playlistId added = playlists)
    /\ (playlistId <> ""%string ->
        (exists p, In p playlists /\ Library.pl_id p = playlistId) ->
        In t tracks -> Library.track_id t = trackId ->
        In t (Library.getFilteredTracks tracks added (Some playlistId))
        /\ ~ In t (Library.getFilteredTracks tracks removed (Some playlistId)))
    /\ (forall selected,
          In t (Library.getFilteredTracks tracks playlists selected) ->
          In t tracks).
Proof.
  intros tracks playlists trackId playlistId t added removed.
  split; [apply PlaylistFacts.addTrackToPlaylist_NoDup|].
  split; [apply PlaylistFacts.addTrackToPlaylist_idem|].
  split; [apply PlaylistFacts.remove_after_add|].
  split; [|intros selected; apply PlaylistFacts.getFilteredTracks_sub].
  intros Hne Hex Ht Hid.
  assert (Hadd : exists p, In p added /\ Library.pl_id p = playlistId).
  { subst added. unfold Library.addTrackToPlaylist.
    apply PlaylistFacts.ids_map; [|exact Hex].
    intros p. destruct (_ && _); reflexivity. }
  assert (Hrem : exists p, In p removed /\ Library.pl_id p = playlistId).
  { subst removed. unfold Library.removeTrackFromPlaylist.
    apply PlaylistFacts.ids_map; [|exact Hex].
    intros p. destruct (String.eqb _ _); reflexivity. }
  destruct (PlaylistFacts.getFilteredTracks_view tracks added playlistId t
              Hne Hadd) as (p & Hp & Ep & Hv).
  destruct (PlaylistFacts.getFilteredTracks_view tracks removed playlistId t
              Hne Hrem) as (q & Hq & Eq & Hw).
  split.
  - apply Hv. split; [exact Ht|]. rewrite Hid.
    eapply PlaylistFacts.addTrackToPlaylist_there; eauto.
  - intros C. apply Hw in C. destruct C as [_ C]. rewrite Hid in C.
    eapply PlaylistFacts.removeTrackFromPlaylist_gone; eauto.
Qed.

Lemma playlists_hold_each_track_once_witness :
  let a := Library.mkTrack "a" "A" None None None "blob:a" None Library.local in
  let p := Library.mkPlaylist "p1" "Mix" [] 1700000000000 None in
  In a (Library.getFilteredTracks [a]
          (Library.addTrackToPlaylist "a" "p1" [p]) (Some "p1"%string))
  /\ Library.removeTrackFromPlaylist "a" "p1"
       (Library.addTrackToPlaylist "a" "p1" [p]) = [p].
Proof.
  intros a p.
  destruct (playlists_hold_each_track_once [a] [p] "a" "p1" a)
    as (_ & _ & H3 & H4 & _).
  split.
  - apply H4.
    + discriminate.
    + exists p. split; [left|]; reflexivity.
    + left. reflexivity.
    + reflexivity.
  - apply H3. intros q [<- | []] _ [].
Defined.

(** X22.  Through any sequence of creating and deleting playlists,
    selecting All Tracks or a listed playlist, and adding tracks to or
    removing them from playlists, starting with All Tracks selected and
    any playlists loaded at startup, the selected playlist is one that
    exists: deleting the selected playlist returns to All Tracks. *)
Theorem selected_playlist_exists :
  forall (saved : list Library.Playlist) (events : list Library.ShelfEvent),
    Library.selection_exists
      (Library.runShelf events (Library.mkShelf saved None)).
Proof. apply PlaylistFacts.selection_exists_run. Qed.

(** X23.  The markers shown for the current track are exactly the stored
    markers of that track, each as often as it is stored, in the order of
    their timestamps; without a current track none is shown.  A marker
    added for the current track makes the list one longer. *)
Theorem shown_markers_are_sorted :
  forall (markers : list Markers.ChapterMarker) (cur : Library.Track)
         (newId : string) (time : Q) (lbl : option string),
    let shown := Markers.getCurrentTrackMarkers markers (Some cur) in
    StronglySorted Markers.byTime shown
    /\ Permutation shown (List.filter (Markers.ofTrack cur) markers)
    /\ Markers.getCurrentTrackMarkers markers None = []
    /\ length (Markers.getCurrentTrackMarkers
                 (Markers.addMarker newId time lbl (Some cur) markers)
                 (Some cur))
       = S (length shown).
Proof.
  intros markers cur newId time lbl shown. subst shown.
  unfold Markers.getCurrentTrackMarkers.
  split; [apply MarkerFacts.sortByTimestamp_sorted|].
  split; [apply MarkerFacts.sortByTimestamp_perm|].
  split; [reflexivity|].
  rewrite !(Permutation_length (MarkerFacts.sortByTimestamp_perm _)).
  unfold Markers.addMarker. cbv zeta. rewrite List.filter_app, length_app.
  assert (E : forall m, Markers.m_trackId m = Library.track_id cur ->
                        List.filter (Markers.ofTrack cur) [m] = [m]).
  { intros m Hm. cbn. unfold Markers.ofTrack.
    rewrite Hm, String.eqb_refl. reflexivity. }
  rewrite E by reflexivity. cbn. lia.
Qed.

(** X24.  [jumpToNextMarker] goes to the earliest marker of the current
    track that lies after the current time, and does nothing when there
    is none; [jumpToPrevMarker] goes to the latest marker of the current
    track that lies more than one second before the current time, and
    does nothing when there is none. *)
Theorem marker_jumps_go_to_the_nearest :
  forall (markers : list Markers.ChapterMarker) (cur : Library.Track)
         (currentTime : Q),
    match Markers.jumpToNextMarker markers (Some cur) currentTime with
    | Some t =>
        currentTime < t
        /\ (exists m, In m markers
                      /\ Markers.m_trackId m = Library.track_id cur
                      /\ Markers.timestamp m = t)
        /\ forall m, In m markers ->
                     Markers.m_trackId m = Library.track_id cur ->
                     currentTime < Markers.timestamp m ->
                     t <= Markers.timestamp m
    | None =>
        forall m, In m markers ->
                  Markers.m_trackId m = Library.track_id cur ->
                  Markers.timestamp m <= currentTime
    end
    /\ match Markers.jumpToPrevMarker markers (Some cur) currentTime with
       | Some t =>
           t < currentTime - 1
           /\ (exists m, In m markers
                         /\ Markers.m_trackId m = Library.track_id cur
                         /\ Markers.timestamp m = t)
           /\ forall m, In m markers ->
                        Markers.m_trackId m = Library.track_id cur ->
                        Markers.timestamp m < currentTime - 1 ->
                        Markers.timestamp m <= t
       | None =>
           forall m, In m markers ->
                     Markers.m_trackId m = Library.track_id cur ->
                     currentTime - 1 <= Markers.timestamp m
       end.
Proof.
  intros markers cur ct. split.
  - apply MarkerFacts.jumpToNextMarker_spec.
  - apply MarkerFacts.jumpToPrevMarker_spec.
Qed.

Lemma marker_jumps_go_to_the_nearest_witness :
  let a := Library.mkTrack "a" "A" None None None "blob:a" None Library.local in
  let m t := Markers.mkMarker "m" "a" t "Marker" None in
  match Markers.jumpToNextMarker [m 30; m 10; m 20] (Some a) 12 with
  | Some t => 12 < t /\ t <= 20
  | None => False
  end.
Proof.
  intros a m.
  pose proof (marker_jumps_go_to_the_nearest [m 30; m 10; m 20] a 12)
    as [H _].
  destruct (Markers.jumpToNextMarker [m 30; m 10; m 20] (Some a) 12) as [t|].
  - destruct H as (H1 & _ & H2). split; [exact H1|].
    apply (H2 (m 20)).
    + right. right. left. reflexivity.
    + reflexivity.
    + reflexivity.
  - specialize (H (m 20)). cbn in H.
    assert (C : 20 <= 12) by (apply H; [tauto | reflexivity]).
    vm_compute in C. apply C. reflexivity.
Defined.

(** X25.  Through any sequence of the volume keys, the mute, shuffle and
    repeat keys and buttons, and moves of the volume slider within its
    range, starting from the initial state: the volume stays within
    [[0, 1]], and the audio element has the volume and the mute flag the
    player state shows. *)
Theorem volume_stays_on_the_slider :
  forall events : list Controls.Event,
    Forall Controls.volumeOnSlider events ->
    Controls.coherent (Controls.run events Controls.initialState).
Proof. apply ControlsFacts.coherent_run. Qed.

Lemma volume_stays_on_the_slider_witness :
  Controls.coherent
    (Controls.run [Controls.Press Controls.ArrowUp;
                   Controls.SlideVolume (1 # 4);
                   Controls.Press Controls.ArrowDown;
                   Controls.Press Controls.ArrowDown;
                   Controls.Press Controls.ArrowDown;
                   Controls.ClickMute]
                  Controls.initialState).
Proof.
  apply volume_stays_on_the_slider.
  repeat constructor; vm_compute; discriminate.
Defined.

(** X26.  The repeat key and the repeat button do the same, and so do the
    shuffle key and the shuffle button, the mute key and the mute button;
    repeat goes off, all, one and back to off, so that three presses
    restore any state and fewer do not; two presses of shuffle or of mute
    restore it. *)
Theorem keys_and_buttons_agree :
  forall s : Controls.State,
    Controls.handleKeyDown Controls.KeyR s = Controls.onToggleRepeat s
    /\ Controls.handleKeyDown Controls.KeyS s = Controls.onToggleShuffle s
    /\ Controls.handleKeyDown Controls.KeyM s = Controls.toggleMute s
    /\ Controls.onToggleRepeat
         (Controls.onToggleRepeat (Controls.onToggleRepeat s)) = s
    /\ Controls.onToggleRepeat s <> s
    /\ Controls.onToggleRepeat (Controls.onToggleRepeat s) <> s
    /\ Controls.onToggleShuffle (Controls.onToggleShuffle s) = s
    /\ (Controls.audio_muted s = Controls.isMuted s ->
        Controls.toggleMute (Controls.toggleMute s) = s).
Proof.
  intros [v m sh rm av am].
  split; [reflexivity|]. split; [reflexivity|]. split; [reflexivity|].
  split; [destruct rm; reflexivity|].
  split; [destruct rm; discriminate|].
  split; [destruct rm; discriminate|].
  split.
  - unfold Controls.onToggleShuffle. cbn. now rewrite negb_involutive.
  - cbn. intros ->. unfold Controls.toggleMute. cbn.
    now rewrite negb_involutive.
Qed.

Lemma keys_and_buttons_agree_witness :
  Controls.toggleMute (Controls.toggleMute Controls.initialState)
  = Controls.initialState.
Proof.
  destruct (keys_and_buttons_agree Controls.initialState)
    as (_ & _ & _ & _ & _ & _ & _ & H).
  apply H. reflexivity.
Defined.

(** X27.  The sleep timer's display.  Without an end time it is empty.
    Otherwise it is the minutes, a colon, and the seconds on exactly two
    digits: the seconds are below 60, and minutes and seconds together are
    the whole seconds left until the end time, zero once that is reached,
    so that right after [startSleepTimer(m)] the display is [m:00] and
    from the end time on it is [0:00]. *)
Theorem remaining_time_is_minutes_and_two_digit_seconds :
  forall (endTime now : Z),
    endTime <> 0%Z ->
    let secondsLeft := (Z.max 0 (endTime - now) / 1000)%Z in
    SleepTimer.getRemainingTime (Some endTime) now
    = String.append (SleepTimer.toString (secondsLeft / 60))
        (String.append ":" (SleepTimer.twoDigits (secondsLeft mod 60)))
    /\ (0 <= secondsLeft mod 60 < 60)%Z
    /\ (0 <= secondsLeft / 60)%Z
    /\ SleepTimer.getRemainingTime None now = ""%string
    /\ (SleepTimer.expired endTime now = true ->
        SleepTimer.getRemainingTime (Some endTime) now = "0:00"%string)
    /\ (forall minutes,
          (0 <= minutes)%Z ->
          SleepTimer.startSleepTimer minutes now <> 0%Z ->
          SleepTimer.getRemainingTime
            (Some (SleepTimer.startSleepTimer minutes now)) now
          = String.append (SleepTimer.toString minutes) ":00").
Proof.
  intros endTime now Hne secondsLeft.
  assert (Hfmt : forall e, e <> 0%Z ->
            SleepTimer.getRemainingTime (Some e) now
            = String.append (SleepTimer.toString (Z.max 0 (e - now) / 1000 / 60))
                (String.append ":"
                   (SleepTimer.twoDigits (Z.max 0 (e - now) / 1000 mod 60)))).
  { intros e He. unfold SleepTimer.getRemainingTime.
    destruct (Z.eqb_spec e 0); [contradiction|]. cbv zeta.
    set (r := Z.max 0 (e - now)).
    assert (Hr : (0 <= r)%Z) by (subst r; lia).
    change 60000 with (inject_Z (Zpos 60000)).
    change 1000 with (inject_Z (Zpos 1000)).
    rewrite !SleepTimerFacts.floor_div.
    rewrite Z.rem_mod_nonneg by lia.
    assert (E1 : (r / 60000 = r / 1000 / 60)%Z).
    { rewrite Z.div_div by lia. reflexivity. }
    assert (E2 : (r mod 60000 / 1000 = r / 1000 mod 60)%Z).
    { change 60000%Z with (1000 * 60)%Z.
      rewrite Z.rem_mul_r by lia.
      rewrite (Z.mul_comm 1000), Z.div_add by lia.
      rewrite (Z.div_small (r mod 1000)) by (apply Z.mod_pos_bound; lia).
      reflexivity. }
    rewrite E1, E2.
    rewrite SleepTimerFacts.padStart0_seconds
      by (apply Z.mod_pos_bound; lia).
    reflexivity. }
  split; [now apply Hfmt|].
  split; [apply Z.mod_pos_bound; lia|].
  split; [subst secondsLeft; apply Z.div_pos; [apply Z.div_pos|]; lia|].
  split; [reflexivity|].
  split.
  - intros He. unfold SleepTimer.expired in He. apply Z.leb_le in He.
    rewrite Hfmt by exact Hne.
    replace (Z.max 0 (endTime - now)) with 0%Z by lia. reflexivity.
  - intros minutes Hm Hs. rewrite Hfmt by exact Hs.
    unfold SleepTimer.startSleepTimer.
    replace (Z.max 0 (now + minutes * 60 * 1000 - now))
      with (minutes * 60 * 1000)%Z by lia.
    rewrite Z.div_mul by lia. rewrite Z.div_mul, Z.mod_mul by lia.
    reflexivity.
Qed.

Lemma remaining_time_is_minutes_and_two_digit_seconds_witness :
  SleepTimer.getRemainingTime (Some 1700000900000%Z) 1700000000000%Z
  = "15:00"%string
  /\ SleepTimer.getRemainingTime (Some 1700000900000%Z) 1700000835500%Z
     = "1:04"%string.
Proof.
  destruct (remaining_time_is_minutes_and_two_digit_seconds
              1700000900000 1700000000000) as (H1 & _); [discriminate|].
  destruct (remaining_time_is_minutes_and_two_digit_seconds
              1700000900000 1700000835500) as (H2 & _); [discriminate|].
  split; [rewrite H1 | rewrite H2]; reflexivity.
Defined.

(** X28.  Whatever [extractVideoId] returns has exactly eleven characters,
    none of which is [?], [&] or [#].  From a short link, that is any
    prefix without the letter [y], then [youtu.be/], then eleven such
    characters, then nothing or something that starts with [?], [&] or
    [#], it returns those eleven characters. *)
Theorem extractVideoId_returns_eleven_characters :
  forall (url id pre tail : string),
    (VideoId.extractVideoId url = Some id ->
       String.length id = 11%nat /\ VideoId.allId id = true)
    /\ (VideoId.noY pre = true -> String.length id = 11%nat ->
        VideoId.allId id = true -> VideoId.stops tail = true ->
        VideoId.extractVideoId
          (String.append pre
             (String.append "youtu.be/" (String.append id tail)))
        = Some id).
Proof.
  intros url id pre tail. split.
  - apply VideoIdFacts.firstId_spec.
  - apply VideoIdFacts.extract_short_link.
Qed.

Lemma extractVideoId_returns_eleven_characters_witness :
  VideoId.extractVideoId "https://youtu.be/dQw4w9WgXcQ?t=42"
  = Some "dQw4w9WgXcQ"%string.
Proof.
  apply (proj2 (extractVideoId_returns_eleven_characters
                  "" "dQw4w9WgXcQ" "https://" "?t=42")); reflexivity.
Defined.

(* ================================================================== *)
(** * Shared band objects; the seek bar *)
(* ================================================================== *)

(** ** Band objects shared between the sliders and the presets *)

Module BandStoreFacts.
Import BandStore.

(** Writing the object [r] changes what an array shows exactly where the
    array refers to [r]. *)
Lemma deref_write (h : Heap) (a : list Ref) (i : nat) (r : Ref) (b x : EQBand) :
  NoDup a -> a !! i = Some r -> h !! r = Some b ->
  deref (<[r := x]> h) a = <[i := Some x]> (deref h a).
Proof.
  intros Hnd Hi Hr. unfold deref. apply list_eq. intros j.
  rewrite list_lookup_fmap.
  destruct (decide (j = i)) as [->|Hne].
  - rewrite Hi. cbn.
    rewrite (list_lookup_insert_eq h r) by (eapply lookup_lt_Some; eauto).
    symmetry. apply list_lookup_insert_eq.
    rewrite length_fmap. eapply lookup_lt_Some; eauto.
  - rewrite (list_lookup_insert_ne ((fun r0 => h !! r0) <$> a) i j) by lia.
    rewrite list_lookup_fmap.
    destruct (a !! j) as [r'|] eqn:Ej; [|reflexivity].
    change (Some (<[r:=x]> h !! r') = Some (h !! r')). f_equal.
    apply list_lookup_insert_ne.
    intros ->. apply Hne. eapply NoDup_lookup; eauto.
Qed.

(** It changes nothing in an array that does not refer to [r]. *)
Lemma deref_write_other (h : Heap) (a : list Ref) (r : Ref) (x : EQBand) :
  r ∉ a -> deref (<[r := x]> h) a = deref h a.
Proof.
  intros Hr. unfold deref. apply list_fmap_ext. intros j r' Hj.
  apply list_lookup_insert_ne. intros ->. apply Hr.
  eapply list_elem_of_lookup_2; eauto.
Qed.

(** New objects leave what older arrays show as it is. *)
Lemma deref_grow (h more : Heap) (a : list Ref) :
  Forall (fun r => r < length h)%nat a -> deref (h ++ more) a = deref h a.
Proof.
  intros Ha. unfold deref. apply list_fmap_ext. intros j r Hj.
  apply lookup_app_l. eapply Forall_lookup_1 in Ha; eauto.
Qed.

(** A parsed array shows the values that were parsed, and its objects are
    new and distinct. *)
Lemma parseBands_spec (bs : list EQBand) (h : Heap) :
  let '(a, h') := parseBands bs h in
  deref h' a = Some <$> bs
  /\ NoDup a
  /\ Forall (fun r => length h <= r < length h')%nat a
  /\ h' = h ++ bs.
Proof.
  unfold parseBands. split; [|split; [|split]].
  - unfold deref. apply list_eq. intros j. rewrite !list_lookup_fmap.
    destruct (decide (j < length bs)%nat) as [Hj|Hj].
    + rewrite lookup_seq_lt by exact Hj.
      destruct (lookup_lt_is_Some_2 bs j Hj) as [b Hb]. rewrite Hb.
      change (Some ((h ++ bs) !! (length h + j)%nat) = Some (Some b)).
      f_equal. rewrite lookup_app_r by lia.
      replace (length h + j - length h)%nat with j by lia. exact Hb.
    + rewrite lookup_seq_ge by lia.
      rewrite (proj2 (lookup_ge_None bs j)) by lia. reflexivity.
  - apply NoDup_seq.
  - apply Forall_forall. intros r Hr. apply elem_of_seq in Hr.
    rewrite length_app. lia.
  - reflexivity.
Qed.

Lemma loadEQPresets_parsed stored h : parsed stored h (loadEQPresets stored h).
Proof.
  unfold loadEQPresets.
  apply (map_fold_weak_ind (fun res st => parsed st h res)).
  - split; [exists []; cbn; now rewrite app_nil_r|].
    split; [intros name; rewrite !lookup_empty; tauto|].
    split; [intros name a; cbn; rewrite lookup_empty; discriminate|].
    intros n1 n2 a1 a2 r _ H. cbn in H. rewrite lookup_empty in H.
    discriminate.
  - intros name bs m [presets h'] Hfresh (Hext & Hdom & Hval & Hdis).
    unfold Heap, Ref in *.
    cbn [fst snd] in *. destruct Hext as [more ->].
    pose proof (parseBands_spec bs (h ++ more)) as Hp.
    unfold parseBands in Hp |- *. unfold parsed. cbn [fst snd].
    destruct Hp as (Hd & Hnd & Hrange & _).
    split; [exists (more ++ bs); now rewrite app_assoc|].
    split.
    { intros n. destruct (decide (n = name)) as [->|Hn].
      - rewrite !lookup_insert_eq. split; discriminate.
      - rewrite !lookup_insert_ne by auto. apply Hdom. }
    split.
    { intros n a Hn. destruct (decide (n = name)) as [->|Hne].
      - rewrite lookup_insert_eq in Hn. injection Hn as <-.
        split; [|split].
        + exists bs. rewrite lookup_insert_eq. split; [reflexivity|exact Hd].
        + exact Hnd.
        + eapply Forall_impl; [exact Hrange|]. intros r Hr. cbv beta in *.
          repeat rewrite length_app in Hr. repeat rewrite length_app. lia.
      - rewrite lookup_insert_ne in Hn by auto.
        destruct (Hval n a Hn) as ((bs' & Hs & Hd') & Hnd' & Hr').
        split; [|split].
        + exists bs'. rewrite lookup_insert_ne by auto.
          split; [exact Hs|]. rewrite <- Hd'. apply deref_grow.
          eapply Forall_impl; [exact Hr'|]. intros r Hr. cbv beta in *. lia.
        + exact Hnd'.
        + eapply Forall_impl; [exact Hr'|]. intros r Hr. cbv beta in *.
          repeat rewrite length_app in Hr. repeat rewrite length_app. lia. }
    intros n1 n2 a1 a2 r Hne H1 H2 Hr1 Hr2.
    destruct (decide (n1 = name)) as [->|Hn1];
      destruct (decide (n2 = name)) as [->|Hn2]; try contradiction.
    + rewrite lookup_insert_eq in H1. injection H1 as <-.
      rewrite lookup_insert_ne in H2 by auto.
      destruct (Hval n2 a2 H2) as (_ & _ & Hr').
      rewrite Forall_forall in Hrange, Hr'.
      specialize (Hrange r Hr1). specialize (Hr' r Hr2). cbv beta in *.
      repeat rewrite length_app in Hrange. repeat rewrite length_app in Hr'.
      lia.
    + rewrite lookup_insert_eq in H2. injection H2 as <-.
      rewrite lookup_insert_ne in H1 by auto.
      destruct (Hval n1 a1 H1) as (_ & _ & Hr').
      rewrite Forall_forall in Hrange, Hr'.
      specialize (Hrange r Hr2). specialize (Hr' r Hr1). cbv beta in *.
      repeat rewrite length_app in Hrange. repeat rewrite length_app in Hr'.
      lia.
    + rewrite lookup_insert_ne in H1, H2 by auto.
      exact (Hdis n1 n2 a1 a2 r Hne H1 H2 Hr1 Hr2).
Qed.

(** A preset that is stored is held by a mounted panel, as an array of
    distinct objects that show the stored values. *)
Lemma parsed_preset stored h res name bs :
  parsed stored h res -> stored !! name = Some bs ->
  exists a, fst res !! name = Some a
            /\ deref (snd res) a = Some <$> bs
            /\ NoDup a
            /\ Forall (fun r => r < length (snd res))%nat a.
Proof.
  intros (_ & Hdom & Hval & _) Hs.
  destruct (fst res !! name) as [a|] eqn:Ea.
  - destruct (Hval name a Ea) as ((bs' & Hs' & Hd) & Hnd & Hr).
    rewrite Hs in Hs'. injection Hs' as <-.
    exists a. repeat split; auto.
    eapply Forall_impl; [exact Hr|]. intros r Hr'. cbv beta in Hr'. lia.
  - apply Hdom in Ea. congruence.
Qed.

Lemma deref_lookup h a (bs : list EQBand) i b :
  deref h a = Some <$> bs -> bs !! i = Some b ->
  exists r, a !! i = Some r /\ h !! r = Some b.
Proof.
  intros Hd Hb. apply (f_equal (fun l => l !! i)) in Hd.
  unfold deref in Hd. rewrite !list_lookup_fmap, Hb in Hd.
  destruct (a !! i) as [r|]; [|discriminate].
  exists r. split; [reflexivity|]. cbn in Hd. now injection Hd.
Qed.

End BandStoreFacts.

(** X29.  The sliders write into a loaded user preset.  With a preset
    stored under [name], once the panel is mounted: clicking the preset
    shows its stored bands; moving slider [i] then changes band [i] of
    what is shown and leaves what is stored alone, but the panel's copy of
    the preset is changed with it, because the loaded array shares its
    band objects with the panel's preset: after [resetEQ], clicking the
    preset again shows the moved slider, not the stored gain.  Presets of
    other names are not affected, and once the panel has been mounted
    again the preset is the stored one. *)
Theorem sliders_write_into_a_loaded_user_preset :
  forall (s0 : BandStore.State) (name : string) (bs : list EQBand)
         (i : nat) (b : EQBand) (value : Q),
    BandStore.storage s0 !! name = Some bs ->
    bs !! i = Some b ->
    let s := BandStore.mountPanel s0 in
    let s1 := BandStore.clickUserPreset name s in
    let s2 := fst (BandStore.handleEQChange (Z.of_nat i) value s1) in
    let moved := <[i := mkEQBand (frequency b) value]> bs in
    BandStore.bands s1 = Some <$> bs
    /\ snd (BandStore.handleEQChange (Z.of_nat i) value s1) = None
    /\ BandStore.bands s2 = Some <$> moved
    /\ BandStore.storage s2 = BandStore.storage s0
    /\ BandStore.bands (BandStore.clickUserPreset name (BandStore.resetEQ s2))
       = Some <$> moved
    /\ BandStore.bands
         (BandStore.clickUserPreset name
            (BandStore.mountPanel (BandStore.resetEQ s2)))
       = Some <$> bs
    /\ (forall name' bs',
          name' <> name -> BandStore.storage s0 !! name' = Some bs' ->
          BandStore.bands (BandStore.clickUserPreset name' s2) = Some <$> bs').
Proof.
  intros s0 name bs i b value Hs Hb s s1 s2 moved.
  pose proof (BandStoreFacts.loadEQPresets_parsed
                (BandStore.storage s0) (BandStore.heap s0)) as Hp.
  subst s. unfold BandStore.mountPanel in s1.
  destruct (BandStore.loadEQPresets (BandStore.storage s0)
                                    (BandStore.heap s0)) as [presets h].
  destruct (BandStoreFacts.parsed_preset _ _ _ name bs Hp Hs)
    as (a & Ha & Hd & Hnd & Hr).
  cbn [fst snd] in Ha, Hd, Hr.
  destruct (BandStoreFacts.deref_lookup h a bs i b Hd Hb) as (r & Hi & Hh).
  assert (E1 : s1 = BandStore.mkState h a presets (BandStore.storage s0)).
  { subst s1. unfold BandStore.clickUserPreset. cbn. now rewrite Ha. }
  set (x := mkEQBand (frequency b) value).
  assert (E2 : BandStore.handleEQChange (Z.of_nat i) value s1
               = (BandStore.mkState (<[r := x]> h) a presets
                                    (BandStore.storage s0), None)).
  { rewrite E1. unfold BandStore.handleEQChange.
    cbn [BandStore.eqBands BandStore.heap BandStore.userPresets
         BandStore.storage].
    rewrite LibraryFacts.at_index_nat, Hi, Hh. reflexivity. }
  assert (Hmoved : BandStore.deref (<[r := x]> h) a = Some <$> moved).
  { rewrite (BandStoreFacts.deref_write h a i r b x Hnd Hi Hh), Hd.
    subst moved. now rewrite list_fmap_insert. }
  subst s2. rewrite E2. cbn [fst snd]. rewrite E1.
  split; [exact Hd|]. split; [reflexivity|]. split; [exact Hmoved|].
  split; [reflexivity|].
  assert (Hreset : exists more,
            BandStore.resetEQ
              (BandStore.mkState (<[r := x]> h) a presets
                                 (BandStore.storage s0))
            = BandStore.mkState (<[r := x]> h ++ more)
                (seq (length (<[r := x]> h)) (length more)) presets
                (BandStore.storage s0)).
  { unfold BandStore.resetEQ, BandStore.parseBands. cbn. eexists.
    reflexivity. }
  destruct Hreset as (more & Er). rewrite Er. clear Er.
  split; [|split].
  - unfold BandStore.clickUserPreset, BandStore.bands.
    cbn [BandStore.userPresets]. rewrite Ha. unfold BandStore.onLoadPreset.
    cbn [BandStore.heap BandStore.eqBands].
    rewrite BandStoreFacts.deref_grow; [exact Hmoved|].
    eapply Forall_impl; [exact Hr|]. intros r' Hr'. cbv beta in *.
    pose proof (length_insert h r x) as Hlen.
    unfold BandStore.Heap, BandStore.Ref in *. lia.
  - pose proof (BandStoreFacts.loadEQPresets_parsed
                  (BandStore.storage s0) (<[r := x]> h ++ more)) as Hp2.
    unfold BandStore.mountPanel. cbn [BandStore.storage BandStore.heap].
    destruct (BandStore.loadEQPresets (BandStore.storage s0)
                                      (<[r := x]> h ++ more))
      as [presets2 h2].
    destruct (BandStoreFacts.parsed_preset _ _ _ name bs Hp2 Hs)
      as (a2 & Ha2 & Hd2 & _).
    cbn [fst snd] in Ha2, Hd2.
    unfold BandStore.clickUserPreset, BandStore.bands.
    cbn [BandStore.userPresets]. rewrite Ha2. exact Hd2.
  - intros name' bs' Hne Hs'.
    destruct (BandStoreFacts.parsed_preset _ _ _ name' bs' Hp Hs')
      as (a' & Ha' & Hd' & _).
    cbn [fst snd] in Ha', Hd'.
    unfold BandStore.clickUserPreset, BandStore.bands.
    cbn [BandStore.userPresets]. rewrite Ha'. unfold BandStore.onLoadPreset.
    cbn [BandStore.heap BandStore.eqBands].
    rewrite BandStoreFacts.deref_write_other; [exact Hd'|].
    destruct Hp as (_ & _ & _ & Hdis).
    apply (Hdis name name' a a' r); auto.
    eapply list_elem_of_lookup_2; eauto.
Qed.

Lemma sliders_write_into_a_loaded_user_preset_witness :
  let mine := [mkEQBand 60 3; mkEQBand 170 (-2)] in
  let s0 := BandStore.mkState [] [] ∅ {[ "Mine"%string := mine ]} in
  let s2 := fst (BandStore.handleEQChange 1 9
                   (BandStore.clickUserPreset "Mine"
                      (BandStore.mountPanel s0))) in
  BandStore.bands (BandStore.clickUserPreset "Mine" (BandStore.resetEQ s2))
  = [Some (mkEQBand 60 3); Some (mkEQBand 170 9)]
  /\ BandStore.storage s2 !! "Mine"%string = Some mine.
Proof.
  intros mine s0 s2.
  destruct (sliders_write_into_a_loaded_user_preset s0 "Mine" mine 1
              (mkEQBand 170 (-2)) 9) as (_ & _ & _ & Hst & Hre & _).
  - apply lookup_singleton_eq.
  - reflexivity.
  - split; [exact Hre|].
    etransitivity; [exact (f_equal (fun m => m !! "Mine"%string) Hst)|].
    apply lookup_singleton_eq.
Defined.

(** X30.  A click on the seek bar, the duration being a finite number
    that is not negative.  Inside a bar of positive width it asks for the
    time that is the clicked fraction of the duration, which lies between
    0 and the duration: as a marker when the click is a right click or
    made with Ctrl or Meta, as a seek otherwise.  With a positive duration
    the filled part of the bar ends, after the seek, where the click was.
    With a duration of 0, which the player has until the metadata of a
    track is loaded, every click asks for time 0 and the bar stays empty
    wherever the click was.  On a bar of zero width the time is not a
    finite number and [handleSeek] leaves the current time alone.  Without
    a track the click is ignored. *)
Theorem seek_bar_click_stays_within_the_track :
  forall (duration clientX rect_left rect_width currentTime : Q)
         (button : Z) (ctrlKey metaKey : bool),
    0 <= duration ->
    let click hasTrack width :=
      SeekBar.handleSeekBarClick hasTrack duration clientX rect_left width
                                 button ctrlKey metaKey in
    let marker := (button =? 2)%Z || ctrlKey || metaKey in
    (0 < rect_width ->
     rect_left <= clientX <= rect_left + rect_width ->
     exists t,
       click true rect_width
       = (if marker then SeekBar.OnAddMarker (Some t)
          else SeekBar.OnSeek (Some t))
       /\ 0 <= t <= duration
       /\ t == (clientX - rect_left) / rect_width * duration
       /\ SeekBar.handleSeek (Some t) currentTime = t
       /\ (0 < duration ->
           SeekBar.progress (SeekBar.handleSeek (Some t) currentTime) duration
           == (clientX - rect_left) / rect_width * 100)
       /\ (duration == 0 ->
           t == 0
           /\ SeekBar.progress (SeekBar.handleSeek (Some t) currentTime)
                               duration == 0))
    /\ click true 0
       = (if marker then SeekBar.OnAddMarker None else SeekBar.OnSeek None)
    /\ SeekBar.handleSeek None currentTime = currentTime
    /\ click false rect_width = SeekBar.Ignored.
Proof.
  intros duration clientX left width ct button ctrl meta Hd click marker.
  split; [|split; [reflexivity|split; reflexivity]].
  intros Hw Hx.
  exists ((clientX - left) / width * duration).
  assert (Hz : Qeq_bool width 0 = false).
  { destruct (Qeq_bool width 0) eqn:E; [|reflexivity].
    apply Qeq_bool_iff in E. lra. }
  assert (Hf : 0 <= (clientX - left) / width <= 1).
  { split; [apply Qle_shift_div_l | apply Qle_shift_div_r]; lra. }
  split.
  { subst click marker. unfold SeekBar.handleSeekBarClick. cbn [negb].
    cbv zeta. unfold JS.fin, JS.div, JS.or0, JS.mul, JS.lift2.
    rewrite Hz. reflexivity. }
  split; [nra|]. split; [reflexivity|]. split; [reflexivity|]. split.
  - intros Hpos. unfold SeekBar.progress, SeekBar.handleSeek.
    destruct (Qeq_bool duration 0) eqn:E.
    { apply Qeq_bool_iff in E. lra. }
    field. split; lra.
  - intros Hzero. split; [rewrite Hzero; ring|].
    unfold SeekBar.progress, SeekBar.handleSeek.
    destruct (Qeq_bool duration 0) eqn:E.
    + rewrite Hzero. field. lra.
    + apply Qeq_bool_iff in Hzero. congruence.
Qed.

Lemma seek_bar_click_stays_within_the_track_witness :
  (exists t,
     SeekBar.handleSeekBarClick true 200 350 100 1000 0 false false
     = SeekBar.OnSeek (Some t)
     /\ 0 <= t <= 200
     /\ SeekBar.progress (SeekBar.handleSeek (Some t) 17) 200 == 25)
  /\ (exists t,
        SeekBar.handleSeekBarClick true 0 350 100 1000 0 false false
        = SeekBar.OnSeek (Some t)
        /\ t == 0
        /\ SeekBar.progress (SeekBar.handleSeek (Some t) 0) 0 == 0).
Proof.
  split.
  - destruct (seek_bar_click_stays_within_the_track 200 350 100 1000 17 0
                false false ltac:(lra)) as [H _].
    destruct H as (t & Ha & Hr & Ht & _ & Hp & _).
    + reflexivity.
    + split; vm_compute; discriminate.
    + exists t. split; [exact Ha|]. split; [exact Hr|].
      rewrite Hp by reflexivity. reflexivity.
  - destruct (seek_bar_click_stays_within_the_track 0 350 100 1000 0 0
                false false ltac:(lra)) as [H _].
    destruct H as (t & Ha & _ & _ & _ & _ & Hz).
    + reflexivity.
    + split; vm_compute; discriminate.
    + destruct Hz as [Hz1 Hz2]; [reflexivity|].
      exists t. split; [exact Ha|]. split; [exact Hz1 | exact Hz2].
Defined.
